(** * whatsappy: the binary stanza codec and the session layer

    A shallow embedding of [whatsappy/stream.py] (classes [Reader] and
    [Writer]) and of the parts of [whatsappy/client.py] that drive the
    handshake, the dispatch loop, the callback registry and message ids.

    Python 2 byte strings are lists of bytes, Python integers are [Z],
    exceptions are an explicit error result, and the mutable objects
    ([Reader], [Writer], [Client], the callbacks) are threaded as state. *)

From Stdlib Require Import ZArith List Lia Bool Permutation.
From Stdlib Require Import Strings.Byte.
From Stdlib Require Strings.String DecimalString DecimalZ.
Import ListNotations.
Import String.StringSyntax.
Delimit Scope string_scope with string.

Local Open Scope Z_scope.

(** ** Python values used by the code *)

(** A Python 2 [str]: a sequence of bytes. *)
Definition str : Type := list byte.

(** Literal byte strings are written [b"..."]. *)
Definition b (s : String.string) : str := String.list_byte_of_string s.
Arguments b s%_string.

Definition len {A} (l : list A) : Z := Z.of_nat (length l).

(** The exceptions the two modules raise or let escape. *)
Inductive exn : Type :=
| MessageIncomplete
| EndOfStream
| StreamError
| ConnectionError
| LoginError
| ValueError
| TypeError
| IndexError
| KeyError
| AttributeError
| LookupError.

(** The outcome of a call: a value, an exception, or no answer within the
    recursion budget of the model (a loop that keeps waiting). *)
Inductive outcome (A : Type) : Type :=
| Ok (a : A)
| Raise (e : exn)
| Diverge.
Arguments Ok {A} a.
Arguments Raise {A} e.
Arguments Diverge {A}.

(** [ord(c)] of a one-byte string and [chr(i)]. *)
Definition ord1 (c : byte) : Z := Z.of_N (Byte.to_N c).

Definition ord (s : str) : outcome Z :=
  match s with
  | [c] => Ok (ord1 c)
  | _ => Raise TypeError
  end.

Definition byte_of_Z (i : Z) : byte :=
  match Byte.of_N (Z.to_N i) with
  | Some c => c
  | None => "000"%byte
  end.

Definition chr (i : Z) : outcome str :=
  if (0 <=? i) && (i <? 256) then Ok [byte_of_Z i] else Raise ValueError.

(** [s[i]] on a byte string, for the constant indices the code uses. *)
Definition index (s : str) (i : nat) : outcome byte :=
  match nth_error s i with
  | Some c => Ok c
  | None => Raise IndexError
  end.

(** [x + y] where [y] may be [None] (a function fell off its end). *)
Definition add_str (x : str) (y : option str) : outcome str :=
  match y with
  | Some s => Ok (x ++ s)
  | None => Raise TypeError
  end.

Definition byte_eqb (x y : byte) : bool := Byte.eqb x y.

Definition AT : byte := "@"%byte.

(** ["@" in s] *)
Definition contains_at (s : str) : bool := existsb (byte_eqb AT) s.

(** [s.partition("@")]: the part before the first ["@"], the separator
    (empty when absent) and the part after it. *)
Fixpoint partition_at (s : str) : str * str * str :=
  match s with
  | [] => ([], [], [])
  | c :: rest =>
      if byte_eqb AT c then ([], [c], rest)
      else let '(u, a, r) := partition_at rest in (c :: u, a, r)
  end.

(** ** Methods of a mutable object *)

(** A method answers or raises, and leaves the object in some state either
    way: what was consumed or written before an exception stays so. *)
Definition SM (S A : Type) : Type := S -> outcome A * S.

Definition ret {S A} (a : A) : SM S A := fun s => (Ok a, s).
Definition raise {S A} (e : exn) : SM S A := fun s => (Raise e, s).
Definition diverge {S A} : SM S A := fun s => (Diverge, s).
Definition lift {S A} (x : outcome A) : SM S A := fun s => (x, s).
Definition bind {S A B} (c : SM S A) (k : A -> SM S B) : SM S B :=
  fun s =>
    match c s with
    | (Ok a, s') => k a s'
    | (Raise e, s') => (Raise e, s')
    | (Diverge, s') => (Diverge, s')
    end.

(** ** Node (whatsappy.node) *)

(** Modelled from the spec: the class [Node] lives in [whatsappy/node.py],
    outside the two modules embedded here.  The spec describes a passive
    tree with a
    name, a mapping of attributes from string to string with unique keys, an
    optional data payload and an ordered list of children (normalised to a
    list).  The attribute dictionary is kept as an association list in the
    order in which the dictionary is iterated. *)
#[local] Unset Elimination Schemes.
Inductive Node : Type :=
  mkNode {
    name : str;
    attributes : list (str * str);
    data : option str;
    children : list Node
  }.
#[local] Set Elimination Schemes.

(** Induction on a node, with the property known of every child. *)
Fixpoint Node_ind' (P : Node -> Prop)
         (H : forall nm attrs d cs, Forall P cs -> P (mkNode nm attrs d cs))
         (n : Node) : P n :=
  match n with
  | mkNode nm attrs d cs =>
      H nm attrs d cs
        ((fix each (l : list Node) : Forall P l :=
            match l with
            | [] => Forall_nil P
            | c :: l' => Forall_cons c (Node_ind' P H c) (each l')
            end) cs)
  end.

(** [Node(name)]: no attributes, no data, no children. *)
Definition Node_new (n : str) : Node := mkNode n [] None [].

Definition str_eqb (x y : str) : bool :=
  if list_eq_dec Byte.byte_eq_dec x y then true else false.

(** [d[k] = v] on a dictionary. *)
Fixpoint dict_set (d : list (str * str)) (k v : str) : list (str * str) :=
  match d with
  | [] => [(k, v)]
  | (k', v') :: rest =>
      if str_eqb k' k then (k', v) :: rest else (k', v') :: dict_set rest k v
  end.

Fixpoint dict_get (d : list (str * str)) (k : str) : option str :=
  match d with
  | [] => None
  | (k', v') :: rest => if str_eqb k' k then Some v' else dict_get rest k
  end.

(** Truth value of [node.data] and [node.children] in an [if]. *)
Definition truthy_data (d : option str) : bool :=
  match d with
  | Some (_ :: _) => true
  | _ => false
  end.

Definition truthy_list {A} (l : list A) : bool :=
  match l with
  | [] => false
  | _ => true
  end.

(** ** The external collaborators *)

(** Modelled from the spec: [whatsappy/tokens.py] is outside the two modules
    embedded here.  The spec gives the token dictionary as two pure functions over
    a fixed table: [str2tok] answers the id of a string, or [None] when the
    string is not in the table; [tok2str] answers the string of an id ([None]
    here stands for a failed lookup). *)
Class Tokens : Type := {
  str2tok : str -> option Z;
  tok2str : Z -> option str
}.

(** Modelled from the spec: [whatsappy/encryption.py] is outside the two
    modules embedded here.  The spec gives an [Encryption] built from the secret
    and the nonce, with [encrypt(bytes, prepend_mac) -> bytes] and
    [decrypt(bytes) -> bytes], each direction carrying its own keystream and
    counter.  [enc] and [dec] are the states of the two directions, [derive]
    is the constructor, and a call advances the state of its direction.  The
    second argument of [encrypt] is optional in the calls of the source. *)
Class Cipher : Type := {
  enc : Type;
  dec : Type;
  derive : str -> option str -> enc * dec;
  run_encrypt : enc -> str -> option bool -> str * enc;
  run_decrypt : dec -> str -> outcome str * dec
}.

(** ** Reader (whatsappy.stream) *)

Module Reader.
Section Reader.
Context {T : Tokens} {C : Cipher}.

(** The attributes of a [Reader] object. *)
Record t : Type := mk {
  buf : str;
  offset : Z;
  decrypt : option dec
}.

(** [Reader()] *)
Definition __init__ : t := mk [] 0 None.

Definition M : Type -> Type := SM t.

Notation "x <- c ;; k" := (bind c (fun x => k))
  (at level 61, c at next level, right associativity).
Notation "c ;;; k" := (bind c (fun _ => k))
  (at level 61, right associativity).

(** [self.buf += buf] *)
Definition data (chunk : str) (r : t) : t :=
  mk (buf r ++ chunk) (offset r) (decrypt r).

Definition _consume (size : Z) : M str := fun r =>
  if size >? len (buf r) then (Raise StreamError, r)
  else (Ok (firstn (Z.to_nat size) (buf r)),
        mk (skipn (Z.to_nat size) (buf r)) (offset r + size) (decrypt r)).

Definition _peek (bytes : Z) : M str := fun r =>
  (Ok (firstn (Z.to_nat bytes) (buf r)), r).

Definition peek_int8 : M Z :=
  s <- _peek 1 ;; lift (ord s).

Definition peek_int16 : M Z :=
  s <- _peek 2 ;;
  c0 <- lift (index s 0) ;;
  c1 <- lift (index s 1) ;;
  ret (Z.lor (Z.shiftl (ord1 c0) 8) (ord1 c1)).

Definition peek_int24 : M Z :=
  s <- _peek 3 ;;
  c0 <- lift (index s 0) ;;
  c1 <- lift (index s 1) ;;
  c2 <- lift (index s 2) ;;
  ret (Z.lor (Z.lor (Z.shiftl (ord1 c0) 16) (Z.shiftl (ord1 c1) 8)) (ord1 c2)).

Definition int8 : M Z :=
  s <- _consume 1 ;; lift (ord s).

Definition int16 : M Z :=
  s <- _consume 2 ;;
  c0 <- lift (index s 0) ;;
  c1 <- lift (index s 1) ;;
  ret (Z.lor (Z.shiftl (ord1 c0) 8) (ord1 c1)).

Definition int24 : M Z :=
  s <- _consume 3 ;;
  c0 <- lift (index s 0) ;;
  c1 <- lift (index s 1) ;;
  c2 <- lift (index s 2) ;;
  ret (Z.lor (Z.lor (Z.shiftl (ord1 c0) 16) (Z.shiftl (ord1 c1) 8)) (ord1 c2)).

(** The last branch builds its message with [ord(token)] on an integer,
    so what escapes is a [TypeError]. *)
Definition list_start : M Z :=
  token <- int8 ;;
  if token =? 0x00 then ret 0
  else if token =? 0xF8 then int8
  else if token =? 0xF9 then int16
  else raise TypeError.

Definition lookup (token : Z) : M str :=
  match tok2str token with
  | Some s => ret s
  | None => raise LookupError
  end.

(** One nibble of the packed form [0xFF]: [str(decimal)] below ten,
    [chr(decimal - 10 + 45)] from ten on. *)
Definition nibble_char (decimal : Z) : byte :=
  if decimal <? 10 then byte_of_Z (48 + decimal)
  else byte_of_Z (decimal - 10 + 45).

Definition nibble_at (data : str) (i : Z) : byte :=
  let shift := 4 * (1 - i mod 2) in
  let c := nth (Z.to_nat (i / 2)) data "000"%byte in
  nibble_char (Z.shiftr (Z.land (ord1 c) (Z.shiftl 15 shift)) shift).

Definition nibbles (data : str) (nibbles_count : Z) : str :=
  map (fun i => nibble_at data (Z.of_nat i)) (seq 0 (Z.to_nat nibbles_count)).

(** [string]; the argument bounds the depth of the recursion through the
    JID form. *)
Fixpoint string_fuel (fuel : nat) : M str :=
  match fuel with
  | O => diverge
  | S fuel =>
      token <- int8 ;;
      if token =? 0x00 then ret []
      else if (0x02 <? token) && (token <? 0xf5) then
        if token =? 0xec then (n <- int8 ;; lookup (0xed + n))
        else lookup token
      else if token =? 0xFA then
        user <- string_fuel fuel ;;
        server <- string_fuel fuel ;;
        ret (user ++ [AT] ++ server)
      else if token =? 0xFC then (n <- int8 ;; _consume n)
      else if token =? 0xFD then (n <- int24 ;; _consume n)
      else if token =? 0xFE then (n <- int8 ;; lookup (0xF5 + n))
      else if token =? 0xFF then
        nibble <- int8 ;;
        let ignore_last_nibble := Z.land nibble 0x80 in
        let size := Z.land nibble 0x7f in
        let nibbles_count :=
          size * 2 - (if ignore_last_nibble =? 0 then 0 else 1) in
        data <- _consume size ;;
        ret (nibbles data nibbles_count)
      else raise TypeError
  end.

(** [for _ in range(n)]: collect the answers of [n] calls. *)
Fixpoint times {A} (n : nat) (c : M A) : M (list A) :=
  match n with
  | O => ret []
  | S n => x <- c ;; xs <- times n c ;; ret (x :: xs)
  end.

Fixpoint attributes_loop (fuel : nat) (n : nat) (attrs : list (str * str))
  : M (list (str * str)) :=
  match n with
  | O => ret attrs
  | S n =>
      name <- string_fuel fuel ;;
      value <- string_fuel fuel ;;
      attributes_loop fuel n (dict_set attrs name value)
  end.

(** [attributes(length)]; [(length - 1) / 2] is the floor division of
    Python 2. *)
Definition attributes_fuel (fuel : nat) (length : Z) : M (list (str * str)) :=
  attributes_loop fuel (Z.to_nat ((length - 1) / 2)) [].

Definition list_with (read : M Node) : M (list Node) :=
  n <- list_start ;; times (Z.to_nat n) read.

Fixpoint _read_fuel (fuel : nat) : M Node :=
  match fuel with
  | O => diverge
  | S fuel =>
      length <- list_start ;;
      token <- peek_int8 ;;
      if token =? 0x01 then
        _consume 1 ;;;
        attributes <- attributes_fuel fuel length ;;
        ret (mkNode (b "start") attributes None [])
      else if token =? 0x02 then
        _consume 1 ;;; raise EndOfStream
      else
        name <- string_fuel fuel ;;
        attributes <- attributes_fuel fuel length ;;
        if length mod 2 =? 0 then
          token <- peek_int8 ;;
          if (token =? 0xf8) || (token =? 0xf9) then
            children <- list_with (_read_fuel fuel) ;;
            ret (mkNode name attributes None children)
          else
            data <- string_fuel fuel ;;
            ret (mkNode name attributes (Some data) [])
        else ret (mkNode name attributes None [])
  end.

(** Every recursive call comes after at least one byte was consumed, so
    one more than the number of buffered bytes bounds the depth. *)
Definition budget (r : t) : nat := S (length (buf r)).

Definition string : M str := fun r => string_fuel (budget r) r.
Definition attributes (length : Z) : M (list (str * str)) :=
  fun r => attributes_fuel (budget r) length r.
Definition _read : M Node := fun r => _read_fuel (budget r) r.
Definition list : M (Datatypes.list Node) := fun r => list_with (_read_fuel (budget r)) r.

(** [try: ... finally: self.buf = buf; self.offset = offset] *)
Definition _read_encrypted (length : Z) : M (Node * str) :=
  message_buf <- _consume length ;;
  fun r =>
    match decrypt r with
    | None => (Raise TypeError, r)
    | Some d =>
        let '(out, d') := run_decrypt d message_buf in
        match out with
        | Ok message_buf =>
            let saved_buf := buf r in
            let saved_offset := offset r in
            let '(res, _) := _read (mk message_buf 0 (Some d')) in
            let r' := mk saved_buf saved_offset (Some d') in
            match res with
            | Ok node => (Ok (node, message_buf), r')
            | Raise e => (Raise e, r')
            | Diverge => (Diverge, r')
            end
        | Raise e => (Raise e, mk (buf r) (offset r) (Some d'))
        | Diverge => (Diverge, mk (buf r) (offset r) (Some d'))
        end
    end.

Definition ENCRYPTED_IN : Z := 0x8.

Definition read : M (Node * str) :=
  fun r =>
    if len (buf r) <=? 2 then (Raise MessageIncomplete, r)
    else
      (word <- peek_int24 ;;
       let flags := Z.shiftr (Z.land (Z.shiftr word 16) 0xF0) 4 in
       let length :=
         Z.lor (Z.land word 0xFFFF)
               (Z.shiftl (Z.land (Z.shiftr word 16) 0x0F) 16) in
       fun r =>
         if length >? len (buf r) then (Raise MessageIncomplete, r)
         else
           (int24 ;;;
            if negb (Z.land flags ENCRYPTED_IN =? 0) then _read_encrypted length
            else
              plain <- _peek length ;;
              node <- _read ;;
              ret (node, plain)) r) r.

End Reader.
End Reader.

(** ** Writer (whatsappy.stream) *)

Module Writer.
Section Writer.
Context {T : Tokens} {C : Cipher}.

(** The attribute dictionary of a node, by a name that the method
    [attributes] below does not hide. *)
#[local] Abbreviation attributes_of := attributes.

(** The one attribute of a [Writer] object. *)
Record t : Type := mk {
  encrypt : option enc
}.

(** [Writer()] *)
Definition __init__ : t := mk None.

Definition bind {A B} (c : outcome A) (k : A -> outcome B) : outcome B :=
  match c with
  | Ok a => k a
  | Raise e => Raise e
  | Diverge => Diverge
  end.

Notation "x <- c ;; k" := (bind c (fun x => k))
  (at level 61, c at next level, right associativity).

(** [token]: past [0x1F4] the function falls off its end and answers
    [None]. *)
Definition token (token : Z) : outcome (option str) :=
  if token <? 0xF5 then
    c <- chr token ;; Ok (Some c)
  else if token <=? 0x1F4 then
    c <- chr (token - 0xF5) ;; Ok (Some ([xfe] ++ c))
  else Ok None.

Definition int8 (value : Z) : str :=
  [byte_of_Z (Z.land value 0xFF)].

Definition int16 (value : Z) : str :=
  [byte_of_Z (Z.shiftr (Z.land value 0xFF00) 8);
   byte_of_Z (Z.shiftr (Z.land value 0x00FF) 0)].

Definition int24 (value : Z) : str :=
  [byte_of_Z (Z.shiftr (Z.land value 0xFF0000) 16);
   byte_of_Z (Z.shiftr (Z.land value 0x00FF00) 8);
   byte_of_Z (Z.shiftr (Z.land value 0x0000FF) 0)].

(** [bytes]; the [unicode] case does not arise on byte strings. *)
Definition bytes (string : str) : str :=
  let leader :=
    if len string >? 0xFF then [xfd] ++ int24 (len string)
    else [xfc] ++ int8 (len string) in
  leader ++ string.

(** [string] and [jid] call each other; the argument bounds the depth of
    that recursion. *)
Fixpoint string_fuel (fuel : nat) (string : str) : outcome (option str) :=
  match fuel with
  | O => Diverge
  | S fuel =>
      match str2tok string with
      | Some tok =>
          if tok >? 0xEB then
            x <- token 0xEC ;;
            y <- token (tok - 0xED) ;;
            match x with
            | Some x => z <- add_str x y ;; Ok (Some z)
            | None => Raise TypeError
            end
          else token tok
      | None =>
          if contains_at string then
            let '(user, _, server) := partition_at string in
            (* jid(user, server) *)
            let buf := [xfa] in
            buf <- (if truthy_list user
                    then u <- string_fuel fuel user ;; add_str buf u
                    else Ok (buf ++ [x00])) ;;
            s <- string_fuel fuel server ;;
            buf <- add_str buf s ;;
            Ok (Some buf)
          else Ok (Some (bytes string))
      end
  end.

(** Each call of [string] from [jid] is on a strictly shorter string. *)
Definition string (s : str) : outcome (option str) :=
  string_fuel (S (length s)) s.

Definition jid (user server : str) : outcome str :=
  let buf := [xfa] in
  buf <- (if truthy_list user
          then u <- string user ;; add_str buf u
          else Ok (buf ++ [x00])) ;;
  s <- string server ;;
  add_str buf s.

Fixpoint attributes (attrs : list (str * str)) : outcome str :=
  match attrs with
  | [] => Ok []
  | (key, value) :: rest =>
      k <- string key ;;
      buf <- add_str [] k ;;
      v <- string value ;;
      buf <- add_str buf v ;;
      tail <- attributes rest ;;
      Ok (buf ++ tail)
  end.

Definition list_start (length : Z) : outcome str :=
  if length =? 0 then Ok [x00]
  else if length <=? 0xFF then c <- chr length ;; Ok ([xf8] ++ c)
  else Ok ([xf9] ++ int16 length).

Definition node_length (node : Node) : Z :=
  1
  + (if truthy_list (attributes_of node)
     then len (attributes_of node) * 2 else 0)
  + (if truthy_list (children node) then 1 else 0)
  + (if truthy_data (data node) then 1 else 0).

Fixpoint _node (node : Node) : outcome str :=
  buf <- list_start (node_length node) ;;
  n <- string (name node) ;;
  buf <- add_str buf n ;;
  a <- attributes (attributes_of node) ;;
  let buf := buf ++ a in
  buf <- (match data node with
          | Some (c :: d) => Ok (buf ++ bytes (c :: d))
          | _ => Ok buf
          end) ;;
  if truthy_list (children node) then
    ls <- list_start (len (children node)) ;;
    let buf := buf ++ ls in
    (fix each (cs : list Node) (buf : str) : outcome str :=
       match cs with
       | [] => Ok buf
       | child :: cs => c <- _node child ;; each cs (buf ++ c)
       end) (children node) buf
  else Ok buf.

(** [node(node, encrypt)]: the frame and the plain payload; the state of
    the cipher advances when it is used. *)
Definition node (node : option Node) (encrypt_arg : option bool) (w : t)
  : outcome (str * str) * t :=
  match (match node with
         | None => Ok [x00]
         | Some n => _node n
         end) with
  | Ok plain =>
      let encrypt_flag :=
        match encrypt_arg with
        | None => match encrypt w with Some _ => true | None => false end
        | Some e => e
        end in
      if encrypt_flag then
        match encrypt w with
        | None => (Raise TypeError, w)
        | Some e =>
            let '(buf, e') := run_encrypt e plain None in
            let first :=
              Z.lor (Z.shiftl 8 4)
                    (Z.shiftr (Z.land (len buf) 16711680) 16) in
            let second := Z.shiftr (Z.land (len buf) 65280) 8 in
            let third := Z.land (len buf) 255 in
            let header :=
              int24 (Z.lor (Z.lor (Z.shiftl first 16) (Z.shiftl second 8))
                           third) in
            (Ok (header ++ buf, plain), mk (Some e'))
        end
      else
        let header := int24 (len plain) in
        (Ok (header ++ plain, plain), w)
  | Raise e => (Raise e, w)
  | Diverge => (Diverge, w)
  end.

(** [start_stream(domain, resource)]: the dictionary literal has the two
    keys [to] and [resource]. *)
Definition start_stream (domain resource : str) : outcome str :=
  let attrs := [(b "to", domain); (b "resource", resource)] in
  let buf := [x57; x41; x01; x05; x00; x00; x17] in
  ls <- list_start (len attrs * 2 + 1) ;;
  let buf := buf ++ ls ++ [x01] in
  a <- attributes attrs ;;
  Ok (buf ++ a).

End Writer.
End Writer.

(** ** Callback (whatsappy.callbacks) *)

(** What a callback may answer and what [wait_for_callback] may return. *)
Inductive value : Type :=
| VNone
| VInt (i : Z)
| VStr (s : str)
| VExc (e : exn).

(** [isinstance(v, Exception)] *)
Definition is_exception (v : value) : option exn :=
  match v with
  | VExc e => Some e
  | _ => None
  end.

(** Modelled from the spec: [whatsappy/callbacks.py] is outside the two
    modules embedded here.  The spec gives a callback a stanza name, a predicate
    [test(node) -> bool], an action [call(node) -> result] and a latch that
    stores the result and marks the callback [called]. *)
Module Callback.
Record t : Type := mk {
  name : str;
  test : Node -> bool;
  callback : Node -> value;
  called : bool;
  result : value
}.

(** [Callback(name, callback)] with a given predicate. *)
Definition __init__ (n : str) (p : Node -> bool) (f : Node -> value) : t :=
  mk n p f false VNone.

(** [callback(node)]: run the action and latch its answer. *)
Definition __call__ (cb : t) (node : Node) : t :=
  mk (name cb) (test cb) (callback cb) true (callback cb node).
End Callback.

(** Modelled from the spec: [node[key]] reads an attribute by its key; a
    missing key is the [KeyError] of the underlying dictionary. *)
Definition getitem (node : Node) (key : str) : outcome str :=
  match dict_get (attributes node) key with
  | Some v => Ok v
  | None => Raise KeyError
  end.

Definition has_attribute (node : Node) (key : str) : bool :=
  match dict_get (attributes node) key with
  | Some _ => true
  | None => false
  end.

(** [str(i)] and ["%d" % i] *)
Definition decimal (i : Z) : str :=
  String.list_byte_of_string (DecimalString.NilZero.string_of_int (Z.to_int i)).

(** ["%s" % data] where [data] may be [None]. *)
Definition format_s (data : option str) : str :=
  match data with
  | Some d => d
  | None => b "None"
  end.

(** [for x in l: f(x)] *)
Fixpoint for_each {S A} (l : list A) (f : A -> SM S unit) : SM S unit :=
  match l with
  | [] => ret tt
  | x :: rest => bind (f x) (fun _ => for_each rest f)
  end.

(** ** Client (whatsappy.client) *)

Module Client.
Section Client.
Context {T : Tokens} {C : Cipher}.

Definition SERVER : str := b "s.whatsapp.net".
Definition TIMEOUT : Z := 1.

(** What [select] and [recv] find on the connection. *)
Inductive event : Type :=
| Timeout              (* nothing readable within [TIMEOUT] *)
| Recv (chunk : str)   (* [recv] answers these bytes; none means closed *)
| RecvError            (* [recv] raises [socket.error] *)
| SelectError.         (* [select] raises [socket.error] *)

(** The TCP connection as the client sees it: the chunks handed to
    [sendall] so far, what will arrive, and whether the peer still takes
    data. *)
Record Network : Type := mkNetwork {
  sent : list str;
  arriving : list event;
  writable : bool
}.

Inductive socket_t : Type := TcpSocket.

(** The attributes of a [Client] once [connect] has made its [Reader] and
    [Writer], together with the callback objects it refers to, the
    connection and the clock.  The registry [callbacks] maps a stanza name
    to references into [objects]. *)
Record t : Type := mk {
  number : str;
  secret : str;
  nickname : option str;
  auth_blob : option str;
  auto_receipt : bool;
  socket : option socket_t;
  account_info : option (list (str * str));
  counter : Z;
  last_ping : Z;
  callbacks : list (str * list nat);
  reader : Reader.t;
  writer : Writer.t;
  objects : list Callback.t;
  net : Network;
  clock : Z
}.

(** [Client(number, secret, nickname, auth_blob)] followed by the two
    assignments that open [connect]. *)
Definition __init__ (number secret : str) (nickname auth_blob : option str)
           (n : Network) (now : Z) : t :=
  mk number secret nickname auth_blob true None None 0 now []
     Reader.__init__ Writer.__init__ [] n now.

Definition M : Type -> Type := SM t.

Notation "x <- c ;; k" := (bind c (fun x => k))
  (at level 61, c at next level, right associativity).
Notation "c ;;; k" := (bind c (fun _ => k))
  (at level 61, right associativity).

Definition set_reader (r : Reader.t) (c : t) : t :=
  mk (number c) (secret c) (nickname c) (auth_blob c) (auto_receipt c)
     (socket c) (account_info c) (counter c) (last_ping c) (callbacks c)
     r (writer c) (objects c) (net c) (clock c).

Definition set_writer (w : Writer.t) (c : t) : t :=
  mk (number c) (secret c) (nickname c) (auth_blob c) (auto_receipt c)
     (socket c) (account_info c) (counter c) (last_ping c) (callbacks c)
     (reader c) w (objects c) (net c) (clock c).

Definition set_net (n : Network) (c : t) : t :=
  mk (number c) (secret c) (nickname c) (auth_blob c) (auto_receipt c)
     (socket c) (account_info c) (counter c) (last_ping c) (callbacks c)
     (reader c) (writer c) (objects c) n (clock c).

Definition set_clock (now : Z) (c : t) : t :=
  mk (number c) (secret c) (nickname c) (auth_blob c) (auto_receipt c)
     (socket c) (account_info c) (counter c) (last_ping c) (callbacks c)
     (reader c) (writer c) (objects c) (net c) now.

Definition set_callbacks (cbs : list (str * list nat)) (c : t) : t :=
  mk (number c) (secret c) (nickname c) (auth_blob c) (auto_receipt c)
     (socket c) (account_info c) (counter c) (last_ping c) cbs
     (reader c) (writer c) (objects c) (net c) (clock c).

Definition set_objects (objs : list Callback.t) (c : t) : t :=
  mk (number c) (secret c) (nickname c) (auth_blob c) (auto_receipt c)
     (socket c) (account_info c) (counter c) (last_ping c) (callbacks c)
     (reader c) (writer c) objs (net c) (clock c).

Definition set_last_ping (now : Z) (c : t) : t :=
  mk (number c) (secret c) (nickname c) (auth_blob c) (auto_receipt c)
     (socket c) (account_info c) (counter c) now (callbacks c)
     (reader c) (writer c) (objects c) (net c) (clock c).

(** Modelled from the spec: [utils.timestamp()] is outside the two modules
    embedded here; the spec names it the unix seconds, here the decimal form
    of the clock. *)
Definition timestamp : M str := fun c => (Ok (decimal (clock c)), c).

(** [_disconnect]: close and forget the socket, forget the account
    information, reset the counter. *)
Definition _disconnect (c : t) : t :=
  mk (number c) (secret c) (nickname c) (auth_blob c) (auto_receipt c)
     None None 0 (last_ping c) (callbacks c)
     (reader c) (writer c) (objects c) (net c) (clock c).

Definition _disconnected {A} : M A :=
  fun c => (Raise ConnectionError, _disconnect c).

Definition disconnect : M unit := fun c => (Ok tt, _disconnect c).

(** [self.socket.sendall(buf)] with its [except socket.error]. *)
Definition sendall (buf : str) : M unit := fun c =>
  match socket c with
  | None => (Raise AttributeError, c)
  | Some _ =>
      if writable (net c) then
        (Ok tt,
         set_net (mkNetwork (sent (net c) ++ [buf]) (arriving (net c))
                            (writable (net c))) c)
      else _disconnected c
  end.

(** [_write(buf, encrypt)]: [buf] is a [Node] or bytes that are sent as
    they are.  The debugging output is left out. *)
Definition _write (buf : Node + str) (encrypt : option bool) : M unit :=
  match buf with
  | inl node =>
      fun c =>
        let '(res, w) := Writer.node (Some node) encrypt (writer c) in
        let c := set_writer w c in
        match res with
        | Ok (buf, plain) => sendall buf c
        | Raise e => (Raise e, c)
        | Diverge => (Diverge, c)
        end
  | inr buf => sendall buf
  end.

(** The [while True] loop of [_read]: every answer of [Reader.read] takes
    the three bytes of a header off the buffer, which bounds the loop. *)
Fixpoint read_loop (fuel : nat) (nodes : list Node) : M (list Node) :=
  match fuel with
  | O => diverge
  | S fuel =>
      fun c =>
        let '(res, r) := Reader.read (reader c) in
        let c := set_reader r c in
        match res with
        | Ok (node, plain) => read_loop fuel (nodes ++ [node]) c
        | Raise MessageIncomplete => (Ok nodes, c)
        | Raise EndOfStream => _disconnected c
        | Raise e => (Raise e, c)
        | Diverge => (Diverge, c)
        end
  end.

(** [select] on the socket: the next event of the connection; when nothing
    more will arrive the call times out and [TIMEOUT] seconds pass. *)
Definition select : M event := fun c =>
  match arriving (net c) with
  | [] => (Ok Timeout, set_clock (clock c + TIMEOUT) c)
  | Timeout :: rest =>
      (Ok Timeout,
       set_clock (clock c + TIMEOUT)
         (set_net (mkNetwork (sent (net c)) rest (writable (net c))) c))
  | e :: rest =>
      (Ok e, set_net (mkNetwork (sent (net c)) rest (writable (net c))) c)
  end.

Definition _read : M (list Node) :=
  fun c =>
    match socket c with
    | None => _disconnected c
    | Some _ =>
        (e <- select ;;
         (match e with
          | SelectError => _disconnected
          | Timeout => ret tt
          | RecvError => _disconnected
          | Recv [] => _disconnected
          | Recv buf => fun c => (Ok tt, set_reader (Reader.data buf (reader c)) c)
          end) ;;;
         fun c => read_loop (S (length (Reader.buf (reader c)))) [] c) c
    end.

Definition _msgid (prefix : str) : M str :=
  ts <- timestamp ;;
  fun c => (Ok (prefix ++ b "-" ++ ts ++ b "-" ++ decimal (counter c)), c).

(** The keyword arguments of [Node(...)] are kept in the order in which
    the source writes them. *)
Definition _receipt (node : Node) : M unit :=
  to <- lift (getitem node (b "from")) ;;
  id <- lift (getitem node (b "id")) ;;
  ts <- timestamp ;;
  _write (inl (mkNode (b "receipt")
                 [(b "type", b "read"); (b "to", to); (b "id", id); (b "t", ts)]
                 None [])) None.

Definition _iq (node : Node) : M unit :=
  if len (children node) =? 0 then ret tt
  else
    match children node with
    | [] => raise IndexError
    | iq :: _ =>
        type <- lift (getitem node (b "type")) ;;
        if str_eqb type (b "get") && str_eqb (name iq) (b "ping") then
          id <- lift (getitem node (b "id")) ;;
          _write (inl (mkNode (b "iq")
                         [(b "to", SERVER); (b "id", id); (b "type", b "result")]
                         None [])) None
        else if str_eqb type (b "result") then ret tt
        else
          (* logger.debug(..., node["type"]) *)
          _ <- lift (getitem node (b "type")) ;; ret tt
    end.

Definition _clear_dirty (categories : list str) : M unit :=
  let nodes :=
    map (fun category => mkNode (b "clean") [(b "type", category)] None [])
        categories in
  id <- _msgid (b "cleardirty") ;;
  _write (inl (mkNode (b "iq")
                 [(b "id", id); (b "type", b "set"); (b "to", SERVER);
                  (b "xmlns", b "urn:xmpp:whatsapp:dirty")]
                 None nodes)) None.

Definition _ib (node : Node) : M unit :=
  for_each (children node) (fun child =>
    if str_eqb (name child) (b "dirty") then
      type <- lift (getitem child (b "type")) ;;
      _clear_dirty [type]
    else ret tt).

Definition _notification (node : Node) : M unit :=
  to <- lift (getitem node (b "from")) ;;
  id <- lift (getitem node (b "id")) ;;
  type <- lift (getitem node (b "type")) ;;
  let attrs := [(b "to", to); (b "id", id); (b "type", type)] in
  let attrs := dict_set attrs (b "class") (b "notification") in
  attrs <- (if has_attribute node (b "to")
            then v <- lift (getitem node (b "to")) ;;
                 ret (dict_set attrs (b "from") v)
            else ret attrs) ;;
  attrs <- (if has_attribute node (b "participant")
            then v <- lift (getitem node (b "participant")) ;;
                 ret (dict_set attrs (b "participant") v)
            else ret attrs) ;;
  _write (inl (mkNode (b "ack") attrs None [])) None.

(** Lines 152 to 162 of [_challenge]: make the cipher, install both
    directions, encrypt the response with the outbound direction (the
    writer holds the same object, so it sees the advanced state) and send
    it with [encrypt=False]. *)
Definition challenge_reply (node : Node) : M unit :=
  fun c =>
    let '(e, d) := derive (secret c) (data node) in
    let c := set_writer (Writer.mk (Some e)) c in
    let c := set_reader (Reader.mk (Reader.buf (reader c))
                                   (Reader.offset (reader c)) (Some d)) c in
    (ts <- timestamp ;;
     let data := number c ++ format_s (data node) ++ ts in
     let '(cipher, e') := run_encrypt e data (Some false) in
     let response := mkNode (b "response") [] (Some cipher) [] in
     (fun c => (Ok tt, set_writer (Writer.mk (Some e')) c)) ;;;
     _write (inl response) (Some false)) c.

Definition _challenge_with (incoming : M unit) (node : Node) : M unit :=
  challenge_reply node ;;; incoming.

(** [self.callbacks[name]] on the [defaultdict(list)]: a missing key is
    entered with an empty list. *)
Fixpoint registry_get (d : list (str * list nat)) (k : str) : option (list nat) :=
  match d with
  | [] => None
  | (k', v) :: rest => if str_eqb k' k then Some v else registry_get rest k
  end.

Fixpoint registry_set (d : list (str * list nat)) (k : str) (v : list nat)
  : list (str * list nat) :=
  match d with
  | [] => [(k, v)]
  | (k', v') :: rest =>
      if str_eqb k' k then (k', v) :: rest
      else (k', v') :: registry_set rest k v
  end.

Definition registry_default (k : str) : M (list nat) := fun c =>
  match registry_get (callbacks c) k with
  | Some v => (Ok v, c)
  | None => (Ok [], set_callbacks (registry_set (callbacks c) k []) c)
  end.

Definition deref (ref : nat) : M Callback.t := fun c =>
  match nth_error (objects c) ref with
  | Some cb => (Ok cb, c)
  | None => (Raise AttributeError, c)
  end.

Fixpoint list_update {A} (l : list A) (i : nat) (x : A) : list A :=
  match l, i with
  | [], _ => []
  | _ :: rest, O => x :: rest
  | y :: rest, S i => y :: list_update rest i x
  end.

(** [if callback.test(node): callback(node)] on the object behind a
    reference. *)
Definition offer (node : Node) (ref : nat) : M unit :=
  cb <- deref ref ;;
  if Callback.test cb node then
    fun c =>
      (Ok tt, set_objects (list_update (objects c) ref (Callback.__call__ cb node)) c)
  else ret tt.

Definition handle_callbacks (node : Node) : M unit := fun c =>
  match registry_get (callbacks c) (name node) with
  | Some refs => for_each refs (offer node) c
  | None => (Ok tt, c)
  end.

Definition dispatch (incoming : M unit) (node : Node) : M unit :=
  if str_eqb (name node) (b "challenge") then _challenge_with incoming node
  else if str_eqb (name node) (b "message") then
    fun c => if auto_receipt c then _receipt node c else (Ok tt, c)
  else if str_eqb (name node) (b "ib") then _ib node
  else if str_eqb (name node) (b "iq") then _iq node
  else if str_eqb (name node) (b "notification") then _notification node
  else if str_eqb (name node) (b "start")
          || str_eqb (name node) (b "stream:features") then ret tt
  else if str_eqb (name node) (b "stream:error") then
    match children node with
    | [] => raise IndexError
    | _ :: _ => raise StreamError
    end
  else ret tt.

(** [_incoming]; [_challenge] calls it again, and the argument bounds the
    depth of that recursion. *)
Fixpoint _incoming (fuel : nat) : M unit :=
  match fuel with
  | O => diverge
  | S fuel =>
      nodes <- _read ;;
      for_each nodes (fun node =>
        dispatch (_incoming fuel) node ;;;
        handle_callbacks node)
  end.


Fixpoint remove_first (l : list nat) (x : nat) : option (list nat) :=
  match l with
  | [] => None
  | y :: rest =>
      if Nat.eqb y x then Some rest
      else option_map (cons y) (remove_first rest x)
  end.

(** The callbacks are passed by reference. *)
Definition register_callback (cbs : list nat) : M unit :=
  for_each cbs (fun ref =>
    cb <- deref ref ;;
    l <- registry_default (Callback.name cb) ;;
    fun c =>
      (Ok tt,
       set_callbacks (registry_set (callbacks c) (Callback.name cb) (ref :: l)) c)).

Definition unregister_callback (cbs : list nat) : M unit :=
  for_each cbs (fun ref =>
    cb <- deref ref ;;
    l <- registry_default (Callback.name cb) ;;
    match remove_first l ref with
    | Some l' => fun c =>
        (Ok tt, set_callbacks (registry_set (callbacks c) (Callback.name cb) l') c)
    | None => raise ValueError
    end).

(** The [for ... else] of [wait_for_callback]: the first callback that
    has latched, if any. *)
Fixpoint first_called (cbs : list nat) : M (option Callback.t) :=
  match cbs with
  | [] => ret None
  | ref :: rest =>
      cb <- deref ref ;;
      if Callback.called cb then ret (Some cb) else first_called rest
  end.

Fixpoint wait_loop (fuel : nat) (cbs : list nat) : M Callback.t :=
  match fuel with
  | O => diverge
  | S fuel' =>
      found <- first_called cbs ;;
      match found with
      | Some cb => ret cb
      | None => _incoming fuel ;;; wait_loop fuel' cbs
      end
  end.

Definition wait_for_callback (fuel : nat) (cbs : list nat) : M value :=
  called <- wait_loop fuel cbs ;;
  unregister_callback cbs ;;;
  match is_exception (Callback.result called) with
  | Some e => raise e
  | None => ret (Callback.result called)
  end.

(** The body ends without a [return]: the answer is [None]. *)
Definition register_callback_and_wait (fuel : nat) (cbs : list nat) : M value :=
  register_callback cbs ;;;
  _ <- wait_for_callback fuel cbs ;;
  ret VNone.

Definition presence (state : str) : M unit :=
  _write (inl (mkNode (b "presence") [(b "type", state)] None [])) None.

Definition ALIVE_INTERVAL : Z := 20.

Definition service_loop (fuel : nat) : M unit :=
  _incoming fuel ;;;
  fun c =>
    if clock c - last_ping c >? ALIVE_INTERVAL then
      (presence (b "active") ;;; fun c => (Ok tt, set_last_ping (clock c) c)) c
    else (Ok tt, c).

Definition GROUPHOST : str := b "g.us".

(** ["-" in number] *)
Definition contains_dash (s : str) : bool := existsb (byte_eqb "-"%byte) s.

(** [_jid(number)]: the Jabber id of a number. *)
Definition _jid (number : str) : str :=
  if negb (contains_at number) then
    if contains_dash number then number ++ b "@" ++ GROUPHOST
    else number ++ b "@" ++ SERVER
  else number.

(** The body of the loop of [send_sync]: [number[0]] fails on an empty
    string; a number without a leading ["+"] gets one. *)
Definition with_plus (number : str) : outcome str :=
  match number with
  | [] => Raise IndexError
  | c :: _ =>
      if negb (byte_eqb c "+"%byte) then Ok (b "+" ++ number) else Ok number
  end.

(** The [user] nodes that the loop adds to the [sync] node. *)
Fixpoint sync_users (numbers : list str) : outcome (list Node) :=
  match numbers with
  | [] => Ok []
  | number :: rest =>
      Writer.bind (with_plus number) (fun number =>
      Writer.bind (sync_users rest) (fun users =>
      Ok (mkNode (b "user") [] (Some number) [] :: users)))
  end.

(** [send_sync(numbers, mode, context, index, last)]: the [sync] node is a
    child of the [iq] node before the loop fills it, and the [iq] node is
    written after the loop. *)
Definition send_sync (numbers : list str) (mode context : str) (index : Z)
           (last : bool) : M unit :=
  msgid <- _msgid (b "sync") ;;
  fun c =>
    let sid := (clock c + 11644477200) * 10000000 in
    let sync_attrs :=
      [(b "mode", mode); (b "context", context); (b "sid", decimal sid);
       (b "index", decimal index);
       (b "last", if last then b "true" else b "false")] in
    let iq_attrs :=
      [(b "to", number c ++ b "@" ++ SERVER); (b "type", b "get");
       (b "id", msgid); (b "xmlns", b "urn:xmpp:whatsapp:sync")] in
    match sync_users numbers with
    | Ok users =>
        _write (inl (mkNode (b "iq") iq_attrs None
                       [mkNode (b "sync") sync_attrs None users])) None c
    | Raise e => (Raise e, c)
    | Diverge => (Diverge, c)
    end.

End Client.
End Client.

(** ** Vocabulary of the statements *)

(** The bytes [e] are an encoding of the string [s] when [Reader.string],
    started on a buffer that holds exactly [e], answers [s] and leaves
    nothing behind. *)
Definition decodes_to {T : Tokens} {C : Cipher} (e : str) (s : str) : Prop :=
  exists (off : Z) (d : option dec) (r : Reader.t),
    Reader.string (Reader.mk e off d) = (Ok s, r) /\ Reader.buf r = [].

(** The leader of the raw form: [0xFC] and a one-byte length, or [0xFD] and
    a three-byte length. *)
Definition raw_leader (l : str) : Prop :=
  (exists c, l = [xfc; c]) \/ (exists c0 c1 c2, l = [xfd; c0; c1; c2]).

(** The loop over the children at the end of [Writer._node]. *)
Section WriteChildren.
Context {T : Tokens}.

Fixpoint write_children (cs : list Node) (buf : str) : outcome str :=
  match cs with
  | [] => Ok buf
  | child :: cs =>
      Writer.bind (Writer._node child) (fun c => write_children cs (buf ++ c))
  end.
End WriteChildren.

(** The three bytes of a frame header read as [Reader.read] reads them: the
    24-bit word, its flag nibble and its 20-bit length. *)
Definition header_word (c0 c1 c2 : byte) : Z :=
  Z.lor (Z.lor (Z.shiftl (ord1 c0) 16) (Z.shiftl (ord1 c1) 8)) (ord1 c2).

Definition header_flags (word : Z) : Z :=
  Z.shiftr (Z.land (Z.shiftr word 16) 0xF0) 4.

Definition header_length (word : Z) : Z :=
  Z.lor (Z.land word 0xFFFF) (Z.shiftl (Z.land (Z.shiftr word 16) 0x0F) 16).

(** Whether [Writer.node] encrypts: the argument when it is given, else
    whether the writer has a cipher. *)
Definition will_encrypt {C : Cipher} (encrypt_arg : option bool) (w : Writer.t) : bool :=
  match encrypt_arg with
  | Some e => e
  | None => match Writer.encrypt w with Some _ => true | None => false end
  end.

(** Two states of a client belong to one session when the socket is the
    same and the counter has the same value; the other way for a method to
    end is with the socket closed and forgotten, which resets the counter. *)
Definition same_session {T : Tokens} {C : Cipher} (c c' : Client.t) : Prop :=
  (Client.counter c' = Client.counter c /\ Client.socket c' = Client.socket c) \/
  (Client.socket c' = None /\ Client.counter c' = 0).

(** The calls that a session is made of. *)
Inductive call : Type :=
| CallMsgid (prefix : str)
| CallWrite (buf : Node + str) (encrypt : option bool)
| CallIncoming (fuel : nat)
| CallServiceLoop (fuel : nat)
| CallPresence (state : str)
| CallRegister (cbs : list nat)
| CallUnregister (cbs : list nat)
| CallWait (fuel : nat) (cbs : list nat)
| CallRegisterAndWait (fuel : nat) (cbs : list nat).

(** The state a call leaves behind, whatever it answers. *)
Definition after {T : Tokens} {C : Cipher} (k : call) (c : Client.t) : Client.t :=
  match k with
  | CallMsgid prefix => snd (Client._msgid prefix c)
  | CallWrite buf encrypt => snd (Client._write buf encrypt c)
  | CallIncoming fuel => snd (Client._incoming fuel c)
  | CallServiceLoop fuel => snd (Client.service_loop fuel c)
  | CallPresence state => snd (Client.presence state c)
  | CallRegister cbs => snd (Client.register_callback cbs c)
  | CallUnregister cbs => snd (Client.unregister_callback cbs c)
  | CallWait fuel cbs => snd (Client.wait_for_callback fuel cbs c)
  | CallRegisterAndWait fuel cbs =>
      snd (Client.register_callback_and_wait fuel cbs c)
  end.

Definition after_all {T : Tokens} {C : Cipher} (ks : list call) (c : Client.t)
  : Client.t :=
  fold_left (fun c k => after k c) ks c.

(** The counter part of a message id. *)
Definition msgid_of {T : Tokens} {C : Cipher} (prefix : str) (c : Client.t) : str :=
  prefix ++ b "-" ++ decimal (Client.clock c) ++ b "-" ++ decimal (Client.counter c).

(** *** Nodes that the codec carries *)

Section WellFormed.
Context {T : Tokens}.

(** The ids that [Writer.string] writes so that [Reader.string] finds the
    same id: one byte for [0x03] to [0xEB], the page [0xEC] for [0xED] to
    [0x1E1]. *)
Definition good_token (t : Z) : bool :=
  ((3 <=? t) && (t <=? 0xEB)) || ((0xED <=? t) && (t <=? 0x1E1)).

(** A string the codec carries: a dictionary string with a good id that
    [tok2str] maps back to it; or a string outside the dictionary that is
    either a JID whose parts are carried, or shorter than [2^24] bytes.  The
    argument bounds the recursion as in [Writer.string_fuel]. *)
Fixpoint good_string_fuel (fuel : nat) (s : str) : bool :=
  match fuel with
  | O => false
  | S fuel =>
      match str2tok s with
      | Some t =>
          good_token t &&
          match tok2str t with
          | Some s' => str_eqb s' s
          | None => false
          end
      | None =>
          if contains_at s then
            let '(user, _, server) := partition_at s in
            (if truthy_list user then good_string_fuel fuel user else true)
            && good_string_fuel fuel server
          else len s <? 0x1000000
      end
  end.

Definition good_string (s : str) : bool := good_string_fuel (S (length s)) s.

Fixpoint unique_keys (attrs : list (str * str)) : bool :=
  match attrs with
  | [] => true
  | (k, _) :: rest =>
      negb (existsb (fun kv => str_eqb (fst kv) k) rest) && unique_keys rest
  end.

Definition good_attribute (kv : str * str) : bool :=
  good_string (fst kv) && good_string (snd kv).

(** A node the codec carries: its strings are carried, the keys of its
    attributes are unique, its data, when present, is not empty, is shorter
    than [2^24] bytes and comes without children, the list length of the
    node and the number of its children fit sixteen bits, and its children
    are carried. *)
Fixpoint well_formed (n : Node) : bool :=
  good_string (name n)
  && forallb good_attribute (attributes n)
  && unique_keys (attributes n)
  && (Writer.node_length n <=? 0xFFFF)
  && match data n with
     | None => true
     | Some d =>
         truthy_list d && (len d <? 0x1000000)
         && negb (truthy_list (children n))
     end
  && (len (children n) <=? 0xFFFF)
  && forallb well_formed (children n).

End WellFormed.

(** [e] is read back as the string [s], whatever follows it in the buffer,
    by every run of [Reader.string_fuel] whose bound covers [e]. *)
Definition reads_string {T : Tokens} {C : Cipher} (e : str) (s : str) : Prop :=
  forall (f : nat) (rest : str) (off : Z) (d : option dec),
    (length e <= f)%nat ->
    exists off',
      Reader.string_fuel f (Reader.mk (e ++ rest) off d) =
      (Ok s, Reader.mk rest off' d).

Definition reads_node {T : Tokens} {C : Cipher} (e : str) (n : Node) : Prop :=
  forall (f : nat) (rest : str) (off : Z) (d : option dec),
    (length e <= f)%nat ->
    exists off',
      Reader._read_fuel f (Reader.mk (e ++ rest) off d) =
      (Ok n, Reader.mk rest off' d).

(** The first byte of an encoding is neither of the two bytes that
    [Reader._read] takes for the stream start and the stream end. *)
Definition first_ok (e : str) : Prop :=
  match e with
  | c :: _ => ord1 c <> 0x01 /\ ord1 c <> 0x02
  | [] => False
  end.

(** The first byte of a list start that announces at least one entry. *)
Definition list_first (e : str) : Prop :=
  match e with
  | c :: _ => ord1 c = 0xF8 \/ ord1 c = 0xF9
  | [] => False
  end.

(** One step of the loop of [Reader.attributes]: [attributes[name] = value]. *)
Definition set_pair (a : list (str * str)) (kv : str * str) : list (str * str) :=
  dict_set a (fst kv) (snd kv).

(** A node is carried when, if it is well formed, the writer encodes it and
    the reader reads the encoding back. *)
Definition carried {T : Tokens} {C : Cipher} (n : Node) : Prop :=
  well_formed n = true ->
  exists e, Writer._node n = Ok e /\ (1 <= length e)%nat /\ reads_node e n.

(** A method keeps the session when every run of it ends in a state of the
    same session, or with the socket closed and the counter reset. *)
Definition keeps {T : Tokens} {C : Cipher} {A} (m : Client.M A) : Prop :=
  forall c r c', m c = (r, c') -> same_session c c'.

(** A method of the reader is tame on buffers of at most [k] bytes when it
    answers or raises there, and never leaves more bytes than it found. *)
Definition tame {T : Tokens} {C : Cipher} {A} (k : nat) (m : Reader.M A) : Prop :=
  forall r,
    (length (Reader.buf r) <= k)%nat ->
    fst (m r) <> Diverge /\
    (length (Reader.buf (snd (m r))) <= length (Reader.buf r))%nat.

(** The packed form that [Reader.string] reads after [0xFF]: two nibbles
    to a byte, the first in the high half; an odd last nibble is alone in
    its byte, and the header then has its high bit set. *)
Fixpoint pack_nibbles (ns : list Z) : str :=
  match ns with
  | [] => []
  | [hi] => [byte_of_Z (hi * 16)]
  | hi :: lo :: rest => byte_of_Z (hi * 16 + lo) :: pack_nibbles rest
  end.

Definition nibble_header (ns : list Z) : byte :=
  byte_of_Z ((if Nat.odd (length ns) then 0x80 else 0) + (len ns + 1) / 2).

Definition is_nibble (n : Z) : Prop := 0 <= n < 16.

(** The callbacks registered under a stanza name, none when the registry
    has no entry for it. *)
Definition registered {T : Tokens} {C : Cipher} (c : Client.t) (k : str) : list nat :=
  match Client.registry_get (Client.callbacks c) k with
  | Some l => l
  | None => []
  end.

(** Every reference of the list is to a callback object. *)
Definition valid_refs {T : Tokens} {C : Cipher} (c : Client.t) (cbs : list nat) : bool :=
  forallb (fun ref => match nth_error (Client.objects c) ref with
                      | Some _ => true
                      | None => false
                      end) cbs.

(** A node whose plain frame [Reader.read] reads back: the codec carries it
    and its encoding is shorter than [2^20] bytes. *)
Definition frameable {T : Tokens} (n : Node) : bool :=
  well_formed n &&
  match Writer._node n with
  | Ok p => len p <? 2 ^ 20
  | _ => false
  end.

(** The plain frames of a list of nodes, one after the other. *)
Fixpoint plain_frames {T : Tokens} (nodes : list Node) : str :=
  match nodes with
  | [] => []
  | n :: rest =>
      match Writer._node n with
      | Ok p => Writer.int24 (len p) ++ p ++ plain_frames rest
      | _ => []
      end
  end.

(** The state in which [_read] leaves the client after a chunk of whole
    frames: the event is consumed and the buffer holds what is left. *)
Definition received {T : Tokens} {C : Cipher} (rest : list Client.event)
           (tail : str) (off : Z) (c : Client.t) : Client.t :=
  Client.set_reader (Reader.mk tail off (Reader.decrypt (Client.reader c)))
    (Client.set_net
       (Client.mkNetwork (Client.sent (Client.net c)) rest
                         (Client.writable (Client.net c))) c).

(** [callback.name] of the object behind a reference. *)
Definition name_of (objs : list Callback.t) (ref : nat) : str :=
  match nth_error objs ref with
  | Some cb => Callback.name cb
  | None => []
  end.

(** The references of a list whose callbacks are on the stanza name [k]. *)
Definition refs_under (objs : list Callback.t) (k : str) (cbs : list nat)
  : list nat :=
  filter (fun ref => str_eqb (name_of objs ref) k) cbs.

(** The first callback of the list that has latched. *)
Fixpoint first_latched (objs : list Callback.t) (cbs : list nat)
  : option Callback.t :=
  match cbs with
  | [] => None
  | ref :: rest =>
      match nth_error objs ref with
      | Some cb => if Callback.called cb then Some cb
                   else first_latched objs rest
      | None => None
      end
  end.

(** What [wait_for_callback] does with a latched result. *)
Definition answer_of (v : value) : outcome value :=
  match is_exception v with
  | Some e => Raise e
  | None => Ok v
  end.

(** ** Sample collaborators, for evaluating the code on concrete inputs *)

(** A dictionary given by its entries.  Only the entry [0x03 = "account"]
    is stated by the spec; the other entries of [sample_tokens] stand for
    dictionary strings at the ids where the writer changes its behaviour. *)
Definition tokens_of (entries : list (Z * str)) : Tokens := {|
  str2tok := fun s =>
    option_map fst (find (fun e => str_eqb (snd e) s) entries);
  tok2str := fun i =>
    option_map snd (find (fun e => fst e =? i) entries)
|}.

Definition sample_entries : list (Z * str) :=
  [ (0x03, b "account");
    (0xEB, b "page0-last");
    (0xEC, b "page0-ec");
    (0xED, b "page1-first");
    (0x1E1, b "page1-last");
    (0x1E2, b "page2-first");
    (0x2E2, b "page3-first") ].

Definition sample_tokens : Tokens := tokens_of sample_entries.

(** A toy cipher: a direction's state is its message counter; [encrypt]
    reverses the bytes and, unless told otherwise, appends four bytes. *)
Definition sample_cipher : Cipher := {|
  enc := Z;
  dec := Z;
  derive := fun _ _ => (0, 0);
  run_encrypt := fun e s flag =>
    (rev s ++ match flag with
              | Some false => []
              | _ => [byte_of_Z e; x00; x00; x00]
              end, e + 1);
  run_decrypt := fun d s =>
    if len s <? 4 then (Raise ValueError, d)
    else (Ok (rev (firstn (length s - 4) s)), d + 1)
|}.

(** A small stanza and its frames, plain and through the toy cipher. *)
Definition sample_body : Node := mkNode (b "body") [] (Some (b "hi")) [].

Definition sample_plain : str :=
  [xf8; x02; xfc; x04; "b"; "o"; "d"; "y"; xfc; x02; "h"; "i"]%byte.

Definition sample_frame_encrypted : str :=
  [x80; x00; x10] ++ rev sample_plain ++ [x00; x00; x00; x00].

(** A stanza whose data is [2^20] bytes long. *)
Definition big_data : str := repeat "a"%byte (Z.to_nat (2 ^ 20)).

Definition big_body : Node := mkNode (b "x") [] (Some big_data) [].

Definition sample_frame : str := [x00; x00; x0c] ++ sample_plain.

(** A connected client of the sample collaborators with the given events
    still to arrive. *)
Definition sample_client (events : list (@Client.event)) : @Client.t sample_cipher :=
  @Client.mk sample_cipher
    (b "4917012345678") (b "secret") (Some (b "nick")) None true
    (Some Client.TcpSocket) None 0 1700000000 []
    Reader.__init__ Writer.__init__ []
    (Client.mkNetwork [] events true) 1700000000.

Definition sample_pong : Node :=
  mkNode (b "iq") [(b "type", b "result"); (b "id", b "ping-1")] None [].

(** The plain frame of [sample_pong] under the sample dictionary. *)
Definition sample_pong_frame : str :=
  [x00; x00; x20; xf8; x05; xfc; x02; "i"; "q";
   xfc; x04; "t"; "y"; "p"; "e"; xfc; x06; "r"; "e"; "s"; "u"; "l"; "t";
   xfc; x02; "i"; "d"; xfc; x06; "p"; "i"; "n"; "g"; "-"; "1"]%byte.

(** A callback on [iq] stanzas that answers a number, as the one of
    [last_seen] does. *)
Definition sample_callback : Callback.t :=
  Callback.__init__ (b "iq") (fun _ => true) (fun _ => VInt 42).

(** A client that holds [sample_callback] as its object [0] and is about to
    receive [sample_pong]. *)
Definition waiting_client : @Client.t sample_cipher :=
  Client.set_objects [sample_callback]
    (sample_client [Client.Recv sample_pong_frame]).


(** A stanza with [2^16] children, each a node without content. *)
Definition many_children : Node :=
  mkNode (b "x") [] None (repeat (Node_new (b "y")) (Z.to_nat (2 ^ 16))).

Definition sample_message : Node :=
  mkNode (b "message")
    [(b "to", b "4917012345678@s.whatsapp.net"); (b "type", b "account")]
    None
    [mkNode (b "page1-first") [] None []; sample_body].

(** The encoding of [sample_message] under the sample dictionary. *)
Definition sample_message_payload : str :=
  Eval vm_compute in
    match @Writer._node sample_tokens sample_message with
    | Ok e => e
    | _ => []
    end.

(** A ping of the server and a message, as they arrive. *)
Definition sample_ping : Node :=
  mkNode (b "iq") [(b "type", b "get"); (b "id", b "ping-1")] None
         [Node_new (b "ping")].





Definition sample_stream_error : Node :=
  mkNode (b "stream:error") [] None [Node_new (b "system-shutdown")].

(** A callback that has latched an answer before it is waited for. *)
Definition latched_callback : Callback.t :=
  Callback.__call__ sample_callback sample_pong.

Definition sample_presence_callback : Callback.t :=
  Callback.__init__ (b "presence") (fun _ => true) (fun _ => VNone).

(** A client that holds three callback objects, the second one latched, and
    has the third registered. *)
Definition registry_client : @Client.t sample_cipher :=
  Client.set_callbacks [(b "iq", [2%nat])]
    (Client.set_objects
       [sample_presence_callback; latched_callback; sample_callback]
       (sample_client [Client.Recv sample_pong_frame])).

(** * Properties *)

(** ** Small facts about the Python helpers *)

Lemma chr_in_range (i : Z) :
  0 <= i < 256 -> chr i = Ok [byte_of_Z i].
Proof.
  intros H. unfold chr.
  destruct (0 <=? i) eqn:E1; [| apply Z.leb_gt in E1; lia].
  destruct (i <? 256) eqn:E2; [reflexivity | apply Z.ltb_ge in E2; lia].
Qed.

Lemma ord1_range (c : byte) : 0 <= ord1 c < 256.
Proof.
  unfold ord1. pose proof (Byte.to_N_bounded c). lia.
Qed.

Lemma byte_of_Z_ord1 (c : byte) : byte_of_Z (ord1 c) = c.
Proof.
  unfold byte_of_Z, ord1. rewrite N2Z.id, Byte.of_to_N. reflexivity.
Qed.

Lemma ord1_byte_of_Z (i : Z) : 0 <= i < 256 -> ord1 (byte_of_Z i) = i.
Proof.
  intros H. unfold byte_of_Z, ord1.
  destruct (Byte.of_N (Z.to_N i)) as [c |] eqn:E.
  - apply Byte.to_of_N in E. rewrite E. lia.
  - apply Byte.of_N_None_iff in E. lia.
Qed.

Lemma str_eqb_eq (x y : str) : str_eqb x y = true <-> x = y.
Proof.
  unfold str_eqb. destruct (list_eq_dec Byte.byte_eq_dec x y); split;
    intros; congruence.
Qed.

Lemma str_eqb_refl (x : str) : str_eqb x x = true.
Proof. apply str_eqb_eq. reflexivity. Qed.

Lemma byte_eqb_eq (x y : byte) : byte_eqb x y = true <-> x = y.
Proof.
  unfold byte_eqb. split.
  - apply Byte.byte_dec_bl.
  - apply Byte.byte_dec_lb.
Qed.

(** [s.partition("@")] splits [s] at its first ["@"]. *)
Lemma partition_at_spec (s : str) :
  contains_at s = true ->
  let '(u, a, r) := partition_at s in
  s = u ++ [AT] ++ r /\ a = [AT] /\ contains_at u = false.
Proof.
  induction s as [| c s IH]; simpl; [discriminate |].
  destruct (byte_eqb AT c) eqn:E.
  - intros _. apply byte_eqb_eq in E. subst c. auto.
  - simpl. intros H. specialize (IH H).
    destruct (partition_at s) as [[u a] r].
    destruct IH as (-> & -> & Hu). simpl. rewrite E. auto.
Qed.

Lemma partition_at_length (s : str) :
  contains_at s = true ->
  let '(u, a, r) := partition_at s in
  (length u < length s /\ length r < length s)%nat.
Proof.
  intros H. pose proof (partition_at_spec s H) as P.
  destruct (partition_at s) as [[u a] r]. destruct P as (E & _ & _).
  rewrite E. rewrite !length_app. simpl. lia.
Qed.

(** ** Bytes of an integer *)

Lemma testbit_small (c k n : Z) :
  0 <= c < 2 ^ k -> k <= n -> Z.testbit c n = false.
Proof.
  intros Hc Hn. destruct (Z.eq_dec c 0) as [-> | Hz]; [apply Z.bits_0 |].
  apply Z.bits_above_log2; [lia |].
  assert (Z.log2 c < k); [| lia].
  apply Z.log2_lt_pow2; lia.
Qed.

Lemma lor_shiftl (a c k : Z) :
  0 <= k -> 0 <= c < 2 ^ k -> Z.lor (Z.shiftl a k) c = a * 2 ^ k + c.
Proof.
  intros Hk Hc.
  pose proof (Z.add_lor_land (Z.shiftl a k) c) as H.
  assert (Z.land (Z.shiftl a k) c = 0) as E.
  { apply Z.bits_inj'. intros n Hn. rewrite Z.land_spec, Z.bits_0.
    destruct (Z_lt_le_dec n k).
    - rewrite Z.shiftl_spec_low by lia. reflexivity.
    - rewrite (testbit_small c k n) by lia. apply andb_false_r. }
  rewrite E, Z.shiftl_mul_pow2 in H by lia.
  rewrite Z.shiftl_mul_pow2 by lia. lia.
Qed.

(** Three bytes, most significant first, as [peek_int24] joins them. *)
Lemma join24 (a c d : Z) :
  0 <= a -> 0 <= c < 256 -> 0 <= d < 256 ->
  Z.lor (Z.lor (Z.shiftl a 16) (Z.shiftl c 8)) d = a * 65536 + c * 256 + d.
Proof.
  intros Ha Hc Hd.
  assert (Z.lor (Z.shiftl a 16) (Z.shiftl c 8) = Z.shiftl (a * 256 + c) 8) as E.
  { replace (a * 256 + c) with (Z.lor (Z.shiftl a 8) c)
      by (rewrite lor_shiftl by lia; change (2 ^ 8) with 256; lia).
    rewrite Z.shiftl_lor, Z.shiftl_shiftl by lia. reflexivity. }
  rewrite E, lor_shiftl by lia. change (2 ^ 8) with 256. lia.
Qed.

Lemma join16 (c d : Z) :
  0 <= d < 256 -> Z.lor (Z.shiftl c 8) d = c * 256 + d.
Proof.
  intros Hd. rewrite lor_shiftl by lia. change (2 ^ 8) with 256. lia.
Qed.

(** The bits of [value] that a mask of [n] ones at bit [k] selects. *)
Lemma masked_bits (value n k : Z) :
  0 <= k -> 0 <= n ->
  Z.shiftr (Z.land value (Z.shiftl (Z.ones n) k)) k = (value / 2 ^ k) mod 2 ^ n.
Proof.
  intros Hk Hn. rewrite Z.shiftr_land, Z.shiftr_shiftl_l by lia.
  rewrite Z.sub_diag, Z.shiftl_0_r.
  rewrite Z.land_ones, Z.shiftr_div_pow2 by lia. reflexivity.
Qed.

Lemma masked_byte (value k : Z) :
  0 <= k ->
  Z.shiftr (Z.land value (Z.shiftl 255 k)) k = (value / 2 ^ k) mod 256.
Proof.
  intros Hk. change 255 with (Z.ones 8). rewrite masked_bits by lia.
  reflexivity.
Qed.

Lemma int8_value (value : Z) :
  Writer.int8 value = [byte_of_Z (value mod 256)].
Proof.
  unfold Writer.int8. change 0xFF with (Z.ones 8).
  rewrite Z.land_ones by lia. reflexivity.
Qed.

Lemma int16_value (value : Z) :
  Writer.int16 value =
  [byte_of_Z ((value / 256) mod 256); byte_of_Z (value mod 256)].
Proof.
  unfold Writer.int16.
  change 0xFF00 with (Z.shiftl 255 8). change 0x00FF with (Z.shiftl 255 0).
  rewrite !masked_byte by lia. rewrite Z.div_1_r. reflexivity.
Qed.

Lemma int24_value (value : Z) :
  Writer.int24 value =
  [byte_of_Z ((value / 65536) mod 256); byte_of_Z ((value / 256) mod 256);
   byte_of_Z (value mod 256)].
Proof.
  unfold Writer.int24.
  change 0xFF0000 with (Z.shiftl 255 16).
  change 0x00FF00 with (Z.shiftl 255 8). change 0x0000FF with (Z.shiftl 255 0).
  rewrite !masked_byte by lia. rewrite Z.div_1_r. reflexivity.
Qed.

(** ** The writer's tokens *)

Section WriterFacts.
Context {T : Tokens}.

Lemma token_primary (t : Z) :
  0 <= t < 0xF5 -> Writer.token t = Ok (Some [byte_of_Z t]).
Proof.
  intros H. unfold Writer.token.
  destruct (t <? 0xF5) eqn:E; [| apply Z.ltb_ge in E; lia].
  rewrite chr_in_range by lia. reflexivity.
Qed.

Lemma token_secondary (t : Z) :
  0xF5 <= t <= 0x1F4 ->
  Writer.token t = Ok (Some [xfe; byte_of_Z (t - 0xF5)]).
Proof.
  intros H. unfold Writer.token.
  destruct (t <? 0xF5) eqn:E; [apply Z.ltb_lt in E; lia |].
  destruct (t <=? 0x1F4) eqn:E2; [| apply Z.leb_gt in E2; lia].
  rewrite chr_in_range by lia. reflexivity.
Qed.

Lemma token_none (t : Z) : 0x1F4 < t -> Writer.token t = Ok None.
Proof.
  intros H. unfold Writer.token.
  destruct (t <? 0xF5) eqn:E; [apply Z.ltb_lt in E; lia |].
  destruct (t <=? 0x1F4) eqn:E2; [apply Z.leb_le in E2; lia | reflexivity].
Qed.

(** The depth bound of [Writer.string_fuel] does not matter once it
    exceeds the length of the string. *)
Lemma string_fuel_enough (f1 : nat) :
  forall (f2 : nat) (s : str),
    (length s < f1)%nat -> (length s < f2)%nat ->
    Writer.string_fuel f1 s = Writer.string_fuel f2 s.
Proof.
  induction f1 as [| f1 IH]; intros f2 s H1 H2; [lia |].
  destruct f2 as [| f2]; [lia |].
  simpl. destruct (str2tok s) as [t |]; [reflexivity |].
  destruct (contains_at s) eqn:E; [| reflexivity].
  pose proof (partition_at_length s E) as L.
  destruct (partition_at s) as [[u a] r]. destruct L as [Lu Lr].
  rewrite (IH f2 u) by lia. rewrite (IH f2 r) by lia. reflexivity.
Qed.

Lemma string_unfold (s : str) :
  Writer.string s =
  match str2tok s with
  | Some tok =>
      if tok >? 0xEB then
        Writer.bind (Writer.token 0xEC) (fun x =>
        Writer.bind (Writer.token (tok - 0xED)) (fun y =>
        match x with
        | Some x => Writer.bind (add_str x y) (fun z => Ok (Some z))
        | None => Raise TypeError
        end))
      else Writer.token tok
  | None =>
      if contains_at s then
        let '(user, _, server) := partition_at s in
        Writer.bind (Writer.jid user server) (fun buf => Ok (Some buf))
      else Ok (Some (Writer.bytes s))
  end.
Proof.
  unfold Writer.string at 1. simpl.
  destruct (str2tok s) as [t |]; [reflexivity |].
  destruct (contains_at s) eqn:E; [| reflexivity].
  pose proof (partition_at_length s E) as L.
  destruct (partition_at s) as [[u a] r]. destruct L as [Lu Lr].
  unfold Writer.jid, Writer.string.
  rewrite (string_fuel_enough (length s) (S (length u)) u) by lia.
  rewrite (string_fuel_enough (length s) (S (length r)) r) by lia.
  generalize (Writer.string_fuel (S (length u)) u) as U.
  generalize (Writer.string_fuel (S (length r)) r) as R.
  intros R U.
  destruct (truthy_list u); [destruct U as [[? |] | |] |];
    simpl; try reflexivity; destruct R as [[? |] | |]; reflexivity.
Qed.

End WriterFacts.

(** ** The policy of [Writer.string] *)

Lemma bytes_leader (s : str) :
  exists l, Writer.bytes s = l ++ s /\ raw_leader l.
Proof.
  unfold Writer.bytes, raw_leader.
  destruct (len s >? 0xFF).
  - eexists. split; [reflexivity |]. right. unfold Writer.int24. simpl. eauto.
  - eexists. split; [reflexivity |]. left. unfold Writer.int8. simpl. eauto.
Qed.

(** C3, as the code has it: a string whose id is at most [0xEB] is one
    byte, the id itself; a string whose id is between [0xED] and [0x1E1] is
    [0xEC] followed by the byte [id - 0xED]; a string that is not in the
    table is the JID form of its two parts when it contains ["@"], and the
    raw form with a [0xFC] or [0xFD] leader otherwise. *)
Theorem string_policy {T : Tokens} (s : str) :
  (forall t, str2tok s = Some t -> 0 <= t <= 0xEB ->
     Writer.string s = Ok (Some [byte_of_Z t])) /\
  (forall t, str2tok s = Some t -> 0xED <= t <= 0x1E1 ->
     Writer.string s = Ok (Some [xec; byte_of_Z (t - 0xED)])) /\
  (str2tok s = None -> contains_at s = true ->
     let '(user, _, server) := partition_at s in
     s = user ++ [AT] ++ server /\
     Writer.string s =
       Writer.bind (Writer.jid user server) (fun e => Ok (Some e))) /\
  (str2tok s = None -> contains_at s = false ->
     Writer.string s = Ok (Some (Writer.bytes s)) /\
     exists l, Writer.bytes s = l ++ s /\ raw_leader l).
Proof.
  split; [| split; [| split]].
  - intros t Ht Hr. rewrite string_unfold, Ht.
    destruct (t >? 0xEB) eqn:E; [apply Z.gtb_lt in E; lia |].
    apply token_primary. lia.
  - intros t Ht Hr. rewrite string_unfold, Ht.
    destruct (t >? 0xEB) eqn:E; [| rewrite Z.gtb_ltb in E; apply Z.ltb_ge in E; lia].
    rewrite (token_primary 0xEC) by lia.
    rewrite (token_primary (t - 0xED)) by lia. reflexivity.
  - intros Ht Hc. pose proof (partition_at_spec s Hc) as P.
    rewrite string_unfold, Ht, Hc.
    destruct (partition_at s) as [[u a] r]. destruct P as (E & _ & _).
    split; [exact E | reflexivity].
  - intros Ht Hc. rewrite string_unfold, Ht, Hc. split; [reflexivity |].
    apply bytes_leader.
Qed.

Lemma string_policy_witness :
  @Writer.string sample_tokens (b "account") = Ok (Some [x03]) /\
  @Writer.string sample_tokens (b "page1-last") = Ok (Some [xec; xf4]) /\
  @Writer.string sample_tokens (b "body") = Ok (Some (Writer.bytes (b "body"))).
Proof.
  split; [| split].
  - apply (proj1 (@string_policy sample_tokens (b "account")) 0x03);
      [reflexivity | lia].
  - apply (proj1 (proj2 (@string_policy sample_tokens (b "page1-last"))) 0x1E1);
      [reflexivity | lia].
  - apply (proj2 (proj2 (proj2 (@string_policy sample_tokens (b "body")))));
      reflexivity.
Defined.

(** C3 as stated fails: the sample dictionary gives ["page1-first"] the id
    [0xED], which is below [0xF5], and the writer emits two bytes for it;
    it gives ["page1-last"] the id [0x1E1], which is at most [0x1F4], and
    the writer emits [0xEC 0xF4] for it, not [0xFE] and [id - 0xF5]. *)
Lemma string_policy_counterexample :
  @str2tok sample_tokens (b "page1-first") = Some 0xED /\
  0xED < 0xF5 /\
  @Writer.string sample_tokens (b "page1-first") = Ok (Some [xec; x00]) /\
  @str2tok sample_tokens (b "page1-last") = Some 0x1E1 /\
  0x1E1 <= 0x1F4 /\
  @Writer.string sample_tokens (b "page1-last") = Ok (Some [xec; xf4]) /\
  [xec; xf4] <> [xfe; byte_of_Z (0x1E1 - 0xF5)].
Proof.
  repeat split; try reflexivity; try lia. discriminate.
Qed.

(** ** The writer is partial on the dictionary *)

(** *** Steps of the reader on a buffer whose front is known *)

Section ReaderSteps.
Context {T : Tokens} {C : Cipher}.

Lemma len_app {A} (x y : list A) : len (x ++ y) = len x + len y.
Proof. unfold len. rewrite length_app. lia. Qed.

Lemma len_cons {A} (x : A) (l : list A) : len (x :: l) = 1 + len l.
Proof. unfold len. simpl length. lia. Qed.

Lemma len_nonneg {A} (l : list A) : 0 <= len l.
Proof. unfold len. lia. Qed.

Lemma consume_app (e rest : str) (off : Z) (d : option dec) :
  Reader._consume (len e) (Reader.mk (e ++ rest) off d) =
  (Ok e, Reader.mk rest (off + len e) d).
Proof.
  unfold Reader._consume. cbn [Reader.buf Reader.offset Reader.decrypt].
  rewrite len_app.
  destruct (len e >? len e + len rest) eqn:E.
  - apply Z.gtb_lt in E. pose proof (len_nonneg rest). lia.
  - unfold len. rewrite Nat2Z.id.
    rewrite firstn_app, skipn_app, Nat.sub_diag, firstn_all, skipn_all.
    simpl. rewrite app_nil_r. reflexivity.
Qed.

Lemma int8_cons (c : byte) (rest : str) (off : Z) (d : option dec) :
  Reader.int8 (Reader.mk (c :: rest) off d) =
  (Ok (ord1 c), Reader.mk rest (off + 1) d).
Proof.
  unfold Reader.int8, bind.
  change 1 with (len [c]) at 1. change (c :: rest) with ([c] ++ rest).
  rewrite consume_app. reflexivity.
Qed.

Lemma int16_cons (c0 c1 : byte) (rest : str) (off : Z) (d : option dec) :
  Reader.int16 (Reader.mk (c0 :: c1 :: rest) off d) =
  (Ok (Z.lor (Z.shiftl (ord1 c0) 8) (ord1 c1)), Reader.mk rest (off + 2) d).
Proof.
  unfold Reader.int16, bind.
  change 2 with (len [c0; c1]) at 1.
  change (c0 :: c1 :: rest) with ([c0; c1] ++ rest).
  rewrite consume_app. reflexivity.
Qed.

Lemma int24_cons (c0 c1 c2 : byte) (rest : str) (off : Z) (d : option dec) :
  Reader.int24 (Reader.mk (c0 :: c1 :: c2 :: rest) off d) =
  (Ok (Z.lor (Z.lor (Z.shiftl (ord1 c0) 16) (Z.shiftl (ord1 c1) 8)) (ord1 c2)),
   Reader.mk rest (off + 3) d).
Proof.
  unfold Reader.int24, bind.
  change 3 with (len [c0; c1; c2]) at 1.
  change (c0 :: c1 :: c2 :: rest) with ([c0; c1; c2] ++ rest).
  rewrite consume_app. reflexivity.
Qed.

Lemma peek_int8_cons (c : byte) (rest : str) (off : Z) (d : option dec) :
  Reader.peek_int8 (Reader.mk (c :: rest) off d) =
  (Ok (ord1 c), Reader.mk (c :: rest) off d).
Proof. reflexivity. Qed.

Lemma peek_int8_nil (off : Z) (d : option dec) :
  Reader.peek_int8 (Reader.mk [] off d) =
  (Raise TypeError, Reader.mk [] off d).
Proof. reflexivity. Qed.

Lemma string_fuel_S (fuel : nat) (c : byte) (rest : str) (off : Z)
      (d : option dec) :
  Reader.string_fuel (S fuel) (Reader.mk (c :: rest) off d) =
  (let token := ord1 c in
   if token =? 0x00 then ret []
   else if (0x02 <? token) && (token <? 0xf5) then
     if token =? 0xec
     then bind Reader.int8 (fun n => Reader.lookup (0xed + n))
     else Reader.lookup token
   else if token =? 0xFA then
     bind (Reader.string_fuel fuel) (fun user =>
     bind (Reader.string_fuel fuel) (fun server =>
     ret (user ++ [AT] ++ server)))
   else if token =? 0xFC then bind Reader.int8 Reader._consume
   else if token =? 0xFD then bind Reader.int24 Reader._consume
   else if token =? 0xFE
   then bind Reader.int8 (fun n => Reader.lookup (0xF5 + n))
   else if token =? 0xFF then
     bind Reader.int8 (fun nibble =>
     let ignore_last_nibble := Z.land nibble 0x80 in
     let size := Z.land nibble 0x7f in
     let nibbles_count :=
       size * 2 - (if ignore_last_nibble =? 0 then 0 else 1) in
     bind (Reader._consume size) (fun data =>
     ret (Reader.nibbles data nibbles_count)))
   else raise TypeError) (Reader.mk rest (off + 1) d).
Proof.
  cbn [Reader.string_fuel]. unfold bind at 1. rewrite int8_cons.
  reflexivity.
Qed.

Lemma reader_string_ec_fe (c : byte) (off : Z) (d : option dec) (v : str)
      (r : Reader.t) :
  Reader.string (Reader.mk [xec; xfe; c] off d) = (Ok v, r) ->
  Reader.buf r = [c].
Proof.
  unfold Reader.string, Reader.budget.
  cbn [Reader.buf length]. rewrite string_fuel_S.
  cbv zeta. change (ord1 xec) with 236. cbn [Z.eqb Z.ltb Z.compare Pos.compare Pos.compare_cont andb Pos.eqb].
  unfold bind. rewrite int8_cons. change (ord1 xfe) with 254.
  unfold Reader.lookup. destruct (tok2str (0xed + 254)) as [s' |].
  - intros H. inversion H. reflexivity.
  - discriminate.
Qed.

End ReaderSteps.

(** C9: [Writer.token] answers bytes for the ids up to [0x1F4] and answers
    nothing ([None]) for every greater id; so for a string whose dictionary
    id exceeds [0x1E1], where [Writer.string] calls [token] on
    [id - 0xED], what [Writer.string] emits, if anything, is not an encoding
    that [Reader.string] reads back, and past [0x2E1] the concatenation
    with [None] raises. *)
Theorem token_partial {T : Tokens} {C : Cipher} :
  (forall t, 0 <= t <= 0x1F4 -> exists e, Writer.token t = Ok (Some e)) /\
  (forall t, 0x1F4 < t -> Writer.token t = Ok None) /\
  (forall s t e, str2tok s = Some t -> 0x1E1 < t ->
     Writer.string s = Ok (Some e) -> ~ decodes_to e s) /\
  (forall s t, str2tok s = Some t -> 0x2E1 < t ->
     Writer.string s = Raise TypeError).
Proof.
  split; [| split; [| split]].
  - intros t Ht. destruct (Z_lt_le_dec t 0xF5).
    + rewrite token_primary by lia. eauto.
    + rewrite token_secondary by lia. eauto.
  - apply token_none.
  - intros s t e Ht Hr He (off & d & r & Hd & Hb).
    rewrite string_unfold, Ht in He.
    destruct (t >? 0xEB) eqn:E; [| rewrite Z.gtb_ltb in E; apply Z.ltb_ge in E; lia].
    rewrite (token_primary 0xEC) in He by lia.
    destruct (Z_le_gt_dec t 0x2E1).
    + rewrite (token_secondary (t - 0xED)) in He by lia. simpl in He.
      inversion He; subst e.
      apply reader_string_ec_fe in Hd. rewrite Hd in Hb. discriminate.
    + rewrite (token_none (t - 0xED)) in He by lia. discriminate.
  - intros s t Ht Hr. rewrite string_unfold, Ht.
    destruct (t >? 0xEB) eqn:E; [| rewrite Z.gtb_ltb in E; apply Z.ltb_ge in E; lia].
    rewrite (token_primary 0xEC) by lia.
    rewrite (token_none (t - 0xED)) by lia. reflexivity.
Qed.

Lemma token_partial_witness :
  @Writer.token 0x1F5 = Ok None /\
  ~ @decodes_to sample_tokens sample_cipher [xec; xfe; x00] (b "page2-first") /\
  @Writer.string sample_tokens (b "page3-first") = Raise TypeError.
Proof.
  pose proof (@token_partial sample_tokens sample_cipher) as (_ & H2 & H3 & H4).
  split; [| split].
  - apply H2. lia.
  - apply (H3 (b "page2-first") 0x1E2); [reflexivity | lia | reflexivity].
  - apply (H4 (b "page3-first") 0x2E2); [reflexivity | lia].
Defined.

(** ** The data slot of a node *)

Section NodeFacts.
Context {T : Tokens}.

Lemma _node_unfold (n : Node) :
  Writer._node n =
  Writer.bind (Writer.list_start (Writer.node_length n)) (fun buf =>
  Writer.bind (Writer.string (name n)) (fun nm =>
  Writer.bind (add_str buf nm) (fun buf =>
  Writer.bind (Writer.attributes (attributes n)) (fun a =>
  let buf := buf ++ a in
  Writer.bind (match data n with
               | Some (c :: d) => Ok (buf ++ Writer.bytes (c :: d))
               | _ => Ok buf
               end) (fun buf =>
  if truthy_list (children n) then
    Writer.bind (Writer.list_start (len (children n))) (fun ls =>
    write_children (children n) (buf ++ ls))
  else Ok buf))))).
Proof. destruct n. reflexivity. Qed.

Lemma write_children_prefix (cs : list Node) :
  forall buf e, write_children cs buf = Ok e -> exists tail, e = buf ++ tail.
Proof.
  induction cs as [| c cs IH]; simpl; intros buf e H.
  - inversion H. exists []. rewrite app_nil_r. reflexivity.
  - destruct (Writer._node c) as [x | |]; simpl in H; try discriminate.
    apply IH in H. destruct H as [tail ->]. exists (x ++ tail).
    rewrite app_assoc. reflexivity.
Qed.

End NodeFacts.

(** C4, as the code has it: the data of a node is always written by
    [Writer.bytes], that is as the raw form with its [0xFC] or [0xFD] leader
    followed by the bytes themselves, right after the list start, the name
    and the attributes; neither the token table nor a ["@"] in the data
    changes that. *)
Theorem node_data_is_raw {T : Tokens} (n : Node) (d e : str) :
  data n = Some d -> d <> [] -> Writer._node n = Ok e ->
  exists ls nm a tail l,
    Writer.list_start (Writer.node_length n) = Ok ls /\
    Writer.string (name n) = Ok (Some nm) /\
    Writer.attributes (attributes n) = Ok a /\
    e = ls ++ nm ++ a ++ (l ++ d) ++ tail /\
    raw_leader l /\
    (children n = [] -> tail = []).
Proof.
  intros Hd Hne H. rewrite _node_unfold in H. rewrite Hd in H.
  destruct (Writer.list_start (Writer.node_length n)) as [ls | |];
    simpl in H; try discriminate.
  destruct (Writer.string (name n)) as [[nm |] | |]; simpl in H; try discriminate.
  destruct (Writer.attributes (attributes n)) as [a | |]; simpl in H;
    try discriminate.
  destruct d as [| c d]; [congruence |]. simpl in H.
  destruct (bytes_leader (c :: d)) as (l & El & Hl).
  exists ls, nm, a.
  destruct (children n) as [| ch cs] eqn:Ec; simpl in H.
  - exists [], l. inversion H. rewrite El, app_nil_r, <- !app_assoc.
    repeat split; auto.
  - destruct (Writer.list_start (len (ch :: cs))) as [lc | |]; simpl in H;
      try discriminate.
    destruct (Writer._node ch) as [x | |]; simpl in H; try discriminate.
    apply write_children_prefix in H. destruct H as [tail ->].
    exists (lc ++ x ++ tail), l. rewrite El, <- !app_assoc.
    repeat split; auto. discriminate.
Qed.

Lemma node_data_is_raw_witness :
  exists ls nm a tail l,
    @Writer.list_start 2 = Ok ls /\
    @Writer.string sample_tokens (b "body") = Ok (Some nm) /\
    @Writer.attributes sample_tokens [] = Ok a /\
    [xf8; x02; xfc; x04; "b"; "o"; "d"; "y"; xfc; x02; "h"; "i"]%byte =
      ls ++ nm ++ a ++ (l ++ b "hi") ++ tail /\
    raw_leader l /\
    (@nil Node = [] -> tail = []).
Proof.
  apply (@node_data_is_raw sample_tokens
           (mkNode (b "body") [] (Some (b "hi")) []) (b "hi")).
  - reflexivity.
  - discriminate.
  - reflexivity.
Defined.

(** C4 as stated fails: ["account"] is known to the sample dictionary (id
    [0x03], which [Writer.string] writes as one byte) and ["a@b"] contains
    ["@"], yet as the data of a node both are written raw, behind the
    leader [0xFC] and their length. *)
Lemma node_data_counterexample :
  @str2tok sample_tokens (b "account") = Some 0x03 /\
  @Writer.string sample_tokens (b "account") = Ok (Some [x03]) /\
  @Writer._node sample_tokens (mkNode (b "x") [] (Some (b "account")) []) =
    Ok ([xf8; x02] ++ [xfc; x01; "x"%byte] ++ [xfc; x07] ++ b "account") /\
  contains_at (b "a@b") = true /\
  @Writer._node sample_tokens (mkNode (b "x") [] (Some (b "a@b")) []) =
    Ok ([xf8; x02] ++ [xfc; x01; "x"%byte] ++ [xfc; x03] ++ b "a@b").
Proof.
  repeat split; reflexivity.
Qed.

(** ** The frame header *)

Lemma header_word_int24 (W : Z) :
  0 <= W < 2 ^ 24 ->
  exists c0 c1 c2,
    Writer.int24 W = [c0; c1; c2] /\ header_word c0 c1 c2 = W.
Proof.
  intros HW. rewrite int24_value. do 3 eexists. split; [reflexivity |].
  unfold header_word.
  rewrite !ord1_byte_of_Z by (apply Z.mod_pos_bound; lia).
  rewrite join24 by (try apply Z.mod_pos_bound; lia).
  change (2 ^ 24) with 16777216 in HW.
  Z.div_mod_to_equations. lia.
Qed.

Lemma header_fields (fl L : Z) :
  0 <= fl < 16 -> 0 <= L < 2 ^ 20 ->
  header_flags (fl * 2 ^ 20 + L) = fl /\
  header_length (fl * 2 ^ 20 + L) = L.
Proof.
  intros Hf HL. unfold header_flags, header_length.
  change 0xF0 with (Z.shiftl (Z.ones 4) 4).
  change 0xFFFF with (Z.ones 16). change 0x0F with (Z.ones 4).
  rewrite masked_bits by lia.
  rewrite !Z.land_ones, !Z.shiftr_div_pow2 by lia.
  rewrite Z.lor_comm, lor_shiftl by (try apply Z.mod_pos_bound; lia).
  change (2 ^ 20) with 1048576 in *. change (2 ^ 16) with 65536.
  change (2 ^ 4) with 16.
  split; Z.div_mod_to_equations; lia.
Qed.

(** The word that the encrypted branch of [Writer.node] builds. *)
Lemma encrypted_word (L : Z) :
  0 <= L < 2 ^ 20 ->
  Z.lor (Z.lor (Z.shiftl (Z.lor (Z.shiftl 8 4)
                                (Z.shiftr (Z.land L 16711680) 16)) 16)
               (Z.shiftl (Z.shiftr (Z.land L 65280) 8) 8))
        (Z.land L 255) = 8 * 2 ^ 20 + L.
Proof.
  intros HL. change (2 ^ 20) with 1048576 in *.
  change 16711680 with (Z.shiftl 255 16). change 65280 with (Z.shiftl 255 8).
  rewrite !masked_byte by lia. change 255 with (Z.ones 8).
  rewrite Z.land_ones by lia.
  change (Z.shiftl 8 4) with (Z.shiftl 1 7).
  change (2 ^ 16) with 65536. change (2 ^ 8) with 256.
  assert (0 <= (L / 65536) mod 256 < 16) as Hh
    by (Z.div_mod_to_equations; lia).
  rewrite (lor_shiftl 1 _ 7) by (change (2 ^ 7) with 128; lia).
  rewrite join24 by (try apply Z.mod_pos_bound; lia).
  change (2 ^ 7) with 128. Z.div_mod_to_equations. lia.
Qed.

(** C5, as the code has it: a frame made by [Writer.node] is three header
    bytes followed by the payload, and when the payload is shorter than
    [2^20] bytes the flag nibble of the header is [0x0] for a plain payload
    and [0x8] for an encrypted one, and the 20-bit length is the number of
    payload bytes. *)
Theorem frame_header {T : Tokens} {C : Cipher}
        (node : option Node) (flag : option bool) (w w' : Writer.t)
        (frame plain : str) :
  Writer.node node flag w = (Ok (frame, plain), w') ->
  exists c0 c1 c2 payload,
    frame = c0 :: c1 :: c2 :: payload /\
    (will_encrypt flag w = false -> payload = plain) /\
    (len payload < 2 ^ 20 ->
     header_flags (header_word c0 c1 c2) =
       (if will_encrypt flag w then 0x8 else 0x0) /\
     header_length (header_word c0 c1 c2) = len payload).
Proof.
  unfold Writer.node, will_encrypt. intros H.
  destruct (match node with Some n => Writer._node n | None => Ok [x00] end)
    as [p | |]; try discriminate.
  set (fl := match flag with
             | Some e => e
             | None => match Writer.encrypt w with
                       | Some _ => true
                       | None => false
                       end
             end) in *.
  destruct fl.
  - destruct (Writer.encrypt w) as [e |]; [| discriminate].
    destruct (run_encrypt e p None) as [buf e'] eqn:Ee.
    match type of H with
    | context [Writer.int24 ?x] => remember (Writer.int24 x) as hdr eqn:Eh
    end.
    injection H as Hf Hp Hw. subst frame plain w'.
    destruct (Z_lt_le_dec (len buf) (2 ^ 20)) as [HL | HL].
    + pose proof (len_nonneg buf) as H0.
      rewrite encrypted_word in Eh by lia.
      destruct (header_word_int24 (8 * 2 ^ 20 + len buf))
        as (c0 & c1 & c2 & E & HW).
      { change (2 ^ 20) with 1048576 in *. change (2 ^ 24) with 16777216. lia. }
      rewrite E in Eh. subst hdr. exists c0, c1, c2, buf.
      split; [reflexivity |]. split; [discriminate |]. intros _.
      rewrite HW. apply header_fields; lia.
    + rewrite int24_value in Eh. subst hdr. do 3 eexists. exists buf.
      split; [reflexivity |]. split; [discriminate |]. lia.
  - remember (Writer.int24 (len p)) as hdr eqn:Eh.
    injection H as Hf Hp Hw. subst frame plain w'.
    destruct (Z_lt_le_dec (len p) (2 ^ 20)) as [HL | HL].
    + pose proof (len_nonneg p) as H0.
      destruct (header_word_int24 (len p)) as (c0 & c1 & c2 & E & HW).
      { change (2 ^ 20) with 1048576 in *. change (2 ^ 24) with 16777216. lia. }
      rewrite E in Eh. subst hdr. exists c0, c1, c2, p.
      split; [reflexivity |]. split; [reflexivity |]. intros _.
      rewrite HW. apply (header_fields 0 (len p)); lia.
    + rewrite int24_value in Eh. subst hdr. do 3 eexists. exists p.
      split; [reflexivity |]. split; [reflexivity |]. lia.
Qed.

Lemma frame_header_witness :
  header_flags (header_word x80 x00 x10) = 0x8 /\
  header_length (header_word x80 x00 x10) =
    len (rev sample_plain ++ [x00; x00; x00; x00]).
Proof.
  destruct (@frame_header sample_tokens sample_cipher (Some sample_body) None
              (@Writer.mk sample_cipher (Some 0))
              (@Writer.mk sample_cipher (Some 1))
              sample_frame_encrypted sample_plain eq_refl)
    as (c0 & c1 & c2 & payload & E & _ & H).
  injection E as <- <- <- <-.
  apply H. reflexivity.
Defined.

(** The encoding of a node named ["x"] that carries long data, under the
    sample dictionary. *)
Lemma node_x_long_data (d : str) :
  0xFF < len d ->
  @Writer._node sample_tokens (mkNode (b "x") [] (Some d) []) =
  Ok ([xf8; x02; xfc; x01; "x"%byte] ++ [xfd] ++ Writer.int24 (len d) ++ d).
Proof.
  intros H. rewrite _node_unfold.
  destruct d as [| c d]; [unfold len in H; simpl in H; lia |].
  change (Writer.node_length (mkNode (b "x") [] (Some (c :: d)) [])) with 2.
  change (Writer.list_start 2) with (@Ok str [xf8; x02]).
  change (@Writer.string sample_tokens (name (mkNode (b "x") [] (Some (c :: d)) [])))
    with (@Ok (option str) (Some [xfc; x01; "x"%byte])).
  cbn [Writer.bind add_str attributes data children Writer.attributes
       truthy_list app].
  unfold Writer.bytes.
  destruct (len (c :: d) >? 0xFF) eqn:E;
    [reflexivity | rewrite Z.gtb_ltb in E; apply Z.ltb_ge in E; lia].
Qed.

Lemma len_big_data : len big_data = 2 ^ 20.
Proof.
  unfold len, big_data. rewrite repeat_length, Z2Nat.id; lia.
Qed.

(** C5 as stated fails on a payload of [2^20] bytes or more: the plain frame
    of a stanza with [2^20] bytes of data has the flag nibble [0x1], and a
    length field of [9] before a payload of [2^20 + 9] bytes. *)
Lemma frame_header_counterexample :
  exists c0 c1 c2 payload,
    @Writer.node sample_tokens sample_cipher (Some big_body) None
                 Writer.__init__ =
      (Ok (c0 :: c1 :: c2 :: payload, payload), Writer.__init__) /\
    @will_encrypt sample_cipher None Writer.__init__ = false /\
    header_flags (header_word c0 c1 c2) = 0x1 /\
    header_length (header_word c0 c1 c2) = 9 /\
    len payload = 2 ^ 20 + 9.
Proof.
  pose proof len_big_data as L. change (2 ^ 20) with 1048576 in *.
  unfold Writer.node, big_body.
  rewrite node_x_long_data by lia.
  cbn [Writer.encrypt Writer.__init__].
  set (payload := [xf8; x02; xfc; x01; "x"%byte] ++
                  [xfd] ++ Writer.int24 (len big_data) ++ big_data).
  assert (len payload = 1048576 + 9) as Lp.
  { unfold payload. rewrite !len_app, L, int24_value. reflexivity. }
  rewrite Lp. exists x10, x00, x09, payload.
  split; [reflexivity |]. split; [reflexivity |]. split; [reflexivity |].
  split; [reflexivity | exact Lp].
Qed.

(** ** Feeding a frame in pieces *)

(** C2 fails on the code: [Reader.read] compares the length of the header
    with the whole buffer, the three header bytes included.  With all but
    the last byte of a frame buffered (eleven of its twelve payload bytes),
    [read] does not signal [MessageIncomplete]: it takes the header and ten
    more bytes off the buffer and raises [StreamError]; the last byte, fed
    afterwards, no longer completes anything.  Fed in one piece, the frame
    gives its node. *)
Theorem read_short_frame :
  let r := @Reader.data sample_cipher (firstn 14 sample_frame) Reader.__init__ in
  header_length (header_word x00 x00 x0c) = 12 /\
  len (Reader.buf r) - 3 = 11 /\
  @Reader.read sample_tokens sample_cipher r =
    (Raise StreamError, Reader.mk ["h"%byte] 13 None) /\
  @Reader.read sample_tokens sample_cipher
    (Reader.data (skipn 14 sample_frame) (Reader.mk ["h"%byte] 13 None)) =
    (Raise MessageIncomplete, Reader.mk ["h"%byte; "i"%byte] 13 None) /\
  @Reader.read sample_tokens sample_cipher
    (Reader.data sample_frame Reader.__init__) =
    (Ok (sample_body, sample_plain), Reader.mk [] 15 None).
Proof.
  repeat split; reflexivity.
Qed.

(** ** The iq handler *)

(** C10: on an [iq] stanza without children, [_iq] returns at once: nothing
    is sent and the client is as it was, whatever the attributes of the
    stanza are. *)
Theorem iq_without_children {T : Tokens} {C : Cipher}
        (node : Node) (c : Client.t) :
  children node = [] -> Client._iq node c = (Ok tt, c).
Proof.
  intros H. unfold Client._iq. rewrite H. reflexivity.
Qed.

Lemma iq_without_children_witness :
  @Client._iq sample_tokens sample_cipher sample_pong (sample_client []) =
  (Ok tt, sample_client []).
Proof.
  apply (@iq_without_children sample_tokens sample_cipher sample_pong
           (sample_client [])).
  reflexivity.
Defined.

(** ** The counter along a session *)

Section SessionFacts.
Context {T : Tokens} {C : Cipher}.

Lemma same_session_refl (c : Client.t) : same_session c c.
Proof. left. split; reflexivity. Qed.

Lemma same_session_trans (c1 c2 c3 : Client.t) :
  same_session c1 c2 -> same_session c2 c3 -> same_session c1 c3.
Proof.
  unfold same_session.
  intros [[H1 H2] | [H1 H2]] [[H3 H4] | [H3 H4]]; [left | right | right | right];
    split; congruence.
Qed.

Lemma same_session_disconnect (c : Client.t) :
  same_session c (Client._disconnect c).
Proof. right. split; reflexivity. Qed.

Lemma keeps_ret {A} (a : A) : keeps (ret a).
Proof. intros c r c' H. inversion H. apply same_session_refl. Qed.

Lemma keeps_raise {A} (e : exn) : keeps (@raise _ A e).
Proof. intros c r c' H. inversion H. apply same_session_refl. Qed.

Lemma keeps_diverge {A} : keeps (@diverge _ A).
Proof. intros c r c' H. inversion H. apply same_session_refl. Qed.

Lemma keeps_lift {A} (x : outcome A) : keeps (lift x).
Proof. intros c r c' H. inversion H. apply same_session_refl. Qed.

Lemma keeps_bind {A B} (m : Client.M A) (k : A -> Client.M B) :
  keeps m -> (forall a, keeps (k a)) -> keeps (bind m k).
Proof.
  intros Hm Hk c r c' H. unfold bind in H.
  destruct (m c) as [[a | e |] c1] eqn:E.
  - eapply same_session_trans; [eapply Hm; eauto | eapply Hk; eauto].
  - inversion H; subst. eapply Hm; eauto.
  - inversion H; subst. eapply Hm; eauto.
Qed.

Lemma keeps_for_each {A} (l : list A) (f : A -> Client.M unit) :
  (forall a, keeps (f a)) -> keeps (for_each l f).
Proof.
  intros Hf. induction l as [| x l IH]; simpl.
  - apply keeps_ret.
  - apply keeps_bind; [apply Hf | intros _; exact IH].
Qed.

(** A step that touches neither the socket nor the counter. *)
Lemma keeps_update {A} (a : A) (f : Client.t -> Client.t) :
  (forall c, Client.counter (f c) = Client.counter c /\
             Client.socket (f c) = Client.socket c) ->
  keeps (fun c => (Ok a, f c)).
Proof.
  intros Hf c r c' H. inversion H; subst. left. apply Hf.
Qed.

Lemma keeps_disconnected {A} : keeps (Client._disconnected (A := A)).
Proof.
  intros c r c' H. inversion H; subst. apply same_session_disconnect.
Qed.

Ltac keeps_step :=
  match goal with
  | |- keeps (bind _ _) => apply keeps_bind; [| intros ?]
  | |- keeps (ret _) => apply keeps_ret
  | |- keeps (raise _) => apply keeps_raise
  | |- keeps diverge => apply keeps_diverge
  | |- keeps (lift _) => apply keeps_lift
  | |- keeps Client._disconnected => apply keeps_disconnected
  | |- keeps (for_each _ _) => apply keeps_for_each; intros ?
  | |- keeps (if ?x then _ else _) => destruct x
  | |- keeps (match ?x with _ => _ end) => destruct x
  | H : keeps ?m |- keeps ?m => exact H
  end.

Ltac keeps_auto := repeat keeps_step.

Lemma keeps_timestamp : keeps Client.timestamp.
Proof. intros c r c' H. inversion H. apply same_session_refl. Qed.

Lemma keeps_sendall (buf : str) : keeps (Client.sendall buf).
Proof.
  intros c r c' H. unfold Client.sendall in H.
  destruct (Client.socket c); [| inversion H; apply same_session_refl].
  destruct (Client.writable (Client.net c)).
  - inversion H; subst. left. split; reflexivity.
  - eapply keeps_disconnected; eauto.
Qed.

Lemma keeps_write (buf : Node + str) (encrypt : option bool) :
  keeps (Client._write buf encrypt).
Proof.
  destruct buf as [node | buf]; simpl; [| apply keeps_sendall].
  intros c r c' H.
  destruct (Writer.node (Some node) encrypt (Client.writer c))
    as [[[frame plain] | e |] w]; simpl in H.
  - apply keeps_sendall in H. destruct H as [[H1 H2] | [H1 H2]];
      [left | right]; auto.
  - inversion H; subst. left. split; reflexivity.
  - inversion H; subst. left. split; reflexivity.
Qed.

Lemma keeps_msgid (prefix : str) : keeps (Client._msgid prefix).
Proof.
  unfold Client._msgid. apply keeps_bind; [apply keeps_timestamp |].
  intros ts c r c' H. inversion H. apply same_session_refl.
Qed.

Lemma keeps_select : keeps Client.select.
Proof.
  intros c r c' H. unfold Client.select in H.
  destruct (Client.arriving (Client.net c)) as [| [| chunk | |] rest];
    inversion H; subst; left; split; reflexivity.
Qed.

Lemma keeps_read_loop (fuel : nat) :
  forall nodes, keeps (Client.read_loop fuel nodes).
Proof.
  induction fuel as [| fuel IH]; intros nodes; simpl.
  - apply keeps_diverge.
  - intros c r c' H.
    destruct (Reader.read (Client.reader c)) as [[[node plain] | e |] rd].
    + apply IH in H. destruct H as [[H1 H2] | [H1 H2]]; [left | right]; auto.
    + destruct e;
        try (inversion H; subst; left; split; reflexivity).
      apply keeps_disconnected in H.
      destruct H as [[H1 H2] | [H1 H2]]; [left | right]; auto.
    + inversion H; subst. left. split; reflexivity.
Qed.

Lemma keeps_read : keeps Client._read.
Proof.
  intros c r c' H. unfold Client._read in H.
  destruct (Client.socket c) eqn:Es;
    [| eapply keeps_disconnected; eauto].
  revert c r c' H Es.
  assert (keeps
    (bind Client.select (fun e =>
     bind (match e with
           | Client.SelectError => Client._disconnected
           | Client.Timeout => ret tt
           | Client.RecvError => Client._disconnected
           | Client.Recv [] => Client._disconnected
           | Client.Recv buf =>
               fun c => (Ok tt, Client.set_reader
                                  (Reader.data buf (Client.reader c)) c)
           end) (fun _ c =>
     Client.read_loop (S (length (Reader.buf (Client.reader c)))) [] c)))) as K.
  { apply keeps_bind; [apply keeps_select |]. intros e.
    apply keeps_bind.
    - destruct e as [| [| x chunk] | |]; keeps_auto.
      apply keeps_update. intros c. split; reflexivity.
    - intros _ c r c' H. eapply keeps_read_loop; eauto. }
  intros c r c' H _. eapply K; eauto.
Qed.

Lemma keeps_receipt (node : Node) : keeps (Client._receipt node).
Proof.
  unfold Client._receipt. keeps_auto;
    try apply keeps_timestamp; apply keeps_write.
Qed.

Lemma keeps_iq (node : Node) : keeps (Client._iq node).
Proof.
  unfold Client._iq. keeps_auto; apply keeps_write.
Qed.

Lemma keeps_clear_dirty (categories : list str) :
  keeps (Client._clear_dirty categories).
Proof.
  unfold Client._clear_dirty. keeps_auto;
    [apply keeps_msgid | apply keeps_write].
Qed.

Lemma keeps_ib (node : Node) : keeps (Client._ib node).
Proof.
  unfold Client._ib. keeps_auto. apply keeps_clear_dirty.
Qed.

Lemma keeps_notification (node : Node) : keeps (Client._notification node).
Proof.
  unfold Client._notification. keeps_auto; apply keeps_write.
Qed.

Lemma keeps_challenge_reply (node : Node) :
  keeps (Client.challenge_reply node).
Proof.
  intros c r c' H. unfold Client.challenge_reply in H.
  destruct (derive (Client.secret c) (data node)) as [e d].
  unfold bind at 1 in H. unfold Client.timestamp at 1 in H.
  cbv beta iota zeta in H.
  match type of H with
  | context [run_encrypt ?a ?x ?y] =>
      destruct (run_encrypt a x y) as [cipher e']
  end.
  unfold bind in H.
  match type of H with
  | context [Client._write ?x ?y ?z] =>
      destruct (Client._write x y z) as [res c2] eqn:E
  end.
  apply keeps_write in E.
  assert (c' = c2) by (destruct res; inversion H; reflexivity). subst c2.
  destruct E as [[H1 H2] | [H1 H2]]; [left | right]; auto.
Qed.

Lemma keeps_deref (ref : nat) : keeps (Client.deref ref).
Proof.
  intros c r c' H. unfold Client.deref in H.
  destruct (nth_error (Client.objects c) ref); inversion H;
    apply same_session_refl.
Qed.

Lemma keeps_offer (node : Node) (ref : nat) : keeps (Client.offer node ref).
Proof.
  unfold Client.offer. keeps_auto; try apply keeps_deref.
  apply keeps_update. intros c. split; reflexivity.
Qed.

Lemma keeps_handle_callbacks (node : Node) :
  keeps (Client.handle_callbacks node).
Proof.
  intros c r c' H. unfold Client.handle_callbacks in H.
  destruct (Client.registry_get (Client.callbacks c) (name node)).
  - revert H. apply keeps_for_each. apply keeps_offer.
  - inversion H. apply same_session_refl.
Qed.

Lemma keeps_dispatch (incoming : Client.M unit) (node : Node) :
  keeps incoming -> keeps (Client.dispatch incoming node).
Proof.
  intros Hi. unfold Client.dispatch, Client._challenge_with.
  repeat match goal with
         | |- keeps (if ?x then _ else _) => destruct x
         end;
    try (keeps_auto; fail);
    try apply keeps_ib; try apply keeps_iq; try apply keeps_notification.
  - apply keeps_bind; [apply keeps_challenge_reply | intros _; exact Hi].
  - intros c r c' H. destruct (Client.auto_receipt c).
    + eapply keeps_receipt; eauto.
    + inversion H. apply same_session_refl.
Qed.

Lemma keeps_incoming (fuel : nat) : keeps (Client._incoming fuel).
Proof.
  induction fuel as [| fuel IH]; simpl.
  - apply keeps_diverge.
  - apply keeps_bind; [apply keeps_read |]. intros nodes.
    apply keeps_for_each. intros node.
    apply keeps_bind; [apply keeps_dispatch; exact IH |].
    intros _. apply keeps_handle_callbacks.
Qed.

Lemma keeps_registry_default (k : str) : keeps (Client.registry_default k).
Proof.
  intros c r c' H. unfold Client.registry_default in H.
  destruct (Client.registry_get (Client.callbacks c) k); inversion H; subst;
    left; split; reflexivity.
Qed.

Lemma keeps_register (cbs : list nat) : keeps (Client.register_callback cbs).
Proof.
  unfold Client.register_callback. keeps_auto;
    try apply keeps_deref; try apply keeps_registry_default.
  apply keeps_update. intros c. split; reflexivity.
Qed.

Lemma keeps_unregister (cbs : list nat) :
  keeps (Client.unregister_callback cbs).
Proof.
  unfold Client.unregister_callback. keeps_auto;
    try apply keeps_deref; try apply keeps_registry_default.
  apply keeps_update. intros c. split; reflexivity.
Qed.

Lemma keeps_first_called (cbs : list nat) : keeps (Client.first_called cbs).
Proof.
  induction cbs as [| ref cbs IH]; simpl; keeps_auto; apply keeps_deref.
Qed.

Lemma keeps_wait_loop (fuel : nat) (cbs : list nat) :
  keeps (Client.wait_loop fuel cbs).
Proof.
  induction fuel as [| fuel IH]; cbn [Client.wait_loop]; keeps_auto;
    try apply keeps_first_called; apply keeps_incoming.
Qed.

Lemma keeps_wait_for_callback (fuel : nat) (cbs : list nat) :
  keeps (Client.wait_for_callback fuel cbs).
Proof.
  unfold Client.wait_for_callback. keeps_auto;
    try apply keeps_wait_loop; apply keeps_unregister.
Qed.

Lemma keeps_register_callback_and_wait (fuel : nat) (cbs : list nat) :
  keeps (Client.register_callback_and_wait fuel cbs).
Proof.
  unfold Client.register_callback_and_wait. keeps_auto;
    [apply keeps_register | apply keeps_wait_for_callback].
Qed.

Lemma keeps_presence (state : str) : keeps (Client.presence state).
Proof. apply keeps_write. Qed.

Lemma keeps_service_loop (fuel : nat) : keeps (Client.service_loop fuel).
Proof.
  unfold Client.service_loop. apply keeps_bind; [apply keeps_incoming |].
  intros _ c r c' H.
  destruct (Client.clock c - Client.last_ping c >? Client.ALIVE_INTERVAL).
  - revert H. apply keeps_bind; [apply keeps_presence |]. intros _.
    apply keeps_update. intros c0. split; reflexivity.
  - inversion H. apply same_session_refl.
Qed.

Lemma same_session_after (k : call) (c : Client.t) :
  same_session c (after k c).
Proof.
  destruct k; cbn [after];
    match goal with
    | |- same_session ?c (snd (?m ?c)) =>
        destruct (m c) as [r c'] eqn:E; cbn [snd]; revert E
    end.
  - apply keeps_msgid.
  - apply keeps_write.
  - apply keeps_incoming.
  - apply keeps_service_loop.
  - apply keeps_presence.
  - apply keeps_register.
  - apply keeps_unregister.
  - apply keeps_wait_for_callback.
  - apply keeps_register_callback_and_wait.
Qed.

Lemma same_session_after_all (ks : list call) :
  forall c, same_session c (after_all ks c).
Proof.
  induction ks as [| k ks IH]; intros c; simpl.
  - apply same_session_refl.
  - eapply same_session_trans; [apply same_session_after | apply IH].
Qed.

End SessionFacts.

(** The counter does not move at all while the socket stays open. *)
Lemma counter_constant {T : Tokens} {C : Cipher} (ks : list call) (c : Client.t) :
  Client.socket (after_all ks c) <> None ->
  Client.counter (after_all ks c) = Client.counter c.
Proof.
  intros H. destruct (same_session_after_all ks c) as [[H1 _] | [H1 _]];
    [exact H1 | contradiction].
Qed.

(** ["%d" % i] tells the integers apart. *)
Lemma to_int_not_nil (z : Z) :
  Z.to_int z <> Decimal.Pos Decimal.Nil /\
  Z.to_int z <> Decimal.Neg Decimal.Nil.
Proof.
  pose proof (DecimalZ.to_of (Z.to_int z)) as H. rewrite DecimalZ.of_to in H.
  split; intros E; rewrite E in H; discriminate H.
Qed.

Lemma decimal_inj (x y : Z) : decimal x = decimal y -> x = y.
Proof.
  intros H. unfold decimal in H.
  apply (f_equal String.string_of_list_byte) in H.
  rewrite !String.string_of_list_byte_of_string in H.
  apply (f_equal DecimalString.NilZero.int_of_string) in H.
  destruct (to_int_not_nil x), (to_int_not_nil y).
  rewrite !DecimalString.NilZero.isi in H by assumption.
  injection H as H. apply DecimalZ.to_int_inj, H.
Qed.

(** C8 fails on the code in its middle part: the counter of the message
    ids is written at two places only, [Client(...)] and [_disconnect], and
    both write [0]; nothing raises it.  Whatever calls a session is made
    of, the counter keeps its value while the socket stays open, so two ids
    with the same prefix made in one session are the same exactly when the
    clock shows the same second: [_msgid], whose docstring promises a
    unique id, repeats itself within a second.  On [sample_client] the id
    is ["message-1700000000-0"] before and after a presence has been sent.
    The form of the id and the reset of the counter on disconnect are as
    C8 says. *)
Theorem msgid_not_unique :
  (forall (T : Tokens) (C : Cipher) (ks : list call) (c : Client.t),
     (Client.counter (after_all ks c) = Client.counter c /\
      Client.socket (after_all ks c) = Client.socket c) \/
     (Client.socket (after_all ks c) = None /\
      Client.counter (after_all ks c) = 0)) /\
  (forall (T : Tokens) (C : Cipher) (ks : list call) (prefix : str)
          (c : Client.t),
     Client.socket (after_all ks c) <> None ->
     (fst (Client._msgid prefix (after_all ks c)) =
      fst (Client._msgid prefix c) <->
      Client.clock (after_all ks c) = Client.clock c)) /\
  (let c := sample_client [] in
   let c' := @after_all sample_tokens sample_cipher
               [CallMsgid (b "message"); CallPresence (b "active")] c in
   @Client._msgid sample_cipher (b "message") c =
     (Ok (b "message-1700000000-0"), c) /\
   @Client._msgid sample_cipher (b "message") c' =
     (Ok (b "message-1700000000-0"), c') /\
   length (Client.sent (Client.net c')) = 1%nat /\
   Client.socket c' = Some Client.TcpSocket) /\
  (forall (C : Cipher) (c : Client.t) number secret nickname auth_blob n now,
     Client.counter (Client._disconnect c) = 0 /\
     Client.counter (snd (Client.disconnect c)) = 0 /\
     Client.counter
       (Client.__init__ number secret nickname auth_blob n now) = 0).
Proof.
  split; [| split; [| split]].
  - intros T C ks c. apply same_session_after_all.
  - intros T C ks prefix c Hs.
    pose proof (counter_constant ks c Hs) as Hc.
    unfold Client._msgid, Client.timestamp, bind. cbn [fst].
    rewrite Hc. split.
    + intros H. injection H as H.
      apply app_inv_head in H. injection H as H.
      apply app_inv_tail in H. apply decimal_inj, H.
    + intros H. rewrite H. reflexivity.
  - cbv zeta. split; [reflexivity |]. split; [reflexivity |].
    split; reflexivity.
  - intros. repeat split; reflexivity.
Qed.

Lemma msgid_not_unique_witness :
  let ks := [CallMsgid (b "message"); CallPresence (b "active");
             CallMsgid (b "lastseen")] in
  fst (@Client._msgid sample_cipher (b "lastseen")
         (@after_all sample_tokens sample_cipher ks (sample_client []))) =
  fst (@Client._msgid sample_cipher (b "lastseen") (sample_client [])).
Proof.
  cbv zeta.
  apply (proj1 (proj2 msgid_not_unique) sample_tokens sample_cipher).
  - vm_compute. discriminate.
  - reflexivity.
Defined.

(** ** The challenge *)

Ltac client_simpl :=
  cbn [Client.number Client.secret Client.nickname Client.auth_blob
       Client.auto_receipt Client.socket Client.account_info Client.counter
       Client.last_ping Client.callbacks Client.reader Client.writer
       Client.objects Client.net Client.clock
       Client.set_reader Client.set_writer Client.set_net Client.set_clock
       Client.set_callbacks Client.set_objects Client.set_last_ping
       Client.sent Client.arriving Client.writable
       Reader.buf Reader.offset Reader.decrypt Writer.encrypt].

Lemma node_plain {T : Tokens} {C : Cipher} (n : Node) (p : str) (w : Writer.t) :
  Writer._node n = Ok p ->
  Writer.node (Some n) (Some false) w = (Ok (Writer.int24 (len p) ++ p, p), w).
Proof.
  intros H. unfold Writer.node. rewrite H. reflexivity.
Qed.



(** ** Waiting for a callback *)

(** C7 fails on the code in its last part: [register_callback_and_wait]
    ends without a [return], so what it answers, when it does not raise, is
    [None] and never the latched result.  On [waiting_client], whose
    callback latches [42] on the [iq] stanza that arrives, registering and
    then calling [wait_for_callback] answers [42], and
    [register_callback_and_wait] answers [None]; both leave the callback
    latched and unregistered. *)
Theorem register_and_wait_drops_result :
  (forall (T : Tokens) (C : Cipher) fuel cbs c v c',
     Client.register_callback_and_wait fuel cbs c = (Ok v, c') -> v = VNone) /\
  fst (@Client.wait_for_callback sample_tokens sample_cipher 2 [0%nat]
         (snd (Client.register_callback [0%nat] waiting_client))) =
    Ok (VInt 42) /\
  fst (@Client.register_callback_and_wait sample_tokens sample_cipher 2
         [0%nat] waiting_client) = Ok VNone /\
  let c' := snd (@Client.register_callback_and_wait sample_tokens
                   sample_cipher 2 [0%nat] waiting_client) in
  option_map Callback.called (nth_error (Client.objects c') 0) = Some true /\
  option_map Callback.result (nth_error (Client.objects c') 0) =
    Some (VInt 42) /\
  Client.callbacks c' = [(b "iq", [])].
Proof.
  split.
  - intros T C fuel cbs c v c' H.
    unfold Client.register_callback_and_wait, bind in H.
    destruct (Client.register_callback cbs c) as [[[] | e |] c1];
      try discriminate.
    destruct (Client.wait_for_callback fuel cbs c1) as [[x | e |] c2];
      try discriminate.
    inversion H. reflexivity.
  - repeat split; reflexivity.
Qed.

(** ** Reading back what the writer wrote *)

Ltac decide_eqb a b :=
  first [ rewrite (proj2 (Z.eqb_eq a b)) by lia
        | rewrite (proj2 (Z.eqb_neq a b)) by lia ].

Ltac decide_ltb a b :=
  first [ rewrite (proj2 (Z.ltb_lt a b)) by lia
        | rewrite (proj2 (Z.ltb_ge a b)) by lia ].

Ltac decide_leb a b :=
  first [ rewrite (proj2 (Z.leb_le a b)) by lia
        | rewrite (proj2 (Z.leb_gt a b)) by lia ].

Ltac zdecide :=
  repeat match goal with
         | |- context [?a =? ?b] => decide_eqb a b
         | |- context [?a <? ?b] => decide_ltb a b
         | |- context [?a <=? ?b] => decide_leb a b
         | |- context [?a >? ?b] => rewrite (Z.gtb_ltb a b)
         end;
  cbn [andb orb negb].

Section Roundtrip.
Context {T : Tokens} {C : Cipher}.

Lemma good_token_range (t : Z) :
  good_token t = true -> 3 <= t <= 0xEB \/ 0xED <= t <= 0x1E1.
Proof.
  unfold good_token. intros H. apply orb_prop in H.
  destruct H as [H | H]; apply andb_prop in H; destruct H as [H1 H2];
    apply Z.leb_le in H1, H2; lia.
Qed.

Lemma string_fuel_token (fuel : nat) (c : byte) (t : Z) (rest : str)
      (off : Z) (d : option dec) :
  ord1 c = t ->
  Reader.string_fuel (S fuel) (Reader.mk (c :: rest) off d) =
  (if t =? 0x00 then ret []
   else if (0x02 <? t) && (t <? 0xf5) then
     if t =? 0xec
     then bind Reader.int8 (fun n => Reader.lookup (0xed + n))
     else Reader.lookup t
   else if t =? 0xFA then
     bind (Reader.string_fuel fuel) (fun user =>
     bind (Reader.string_fuel fuel) (fun server =>
     ret (user ++ [AT] ++ server)))
   else if t =? 0xFC then bind Reader.int8 Reader._consume
   else if t =? 0xFD then bind Reader.int24 Reader._consume
   else if t =? 0xFE
   then bind Reader.int8 (fun n => Reader.lookup (0xF5 + n))
   else if t =? 0xFF then
     bind Reader.int8 (fun nibble =>
     let ignore_last_nibble := Z.land nibble 0x80 in
     let size := Z.land nibble 0x7f in
     let nibbles_count :=
       size * 2 - (if ignore_last_nibble =? 0 then 0 else 1) in
     bind (Reader._consume size) (fun data =>
     ret (Reader.nibbles data nibbles_count)))
   else raise TypeError) (Reader.mk rest (off + 1) d).
Proof.
  intros <-. apply string_fuel_S.
Qed.

Lemma int16_roundtrip (W : Z) :
  0 <= W < 2 ^ 16 ->
  exists c0 c1,
    Writer.int16 W = [c0; c1] /\ Z.lor (Z.shiftl (ord1 c0) 8) (ord1 c1) = W.
Proof.
  intros HW. rewrite int16_value. do 2 eexists. split; [reflexivity |].
  rewrite !ord1_byte_of_Z by (apply Z.mod_pos_bound; lia).
  rewrite join16 by (apply Z.mod_pos_bound; lia).
  change (2 ^ 16) with 65536 in HW. Z.div_mod_to_equations. lia.
Qed.

(** The raw form. *)
Lemma bytes_roundtrip (s : str) :
  len s < 0x1000000 -> reads_string (Writer.bytes s) s.
Proof.
  intros Hs f rest off d Hf. pose proof (len_nonneg s) as H0.
  unfold Writer.bytes in *.
  destruct (len s >? 0xFF) eqn:E; rewrite Z.gtb_ltb in E.
  - apply Z.ltb_lt in E.
    destruct (header_word_int24 (len s)) as (c0 & c1 & c2 & E24 & HW).
    { change (2 ^ 24) with 16777216. lia. }
    rewrite E24 in *. destruct f as [| f]; [simpl in Hf; lia |].
    cbn [app]. rewrite (string_fuel_token _ _ 0xFD) by reflexivity.
    zdecide. unfold bind. rewrite int24_cons.
    unfold header_word in HW. rewrite HW, consume_app. eauto.
  - apply Z.ltb_ge in E. rewrite int8_value in *.
    destruct f as [| f]; [simpl in Hf; lia |].
    cbn [app]. rewrite (string_fuel_token _ _ 0xFC) by reflexivity.
    zdecide. unfold bind. rewrite int8_cons.
    rewrite ord1_byte_of_Z by (apply Z.mod_pos_bound; lia).
    rewrite Z.mod_small by lia. rewrite consume_app. eauto.
Qed.

Lemma bytes_first (s : str) : first_ok (Writer.bytes s).
Proof.
  unfold Writer.bytes. destruct (len s >? 0xFF); simpl; split; discriminate.
Qed.

Lemma bytes_length (s : str) : (2 <= length (Writer.bytes s))%nat.
Proof.
  unfold Writer.bytes. destruct (len s >? 0xFF); simpl; lia.
Qed.

Lemma string_fuel_primary (fuel : nat) (s : str) (t : Z) :
  str2tok s = Some t -> 0 <= t <= 0xEB ->
  Writer.string_fuel (S fuel) s = Ok (Some [byte_of_Z t]).
Proof.
  intros Ht Hr. cbn [Writer.string_fuel]. rewrite Ht. zdecide.
  apply token_primary. lia.
Qed.

Lemma string_fuel_paged (fuel : nat) (s : str) (t : Z) :
  str2tok s = Some t -> 0xED <= t <= 0x1E1 ->
  Writer.string_fuel (S fuel) s = Ok (Some [xec; byte_of_Z (t - 0xED)]).
Proof.
  intros Ht Hr. cbn [Writer.string_fuel]. rewrite Ht. zdecide.
  rewrite (token_primary 0xEC) by lia.
  rewrite (token_primary (t - 0xED)) by lia. reflexivity.
Qed.

Lemma string_roundtrip_fuel (fuel : nat) :
  forall s,
    good_string_fuel fuel s = true ->
    exists e,
      Writer.string_fuel fuel s = Ok (Some e) /\ first_ok e /\ reads_string e s.
Proof.
  induction fuel as [| fuel IH]; intros s H; [discriminate |].
  cbn [good_string_fuel] in H.
  destruct (str2tok s) as [t |] eqn:Et.
  - apply andb_prop in H. destruct H as [Hg Hs].
    destruct (tok2str t) as [s' |] eqn:Es; [| discriminate].
    apply str_eqb_eq in Hs. subst s'.
    destruct (good_token_range t Hg) as [Hr | Hr].
    + exists [byte_of_Z t]. rewrite (string_fuel_primary _ _ t) by (auto; lia).
      split; [reflexivity |]. split.
      { simpl. rewrite ord1_byte_of_Z by lia. lia. }
      intros f rest off d Hf. destruct f as [| f]; [simpl in Hf; lia |].
      cbn [app]. rewrite (string_fuel_token _ _ t) by (apply ord1_byte_of_Z; lia).
      zdecide. unfold Reader.lookup. rewrite Es. unfold ret. eauto.
    + exists [xec; byte_of_Z (t - 0xED)].
      rewrite (string_fuel_paged _ _ t) by (auto; lia).
      split; [reflexivity |]. split; [simpl; split; discriminate |].
      intros f rest off d Hf. destruct f as [| f]; [simpl in Hf; lia |].
      cbn [app]. rewrite (string_fuel_token _ _ 0xEC) by reflexivity.
      zdecide. unfold bind. rewrite int8_cons.
      rewrite ord1_byte_of_Z by lia.
      replace (0xed + (t - 0xED)) with t by lia.
      unfold Reader.lookup. rewrite Es. unfold ret. eauto.
  - cbn [Writer.string_fuel]. rewrite Et.
    destruct (contains_at s) eqn:Ec.
    + pose proof (partition_at_spec s Ec) as P.
      destruct (partition_at s) as [[user a] server].
      destruct P as (Es & _ & _).
      apply andb_prop in H. destruct H as [Hu Hv].
      destruct (IH server Hv) as (ev & Wv & Fv & Rv).
      assert (exists eu, (if truthy_list user
                          then Writer.bind (Writer.string_fuel fuel user)
                                 (fun u => add_str [xfa] u)
                          else Ok ([xfa] ++ [x00])) = Ok ([xfa] ++ eu) /\
                         eu <> [] /\ reads_string eu user)
        as (eu & Wu & Nu & Ru).
      { destruct user as [| c user]; cbn [truthy_list] in *.
        - exists [x00]. split; [reflexivity |]. split; [discriminate |].
          intros f rest off d Hf. destruct f as [| f]; [simpl in Hf; lia |].
          cbn [app]. rewrite (string_fuel_token _ _ 0) by reflexivity.
          zdecide. unfold ret. eauto.
        - destruct (IH (c :: user) Hu) as (eu & Wu & Fu & Ru).
          exists eu. rewrite Wu. split; [reflexivity |]. split; [| exact Ru].
          destruct eu; [destruct Fu | discriminate]. }
      rewrite Wu. cbn [Writer.bind]. rewrite Wv. cbn [Writer.bind add_str].
      exists (([xfa] ++ eu) ++ ev). split; [reflexivity |].
      split; [simpl; split; discriminate |].
      intros f rest off d Hf. destruct f as [| f]; [simpl in Hf; lia |].
      rewrite <- !app_assoc. cbn [app].
      rewrite (string_fuel_token _ _ 0xFA) by reflexivity.
      zdecide. unfold bind.
      assert (length eu <= f /\ length ev <= f)%nat as [Lu Lv].
      { rewrite !length_app in Hf. simpl in Hf. lia. }
      destruct (Ru f (ev ++ rest) (off + 1) d Lu) as [o1 ->].
      destruct (Rv f rest o1 d Lv) as [o2 ->].
      unfold ret. rewrite Es. eauto.
    + exists (Writer.bytes s). split; [reflexivity |].
      split; [apply bytes_first |].
      apply bytes_roundtrip. apply Z.ltb_lt. exact H.
Qed.

Lemma string_roundtrip (s : str) :
  good_string s = true ->
  exists e,
    Writer.string s = Ok (Some e) /\ first_ok e /\ reads_string e s.
Proof. apply string_roundtrip_fuel. Qed.

(** *** The attribute dictionary *)

Lemma unique_keys_NoDup (l : list (str * str)) :
  unique_keys l = true -> NoDup (map fst l).
Proof.
  induction l as [| [k v] l IH]; simpl; intros H; [constructor |].
  apply andb_prop in H. destruct H as [H1 H2].
  constructor; [| auto].
  intros Hin. apply in_map_iff in Hin. destruct Hin as ([k' v'] & E & Hin).
  simpl in E. subst k'.
  apply negb_true_iff in H1.
  assert (existsb (fun kv => str_eqb (fst kv) k) l = true); [| congruence].
  apply existsb_exists. exists (k, v'). split; [exact Hin |].
  apply str_eqb_refl.
Qed.

Lemma dict_set_fresh (acc : list (str * str)) (k v : str) :
  ~ In k (map fst acc) -> dict_set acc k v = acc ++ [(k, v)].
Proof.
  induction acc as [| [k' v'] acc IH]; simpl; intros H; [reflexivity |].
  destruct (str_eqb k' k) eqn:E.
  - apply str_eqb_eq in E. tauto.
  - rewrite IH by tauto. reflexivity.
Qed.

Lemma fold_set_pair (l : list (str * str)) :
  forall acc,
    NoDup (map fst acc ++ map fst l) ->
    fold_left set_pair l acc = acc ++ l.
Proof.
  induction l as [| [k v] l IH]; simpl; intros acc H.
  - rewrite app_nil_r. reflexivity.
  - unfold set_pair at 2. simpl.
    rewrite dict_set_fresh.
    + rewrite IH.
      * rewrite <- app_assoc. reflexivity.
      * rewrite map_app. simpl. rewrite <- app_assoc. exact H.
    + apply NoDup_remove_2 in H. intros Hin. apply H.
      apply in_or_app. left. exact Hin.
Qed.

Lemma attributes_roundtrip (attrs : list (str * str)) :
  forallb good_attribute attrs = true ->
  exists e,
    Writer.attributes attrs = Ok e /\
    forall f acc rest off d,
      (length e <= f)%nat ->
      exists off',
        Reader.attributes_loop f (length attrs) acc (Reader.mk (e ++ rest) off d) =
        (Ok (fold_left set_pair attrs acc), Reader.mk rest off' d).
Proof.
  induction attrs as [| [k v] attrs IH]; intros H.
  - exists []. split; [reflexivity |]. intros. simpl. unfold ret. eauto.
  - cbn [forallb] in H. apply andb_prop in H. destruct H as [Hkv Hr].
    unfold good_attribute in Hkv. apply andb_prop in Hkv.
    destruct Hkv as [Hk Hv]. cbn [fst snd] in Hk, Hv.
    destruct (string_roundtrip k Hk) as (ek & Wk & _ & Rk).
    destruct (string_roundtrip v Hv) as (ev & Wv & _ & Rv).
    destruct (IH Hr) as (er & Wr & Rr).
    exists ((ek ++ ev) ++ er). split.
    + cbn [Writer.attributes]. rewrite Wk. cbn [Writer.bind add_str app].
      rewrite Wv. cbn [Writer.bind add_str]. rewrite Wr. reflexivity.
    + intros f acc rest off d Hf.
      rewrite !length_app in Hf.
      cbn [length Reader.attributes_loop]. unfold bind.
      rewrite <- !app_assoc.
      destruct (Rk f (ev ++ er ++ rest) off d) as [o1 ->]; [lia |].
      destruct (Rv f (er ++ rest) o1 d) as [o2 ->]; [lia |].
      destruct (Rr f (dict_set acc k v) rest o2 d) as [o3 ->]; [lia |].
      eauto.
Qed.

(** *** List starts *)

Lemma list_start_roundtrip (L : Z) :
  0 <= L <= 0xFFFF ->
  exists e,
    Writer.list_start L = Ok e /\
    (1 <= length e)%nat /\
    (L <> 0 -> list_first e) /\
    forall rest off d,
      exists off',
        Reader.list_start (Reader.mk (e ++ rest) off d) =
        (Ok L, Reader.mk rest off' d).
Proof.
  intros HL. unfold Writer.list_start.
  destruct (L =? 0) eqn:E0.
  - apply Z.eqb_eq in E0. subst L. exists [x00].
    split; [reflexivity |]. split; [simpl; lia |]. split; [congruence |].
    intros rest off d. unfold Reader.list_start, bind. cbn [app].
    rewrite int8_cons. change (ord1 x00) with 0. zdecide. unfold ret. eauto.
  - apply Z.eqb_neq in E0. destruct (L <=? 0xFF) eqn:E1.
    + apply Z.leb_le in E1. rewrite chr_in_range by lia.
      exists [xf8; byte_of_Z L]. split; [reflexivity |].
      split; [simpl; lia |]. split; [intros _; simpl; auto |].
      intros rest off d. unfold Reader.list_start, bind. cbn [app].
      rewrite int8_cons. change (ord1 xf8) with 0xF8. zdecide.
      rewrite int8_cons, ord1_byte_of_Z by lia. eauto.
    + apply Z.leb_gt in E1.
      destruct (int16_roundtrip L) as (c0 & c1 & E16 & HW).
      { change (2 ^ 16) with 65536. lia. }
      rewrite E16. exists ([xf9] ++ [c0; c1]). split; [reflexivity |].
      split; [simpl; lia |]. split; [intros _; simpl; auto |].
      intros rest off d. unfold Reader.list_start, bind. cbn [app].
      rewrite int8_cons. change (ord1 xf9) with 0xF9. zdecide.
      rewrite int16_cons, HW. eauto.
Qed.

(** *** Children *)

Lemma children_roundtrip (cs : list Node) :
  Forall carried cs ->
  forallb well_formed cs = true ->
  exists ec,
    (forall buf, write_children cs buf = Ok (buf ++ ec)) /\
    (length cs <= length ec)%nat /\
    forall f rest off d,
      (length ec <= f)%nat ->
      exists off',
        Reader.times (length cs) (Reader._read_fuel f)
                     (Reader.mk (ec ++ rest) off d) =
        (Ok cs, Reader.mk rest off' d).
Proof.
  induction 1 as [| c cs Hc Hcs IH]; intros Hw.
  - exists []. split; [intros; simpl; rewrite app_nil_r; reflexivity |].
    split; [simpl; lia |]. intros. simpl. unfold ret. eauto.
  - cbn [forallb] in Hw. apply andb_prop in Hw. destruct Hw as [Hw1 Hw2].
    destruct (Hc Hw1) as (e1 & W1 & L1 & R1).
    destruct (IH Hw2) as (ec & Wc & Lc & Rc).
    exists (e1 ++ ec). split; [| split].
    + intros buf. cbn [write_children]. rewrite W1. cbn [Writer.bind].
      rewrite Wc, app_assoc. reflexivity.
    + rewrite length_app. simpl. lia.
    + intros f rest off d Hf. rewrite length_app in Hf.
      cbn [length Reader.times]. unfold bind. rewrite <- app_assoc.
      destruct (R1 f (ec ++ rest) off d) as [o1 ->]; [lia |].
      destruct (Rc f rest o1 d) as [o2 ->]; [lia |].
      unfold ret. eauto.
Qed.

(** *** Nodes *)

Lemma well_formed_unfold (n : Node) :
  well_formed n =
  good_string (name n)
  && forallb good_attribute (attributes n)
  && unique_keys (attributes n)
  && (Writer.node_length n <=? 0xFFFF)
  && match data n with
     | None => true
     | Some d =>
         truthy_list d && (len d <? 0x1000000)
         && negb (truthy_list (children n))
     end
  && (len (children n) <=? 0xFFFF)
  && forallb well_formed (children n).
Proof. destruct n. reflexivity. Qed.

Lemma node_length_eq (n : Node) :
  Writer.node_length n =
  1 + 2 * len (attributes n)
  + (if truthy_list (children n) then 1 else 0)
  + (if truthy_data (data n) then 1 else 0).
Proof.
  unfold Writer.node_length.
  destruct (attributes n); cbn [truthy_list]; [unfold len; simpl |]; lia.
Qed.

(** What [Reader._read] does up to the slot that follows the attributes. *)
Lemma read_head (f : nat) (L : Z) (nm : str) (attrs : list (str * str))
      (ls en ea tail : str) (off : Z) (d : option dec) :
  (forall rest off d,
     exists off',
       Reader.list_start (Reader.mk (ls ++ rest) off d) =
       (Ok L, Reader.mk rest off' d)) ->
  first_ok en -> reads_string en nm -> (length en <= f)%nat ->
  (forall f acc rest off d,
     (length ea <= f)%nat ->
     exists off',
       Reader.attributes_loop f (length attrs) acc (Reader.mk (ea ++ rest) off d) =
       (Ok (fold_left set_pair attrs acc), Reader.mk rest off' d)) ->
  (length ea <= f)%nat ->
  fold_left set_pair attrs [] = attrs ->
  Z.to_nat ((L - 1) / 2) = length attrs ->
  exists off',
    Reader._read_fuel (S f) (Reader.mk (ls ++ en ++ ea ++ tail) off d) =
    (if L mod 2 =? 0 then
       bind Reader.peek_int8 (fun token =>
       if (token =? 0xf8) || (token =? 0xf9) then
         bind (Reader.list_with (Reader._read_fuel f)) (fun children =>
         ret (mkNode nm attrs None children))
       else
         bind (Reader.string_fuel f) (fun data =>
         ret (mkNode nm attrs (Some data) [])))
     else ret (mkNode nm attrs None [])) (Reader.mk tail off' d).
Proof.
  intros Rls Fn Rn Ln Ra La Hfold Hcount.
  cbn [Reader._read_fuel]. unfold bind at 1.
  destruct (Rls (en ++ ea ++ tail) off d) as [o1 ->].
  destruct en as [| c en]; [destruct Fn |]. destruct Fn as [F1 F2].
  unfold bind at 1. cbn [app]. rewrite peek_int8_cons.
  zdecide.
  unfold bind at 1.
  destruct (Rn f (ea ++ tail) o1 d Ln) as [o2 E2].
  cbn [app] in E2. rewrite E2.
  unfold bind at 1. unfold Reader.attributes_fuel. rewrite Hcount.
  destruct (Ra f [] tail o2 d La) as [o3 ->]. rewrite Hfold.
  exists o3. reflexivity.
Qed.

Lemma bytes_head (s : str) :
  exists c e, Writer.bytes s = c :: e /\ (ord1 c = 0xFC \/ ord1 c = 0xFD).
Proof.
  unfold Writer.bytes. destruct (len s >? 0xFF); cbn [app]; eauto.
Qed.

Lemma node_carried : forall n, carried n.
Proof.
  apply Node_ind'. intros nm attrs dt cs IH Hw.
  rewrite well_formed_unfold in Hw. cbn [name attributes data children] in Hw.
  repeat (apply andb_prop in Hw; destruct Hw as [Hw ?]).
  rename Hw into Hname, H into Hch, H0 into Hclen, H1 into Hdata,
         H2 into Hlen, H3 into Huniq, H4 into Hattrs.
  set (n := mkNode nm attrs dt cs) in *.
  pose proof (node_length_eq n) as HL. cbn [n attributes data children] in HL.
  apply Z.leb_le in Hlen, Hclen.
  pose proof (len_nonneg attrs) as Ha0.
  destruct (list_start_roundtrip (Writer.node_length n))
    as (ls & Wls & Lls & _ & Rls).
  { rewrite HL. destruct (truthy_list cs), (truthy_data dt); lia. }
  destruct (string_roundtrip nm Hname) as (en & Wn & Fn & Rn).
  destruct (attributes_roundtrip attrs Hattrs) as (ea & Wa & Ra).
  assert (fold_left set_pair attrs [] = attrs) as Hfold.
  { rewrite fold_set_pair; [reflexivity |]. simpl.
    apply unique_keys_NoDup. exact Huniq. }
  assert (truthy_data dt && truthy_list cs = false) as Hexcl.
  { destruct dt as [[| c dt] |]; try reflexivity. cbn [truthy_data truthy_list] in *.
    apply andb_prop in Hdata. destruct Hdata as [_ Hcs].
    apply negb_true_iff in Hcs. exact Hcs. }
  assert (Z.to_nat ((Writer.node_length n - 1) / 2) = length attrs) as Hcount.
  { rewrite HL. rewrite <- (Nat2Z.id (length attrs)). f_equal.
    fold (len attrs).
    destruct (truthy_list cs), (truthy_data dt); try discriminate;
      Z.div_mod_to_equations; lia. }
  rewrite _node_unfold. cbn [n name attributes data children].
  fold n. rewrite Wls. cbn [Writer.bind]. rewrite Wn. cbn [Writer.bind add_str].
  rewrite Wa. cbn [Writer.bind].
  destruct dt as [dt |].
  - (* data *)
    apply andb_prop in Hdata. destruct Hdata as [Hdata Hcs].
    apply andb_prop in Hdata. destruct Hdata as [Hd Hdl].
    apply Z.ltb_lt in Hdl. apply negb_true_iff in Hcs.
    destruct dt as [| c dt]; [discriminate |].
    destruct cs as [| ch cs]; [| discriminate].
    cbn [truthy_list truthy_data] in *.
    exists (((ls ++ en) ++ ea) ++ Writer.bytes (c :: dt)).
    split; [reflexivity |].
    split; [rewrite !length_app; lia |].
    intros f rest off d Hf. rewrite !length_app in Hf.
    pose proof (bytes_length (c :: dt)) as Lb.
    destruct f as [| f]; [lia |].
    rewrite <- !app_assoc.
    destruct (read_head f (Writer.node_length n) nm attrs ls en ea
                (Writer.bytes (c :: dt) ++ rest) off d)
      as [o1 ->]; auto; try lia.
    assert (Writer.node_length n mod 2 = 0) as Hm
      by (rewrite HL; Z.div_mod_to_equations; lia).
    rewrite Hm. cbn [Z.eqb].
    destruct (bytes_head (c :: dt)) as (c1 & e1 & Eb & Hc1).
    assert (Reader.peek_int8
              (Reader.mk (Writer.bytes (c :: dt) ++ rest) o1 d) =
            (Ok (ord1 c1), Reader.mk (Writer.bytes (c :: dt) ++ rest) o1 d))
      as Hp by (rewrite Eb; reflexivity).
    unfold bind at 1. rewrite Hp.
    assert ((ord1 c1 =? 0xf8) || (ord1 c1 =? 0xf9) = false) as ->
      by (destruct Hc1 as [-> | ->]; reflexivity).
    unfold bind.
    destruct (bytes_roundtrip (c :: dt) Hdl f rest o1 d) as [o2 E2]; [lia |].
    rewrite E2. unfold ret. eauto.
  - cbn [truthy_data] in *. destruct cs as [| ch cs].
    + (* neither data nor children *)
      cbn [truthy_list] in *.
      exists ((ls ++ en) ++ ea). split; [reflexivity |].
      split; [rewrite !length_app; lia |].
      intros f rest off d Hf. rewrite !length_app in Hf.
      destruct f as [| f]; [lia |].
      rewrite <- !app_assoc.
      destruct (read_head f (Writer.node_length n) nm attrs ls en ea
                  rest off d)
        as [o1 ->]; auto; try lia.
      assert (Writer.node_length n mod 2 = 1) as Hm
        by (rewrite HL; Z.div_mod_to_equations; lia).
      rewrite Hm. cbn [Z.eqb]. unfold ret. eauto.
    + (* children *)
      cbn [truthy_list] in *.
      destruct (list_start_roundtrip (len (ch :: cs)))
        as (lc & Wlc & Llc & Flc & Rlc).
      { pose proof (len_nonneg (ch :: cs)). lia. }
      destruct (children_roundtrip (ch :: cs) IH Hch) as (ec & Wc & Lc & Rc).
      rewrite Wlc. cbn [Writer.bind]. rewrite Wc.
      exists ((((ls ++ en) ++ ea) ++ lc) ++ ec). split; [reflexivity |].
      split; [rewrite !length_app; lia |].
      intros f rest off d Hf. rewrite !length_app in Hf.
      destruct f as [| f]; [lia |].
      rewrite <- !app_assoc.
      destruct (read_head f (Writer.node_length n) nm attrs ls en ea
                  (lc ++ ec ++ rest) off d)
        as [o1 ->]; auto; try lia.
      assert (Writer.node_length n mod 2 = 0) as Hm
        by (rewrite HL; Z.div_mod_to_equations; lia).
      rewrite Hm. cbn [Z.eqb].
      assert (list_first lc) as Hf1.
      { apply Flc. rewrite len_cons. pose proof (len_nonneg cs). lia. }
      destruct lc as [| c1 lc]; [destruct Hf1 |]. cbn [list_first] in Hf1.
      unfold bind at 1. cbn [app]. rewrite peek_int8_cons.
      assert ((ord1 c1 =? 0xf8) || (ord1 c1 =? 0xf9) = true) as ->
        by (destruct Hf1 as [-> | ->]; reflexivity).
      unfold bind at 1. unfold Reader.list_with. unfold bind at 1.
      destruct (Rlc (ec ++ rest) o1 d) as [o2 E2].
      cbn [app] in E2. rewrite E2.
      unfold len. rewrite Nat2Z.id.
      destruct (Rc f rest o2 d) as [o3 ->]; [lia |].
      unfold ret. eauto.
Qed.

End Roundtrip.

(** C1, as the code has it: for every node that the codec carries (see
    [well_formed]: strings with a usable dictionary id or none, unique
    attribute keys, non-empty data or children but not both, sizes that fit
    the length fields), [Writer._node] gives an encoding and [Reader._read],
    started on a buffer that begins with it, answers the same node and
    leaves exactly what followed the encoding. *)
Theorem node_roundtrip {T : Tokens} {C : Cipher} (n : Node) :
  well_formed n = true ->
  exists e,
    Writer._node n = Ok e /\
    (forall rest off d,
       exists off',
         Reader._read (Reader.mk (e ++ rest) off d) =
         (Ok n, Reader.mk rest off' d)) /\
    (exists off', Reader._read (Reader.mk e 0 None) = (Ok n, Reader.mk [] off' None)).
Proof.
  intros Hw. destruct (node_carried n Hw) as (e & We & Le & Re).
  exists e. split; [exact We |].
  assert (forall rest off d,
            exists off',
              Reader._read (Reader.mk (e ++ rest) off d) =
              (Ok n, Reader.mk rest off' d)) as H.
  { intros rest off d. unfold Reader._read, Reader.budget.
    cbn [Reader.buf]. apply Re. rewrite length_app. lia. }
  split; [exact H |].
  destruct (H [] 0 None) as [off' E]. rewrite app_nil_r in E. eauto.
Qed.

Lemma node_roundtrip_witness :
  exists e,
    @Writer._node sample_tokens sample_message = Ok e /\
    (forall rest off d,
       exists off',
         @Reader._read sample_tokens sample_cipher (Reader.mk (e ++ rest) off d) =
         (Ok sample_message, Reader.mk rest off' d)) /\
    (exists off',
       @Reader._read sample_tokens sample_cipher (Reader.mk e 0 None) =
       (Ok sample_message, Reader.mk [] off' None)).
Proof.
  apply (@node_roundtrip sample_tokens sample_cipher sample_message).
  vm_compute. reflexivity.
Defined.

(** *** A node with too many children *)

Lemma write_children_repeat {T : Tokens} (y : Node) (ey : str) (N : nat) :
  Writer._node y = Ok ey ->
  forall buf,
    write_children (repeat y N) buf = Ok (buf ++ concat (repeat ey N)).
Proof.
  intros Hy. induction N as [| N IH]; intros buf; simpl.
  - rewrite app_nil_r. reflexivity.
  - rewrite Hy. cbn [Writer.bind]. rewrite IH, <- app_assoc. reflexivity.
Qed.

Lemma node_x_children (cs : list Node) :
  len cs = 65536 ->
  @Writer._node sample_tokens (mkNode (b "x") [] None cs) =
  @write_children sample_tokens cs
    [xf8; x02; xfc; x01; "x"%byte; xf9; x00; x00].
Proof.
  intros H. rewrite _node_unfold.
  destruct cs as [| c cs]; [discriminate |].
  cbn [name attributes data children].
  change (Writer.node_length (mkNode (b "x") [] None (c :: cs))) with 2.
  change (Writer.list_start 2) with (@Ok str [xf8; x02]).
  change (@Writer.string sample_tokens (b "x"))
    with (@Ok (option str) (Some [xfc; x01; "x"%byte])).
  cbn [Writer.bind add_str Writer.attributes truthy_list app].
  rewrite H. reflexivity.
Qed.

Lemma read_x_no_children (tail : str) :
  @Reader._read sample_tokens sample_cipher
    (Reader.mk ([xf8; x02; xfc; x01; "x"%byte; xf9; x00; x00] ++ tail) 0 None) =
  (Ok (mkNode (b "x") [] None []), Reader.mk tail 8 None).
Proof.
  unfold Reader._read, Reader.budget. cbn [Reader.buf app length].
  cbn [Reader._read_fuel]. unfold bind at 1.
  unfold Reader.list_start at 1. unfold bind at 1. rewrite int8_cons.
  change (ord1 xf8) with 0xF8. zdecide. rewrite int8_cons.
  change (ord1 x02) with 2.
  unfold bind at 1. rewrite peek_int8_cons. change (ord1 xfc) with 0xFC.
  zdecide. unfold bind at 1.
  rewrite (string_fuel_token _ _ 0xFC) by reflexivity. zdecide.
  unfold bind at 1. rewrite int8_cons. change (ord1 x01) with (len ["x"%byte]).
  change ("x"%byte :: xf9 :: x00 :: x00 :: tail)
    with (["x"%byte] ++ xf9 :: x00 :: x00 :: tail).
  rewrite consume_app.
  unfold bind at 1. unfold Reader.attributes_fuel.
  change (Z.to_nat ((2 - 1) / 2)) with 0%nat. cbn [Reader.attributes_loop].
  unfold ret at 1. change (2 mod 2 =? 0) with true. cbv iota.
  unfold bind at 1. rewrite peek_int8_cons. change (ord1 xf9) with 0xF9.
  zdecide. unfold bind at 1. unfold Reader.list_with. unfold bind at 1.
  unfold Reader.list_start. unfold bind at 1. rewrite int8_cons.
  change (ord1 xf9) with 0xF9. zdecide. rewrite int16_cons.
  change (Z.to_nat (Z.lor (Z.shiftl (ord1 x00) 8) (ord1 x00))) with 0%nat.
  cbn [Reader.times]. unfold ret. f_equal.
Qed.

(** C1 as stated fails: [many_children] has a name, no attributes, no data
    and [2^16] children, and the count of its children does not fit the two
    bytes that follow [0xF9]; the writer emits the count [0], and the
    reader answers a node without children. *)
Lemma roundtrip_counterexample :
  exists e r,
    @Writer._node sample_tokens many_children = Ok e /\
    @Reader._read sample_tokens sample_cipher (Reader.mk e 0 None) =
      (Ok (mkNode (b "x") [] None []), r) /\
    mkNode (b "x") [] None [] <> many_children /\
    attributes many_children = [] /\
    data many_children = None.
Proof.
  assert (len (repeat (Node_new (b "y")) (Z.to_nat (2 ^ 16))) = 65536) as L.
  { unfold len. rewrite repeat_length, Z2Nat.id; [reflexivity | lia]. }
  eexists. eexists. split; [| split; [| split; [| split]]].
  - unfold many_children. rewrite node_x_children by exact L.
    apply (@write_children_repeat sample_tokens _ [xf8; x01; xfc; x01; "y"%byte]).
    reflexivity.
  - apply read_x_no_children.
  - unfold many_children. intros H.
    apply (f_equal (fun n => length (children n))) in H.
    cbn [children] in H. rewrite repeat_length in H.
    change (length (@nil Node)) with 0%nat in H. lia.
  - reflexivity.
  - reflexivity.
Qed.

(** ** The recursion budget of the reader *)

Section ReaderBudget.
Context {T : Tokens} {C : Cipher}.

Lemma tame_ret {A} (k : nat) (a : A) : tame k (ret a).
Proof. intros r _. simpl. split; [discriminate | lia]. Qed.

Lemma tame_raise {A} (k : nat) (e : exn) : tame k (@raise _ A e).
Proof. intros r _. simpl. split; [discriminate | lia]. Qed.

Lemma tame_lift {A} (k : nat) (x : outcome A) :
  x <> Diverge -> tame k (lift x).
Proof. intros H r _. simpl. split; [exact H | lia]. Qed.

Lemma tame_bind {A B} (k : nat) (m : Reader.M A) (f : A -> Reader.M B) :
  tame k m -> (forall a, tame k (f a)) -> tame k (bind m f).
Proof.
  intros Hm Hf r Hr. unfold bind. destruct (Hm r Hr) as [H1 H2].
  destruct (m r) as [[a | e |] r1]; simpl in *.
  - destruct (Hf a r1) as [H3 H4]; [lia |]. split; [exact H3 | lia].
  - split; [discriminate | exact H2].
  - congruence.
Qed.

Lemma tame_le {A} (k k' : nat) (m : Reader.M A) :
  tame k m -> (k' <= k)%nat -> tame k' m.
Proof. intros H Hk r Hr. apply H. lia. Qed.

Lemma tame_consume (k : nat) (size : Z) : tame k (Reader._consume size).
Proof.
  intros r _. unfold Reader._consume.
  destruct (size >? len (Reader.buf r)); simpl.
  - split; [discriminate | lia].
  - split; [discriminate |]. rewrite length_skipn. lia.
Qed.

Lemma tame_peek (k : nat) (n : Z) : tame k (Reader._peek n).
Proof. intros r _. simpl. split; [discriminate | lia]. Qed.

Lemma ord_answers (s : str) : ord s <> Diverge.
Proof. destruct s as [| c [| c' s]]; discriminate. Qed.

Lemma index_answers (s : str) (i : nat) : index s i <> Diverge.
Proof. unfold index. destruct (nth_error s i); discriminate. Qed.

Ltac tame_step :=
  match goal with
  | |- tame _ (bind _ _) => apply tame_bind; [| intros ?]
  | |- tame _ (ret _) => apply tame_ret
  | |- tame _ (raise _) => apply tame_raise
  | |- tame _ (lift (ord _)) => apply tame_lift, ord_answers
  | |- tame _ (lift (index _ _)) => apply tame_lift, index_answers
  | |- tame _ (Reader._consume _) => apply tame_consume
  | |- tame _ (Reader._peek _) => apply tame_peek
  | |- tame _ (if ?x then _ else _) => destruct x
  | H : tame ?k ?m |- tame ?k ?m => exact H
  end.

Lemma tame_peek_int8 (k : nat) : tame k Reader.peek_int8.
Proof. unfold Reader.peek_int8. repeat tame_step. Qed.

Lemma tame_int8 (k : nat) : tame k Reader.int8.
Proof. unfold Reader.int8. repeat tame_step. Qed.

Lemma tame_int16 (k : nat) : tame k Reader.int16.
Proof. unfold Reader.int16. repeat tame_step. Qed.

Lemma tame_int24 (k : nat) : tame k Reader.int24.
Proof. unfold Reader.int24. repeat tame_step. Qed.

Lemma tame_peek_int24_answers (r : Reader.t) :
  fst (Reader.peek_int24 r) <> Diverge.
Proof.
  assert (tame (length (Reader.buf r)) Reader.peek_int24) as H
    by (unfold Reader.peek_int24; repeat tame_step).
  apply H. lia.
Qed.

Lemma tame_lookup (k : nat) (t : Z) : tame k (Reader.lookup t).
Proof.
  unfold Reader.lookup. destruct (tok2str t); [apply tame_ret | apply tame_raise].
Qed.

(** After [int8] has answered, one byte less is buffered. *)
Lemma tame_int8_then {B} (k : nat) (f : Z -> Reader.M B) :
  (forall k', k = S k' -> forall a, tame k' (f a)) ->
  tame k (bind Reader.int8 f).
Proof.
  intros Hf r Hr. destruct r as [buf off d]. cbn [Reader.buf] in Hr.
  destruct buf as [| c rest].
  - unfold bind. cbn. split; [discriminate | lia].
  - unfold bind. rewrite int8_cons.
    destruct k as [| k']; [simpl in Hr; lia |].
    destruct (Hf k' eq_refl (ord1 c) (Reader.mk rest (off + 1) d)) as [H1 H2].
    { simpl in *. lia. }
    split; [exact H1 |]. simpl in *. lia.
Qed.

Lemma tame_list_start_then {B} (k : nat) (f : Z -> Reader.M B) :
  (forall k', k = S k' -> forall a, tame k' (f a)) ->
  tame k (bind Reader.list_start f).
Proof.
  intros Hf r Hr. unfold Reader.list_start.
  assert (tame k (bind Reader.int8 (fun token =>
            bind (if token =? 0x00 then ret 0
                  else if token =? 0xF8 then Reader.int8
                  else if token =? 0xF9 then Reader.int16
                  else raise TypeError) f))) as H.
  { apply tame_int8_then. intros k' -> token.
    apply tame_bind.
    - repeat tame_step; first [apply tame_int8 | apply tame_int16].
    - intros a. apply (Hf k' eq_refl). }
  specialize (H r Hr). unfold bind in *.
  destruct (Reader.int8 r) as [[token | e |] r1]; exact H.
Qed.

Lemma tame_string_fuel (fuel : nat) :
  forall k, (k < fuel)%nat -> tame k (Reader.string_fuel fuel).
Proof.
  induction fuel as [| fuel IH]; intros k Hk; [lia |].
  cbn [Reader.string_fuel]. apply tame_int8_then. intros k' -> token.
  assert (tame k' (Reader.string_fuel fuel)) as Hs by (apply IH; lia).
  repeat tame_step;
    first [ apply tame_lookup | apply tame_int8 | apply tame_int24 ].
Qed.

Lemma tame_times {A} (k : nat) (n : nat) (m : Reader.M A) :
  tame k m -> tame k (Reader.times n m).
Proof.
  intros Hm. induction n as [| n IH]; simpl; repeat tame_step.
Qed.

Lemma tame_attributes_loop (k fuel n : nat) :
  (k < fuel)%nat ->
  forall attrs, tame k (Reader.attributes_loop fuel n attrs).
Proof.
  intros Hk. pose proof (tame_string_fuel fuel k Hk) as Hs.
  induction n as [| n IH]; intros attrs; simpl; repeat tame_step.
  apply IH.
Qed.

Lemma tame_read_fuel (fuel : nat) :
  forall k, (k < fuel)%nat -> tame k (Reader._read_fuel fuel).
Proof.
  induction fuel as [| fuel IH]; intros k Hk; [lia |].
  cbn [Reader._read_fuel]. apply tame_list_start_then. intros k' -> length.
  assert (tame k' (Reader.string_fuel fuel)) as Hs
    by (apply tame_string_fuel; lia).
  assert (tame k' (Reader._read_fuel fuel)) as Hr by (apply IH; lia).
  assert (forall L, tame k' (Reader.attributes_fuel fuel L)) as Ha
    by (intros L; apply tame_attributes_loop; lia).
  repeat tame_step;
    try apply tame_peek_int8; try apply Ha.
  unfold Reader.list_with. apply tame_bind.
  - unfold Reader.list_start. repeat tame_step;
      first [apply tame_int8 | apply tame_int16].
  - intros n. apply tame_times. exact Hr.
Qed.

(** [Reader._read] always answers or raises: its budget is never used up. *)
Lemma read_node_answers (r : Reader.t) : fst (Reader._read r) <> Diverge.
Proof.
  unfold Reader._read, Reader.budget.
  apply (tame_read_fuel (S (length (Reader.buf r))) (length (Reader.buf r)));
    lia.
Qed.

(** And so does [Reader.read], as long as the cipher does. *)
Lemma read_answers (r : Reader.t) :
  (forall d s, fst (run_decrypt d s) <> Diverge) ->
  fst (Reader.read r) <> Diverge.
Proof.
  intros Hd. unfold Reader.read.
  destruct (len (Reader.buf r) <=? 2); [discriminate |].
  unfold bind at 1.
  destruct (Reader.peek_int24 r) as [[word | e |] r1] eqn:Ep.
  - destruct (_ >? len (Reader.buf r1)); [discriminate |].
    unfold bind at 1.
    destruct (Reader.int24 r1) as [[w | e |] r2] eqn:E24.
    + destruct (negb _).
      * unfold Reader._read_encrypted, bind.
        destruct (Reader._consume _ r2) as [[msg | e |] r3] eqn:Ec.
        -- destruct (Reader.decrypt r3) as [dk |]; [| discriminate].
           pose proof (Hd dk msg) as Hdk.
           destruct (run_decrypt dk msg) as [[plain | e |] dk']; simpl in Hdk.
           ++ pose proof (read_node_answers (Reader.mk plain 0 (Some dk'))) as Hn.
              destruct (Reader._read (Reader.mk plain 0 (Some dk')))
                as [[node | e |] r4]; simpl in *; congruence.
           ++ discriminate.
           ++ congruence.
        -- discriminate.
        -- pose proof (tame_consume (length (Reader.buf r2))
                         (Z.lor (Z.land word 65535)
                            (Z.shiftl (Z.land (Z.shiftr word 16) 15) 16))
                         r2 (le_n _)) as [H _].
           rewrite Ec in H. exfalso. apply H. reflexivity.
      * unfold bind.
        destruct (Reader._peek _ r2) as [[plain | e |] r3] eqn:Ek;
          [| discriminate |
           pose proof (tame_peek 0
                         (Z.lor (Z.land word 65535)
                            (Z.shiftl (Z.land (Z.shiftr word 16) 15) 16)) r2)
             as Hk; unfold Reader._peek in *; discriminate].
        pose proof (read_node_answers r3) as Hn.
        destruct (Reader._read r3) as [[node | e |] r4]; simpl in *;
          congruence.
    + discriminate.
    + pose proof (tame_int24 (length (Reader.buf r1)) r1 (le_n _)) as [H _].
      rewrite E24 in H. exfalso. apply H. reflexivity.
  - discriminate.
  - pose proof (tame_peek_int24_answers r) as H. rewrite Ep in H.
    exfalso. apply H. reflexivity.
Qed.

End ReaderBudget.

(** * Further properties of the codec *)

(** ** Integers and list starts *)

Section CodecFacts.
Context {T : Tokens} {C : Cipher}.

Lemma mod_256_bounds (x : Z) : 0 <= x mod 256 < 256.
Proof. apply Z.mod_pos_bound. lia. Qed.

Lemma int16_reads_back (v : Z) (rest : str) (off : Z) (d : option dec) :
  Reader.int16 (Reader.mk (Writer.int16 v ++ rest) off d) =
  (Ok (v mod 2 ^ 16), Reader.mk rest (off + 2) d).
Proof.
  rewrite int16_value. cbn [app]. rewrite int16_cons.
  rewrite !ord1_byte_of_Z by apply mod_256_bounds.
  rewrite join16 by apply mod_256_bounds.
  do 2 f_equal. change (2 ^ 16) with 65536.
  Z.div_mod_to_equations. lia.
Qed.

Lemma int24_reads_back (v : Z) (rest : str) (off : Z) (d : option dec) :
  Reader.int24 (Reader.mk (Writer.int24 v ++ rest) off d) =
  (Ok (v mod 2 ^ 24), Reader.mk rest (off + 3) d).
Proof.
  rewrite int24_value. cbn [app]. rewrite int24_cons.
  rewrite !ord1_byte_of_Z by apply mod_256_bounds.
  rewrite join24 by (try apply mod_256_bounds; apply Z.mod_pos_bound; lia).
  do 2 f_equal. change (2 ^ 24) with 16777216.
  Z.div_mod_to_equations. lia.
Qed.

(** X1: the one, two and three byte integers of the writer are read back
    by the reader as the value reduced to the width of the field. *)
Theorem ints_read_back (v : Z) (rest : str) (off : Z) (d : option dec) :
  Reader.int8 (Reader.mk (Writer.int8 v ++ rest) off d) =
    (Ok (v mod 2 ^ 8), Reader.mk rest (off + 1) d) /\
  Reader.int16 (Reader.mk (Writer.int16 v ++ rest) off d) =
    (Ok (v mod 2 ^ 16), Reader.mk rest (off + 2) d) /\
  Reader.int24 (Reader.mk (Writer.int24 v ++ rest) off d) =
    (Ok (v mod 2 ^ 24), Reader.mk rest (off + 3) d).
Proof.
  split; [| split].
  - rewrite int8_value. cbn [app]. rewrite int8_cons.
    rewrite ord1_byte_of_Z by apply mod_256_bounds. reflexivity.
  - apply int16_reads_back.
  - apply int24_reads_back.
Qed.

(** X2: [Writer.list_start] refuses a negative length with the
    [ValueError] of [chr]; any other length is read back by
    [Reader.list_start] reduced to sixteen bits, so lengths up to [0xFFFF]
    come back as they are. *)
Theorem list_start_reads_back (L : Z) (rest : str) (off : Z) (d : option dec) :
  (L < 0 -> Writer.list_start L = Raise ValueError) /\
  (0 <= L ->
   exists e off',
     Writer.list_start L = Ok e /\
     Reader.list_start (Reader.mk (e ++ rest) off d) =
       (Ok (L mod 2 ^ 16), Reader.mk rest off' d)).
Proof.
  split.
  - intros HL. unfold Writer.list_start, chr. zdecide. reflexivity.
  - intros HL. destruct (Z_le_gt_dec L 0xFFFF) as [Hs | Hb].
    + destruct (list_start_roundtrip L) as (e & We & _ & _ & Re); [lia |].
      destruct (Re rest off d) as [off' E].
      exists e, off'. split; [exact We |].
      rewrite E, Z.mod_small; [reflexivity |]. change (2 ^ 16) with 65536. lia.
    + unfold Writer.list_start. zdecide.
      exists ([xf9] ++ Writer.int16 L), (off + 1 + 2). split; [reflexivity |].
      unfold Reader.list_start, bind. cbn [app]. rewrite int8_cons.
      change (ord1 xf9) with 0xF9. zdecide.
      rewrite int16_reads_back. reflexivity.
Qed.

(** ** Strings, tokens and attributes *)

(** X3: a string that the codec carries (a dictionary string with a usable
    id, a JID of carried parts, or a string of less than [2^24] bytes
    outside the dictionary) is written by [Writer.string] and read back by
    [Reader.string], which leaves exactly what followed the encoding. *)
Theorem string_reads_back (s : str) :
  good_string s = true ->
  exists e,
    Writer.string s = Ok (Some e) /\
    forall rest off d,
      exists off',
        Reader.string (Reader.mk (e ++ rest) off d) =
        (Ok s, Reader.mk rest off' d).
Proof.
  intros H. destruct (string_roundtrip s H) as (e & We & _ & Re).
  exists e. split; [exact We |]. intros rest off d.
  unfold Reader.string, Reader.budget. cbn [Reader.buf].
  apply Re. rewrite length_app. lia.
Qed.

(** X4: [Reader.string] inverts [Writer.token] on every id from [0x03] to
    [0x1F4] except [0xEC]: the one-byte form below [0xF5] and the [0xFE]
    form from [0xF5] on are both read back as the string of the id. *)
Theorem token_reads_back (t : Z) (s : str) :
  3 <= t <= 0x1F4 -> t <> 0xEC -> tok2str t = Some s ->
  exists e,
    Writer.token t = Ok (Some e) /\
    forall rest off d,
      exists off',
        Reader.string (Reader.mk (e ++ rest) off d) =
        (Ok s, Reader.mk rest off' d).
Proof.
  intros Ht Hec Hs. destruct (Z_lt_le_dec t 0xF5) as [Hp | Hp].
  - exists [byte_of_Z t]. rewrite token_primary by lia.
    split; [reflexivity |]. intros rest off d.
    unfold Reader.string, Reader.budget. cbn [Reader.buf app length].
    rewrite (string_fuel_token _ _ t) by (apply ord1_byte_of_Z; lia).
    zdecide. unfold Reader.lookup. rewrite Hs. unfold ret. eauto.
  - exists [xfe; byte_of_Z (t - 0xF5)]. rewrite token_secondary by lia.
    split; [reflexivity |]. intros rest off d.
    unfold Reader.string, Reader.budget. cbn [Reader.buf app length].
    rewrite (string_fuel_token _ _ 0xFE) by reflexivity.
    zdecide. unfold bind. rewrite int8_cons.
    rewrite ord1_byte_of_Z by lia.
    replace (0xF5 + (t - 0xF5)) with t by lia.
    unfold Reader.lookup. rewrite Hs. unfold ret. eauto.
Qed.

(** X5: an attribute dictionary with carried keys and values and unique
    keys is written by [Writer.attributes] and read back, entry by entry
    and in the same order, by [Reader.attributes] called with the list
    length [2 * n + 1] of a node with [n] attributes. *)
Theorem attributes_read_back (attrs : list (str * str)) :
  forallb good_attribute attrs = true ->
  unique_keys attrs = true ->
  exists e,
    Writer.attributes attrs = Ok e /\
    forall rest off d,
      exists off',
        Reader.attributes (2 * len attrs + 1) (Reader.mk (e ++ rest) off d) =
        (Ok attrs, Reader.mk rest off' d).
Proof.
  intros Hg Hu. destruct (attributes_roundtrip attrs Hg) as (e & We & Re).
  exists e. split; [exact We |]. intros rest off d.
  unfold Reader.attributes, Reader.attributes_fuel, Reader.budget.
  cbn [Reader.buf].
  replace (Z.to_nat ((2 * len attrs + 1 - 1) / 2)) with (length attrs).
  - destruct (Re (S (length (e ++ rest))) [] rest off d) as [off' E].
    { rewrite length_app. lia. }
    rewrite E. rewrite fold_set_pair; [eauto |].
    simpl. apply unique_keys_NoDup. exact Hu.
  - replace (2 * len attrs + 1 - 1) with (len attrs * 2) by lia.
    rewrite Z.div_mul by lia. unfold len. rewrite Nat2Z.id. reflexivity.
Qed.

(** X6: what [Writer.start_stream] emits is the seven bytes of the prelude
    followed by a stream header that [Reader._read] reads as the node
    [start] with the two attributes [to] and [resource]. *)
Theorem start_stream_reads_back (domain resource : str) :
  good_string (b "to") = true -> good_string domain = true ->
  good_string (b "resource") = true -> good_string resource = true ->
  exists e,
    Writer.start_stream domain resource =
      Ok ([x57; x41; x01; x05; x00; x00; x17] ++ e) /\
    forall rest off d,
      exists off',
        Reader._read (Reader.mk (e ++ rest) off d) =
        (Ok (mkNode (b "start")
               [(b "to", domain); (b "resource", resource)] None []),
         Reader.mk rest off' d).
Proof.
  intros H1 H2 H3 H4.
  set (attrs := [(b "to", domain); (b "resource", resource)]).
  assert (forallb good_attribute attrs = true) as Hg.
  { unfold attrs, good_attribute. cbn [forallb fst snd].
    rewrite H1, H2, H3, H4. reflexivity. }
  destruct (attributes_roundtrip attrs Hg) as (ea & Wa & Ra).
  exists ([xf8; x05; x01] ++ ea). split.
  - unfold Writer.start_stream. fold attrs.
    change (Writer.list_start (len attrs * 2 + 1)) with (@Ok str [xf8; x05]).
    cbn [Writer.bind]. rewrite Wa. reflexivity.
  - intros rest off d. unfold Reader._read, Reader.budget.
    cbn [Reader.buf app length].
    cbn [Reader._read_fuel]. unfold bind at 1.
    unfold Reader.list_start at 1. unfold bind at 1. rewrite int8_cons.
    change (ord1 xf8) with 0xF8. zdecide. rewrite int8_cons.
    change (ord1 x05) with 5.
    unfold bind at 1. rewrite peek_int8_cons. change (ord1 x01) with 1.
    zdecide. unfold bind at 1.
    change 1 with (len [x01]) at 1.
    change (x01 :: ea ++ rest) with ([x01] ++ ea ++ rest).
    rewrite consume_app.
    unfold bind at 1. unfold Reader.attributes_fuel.
    change (Z.to_nat ((5 - 1) / 2)) with (length attrs).
    match goal with
    | |- context [Reader.attributes_loop ?f _ [] (Reader.mk (ea ++ rest) ?o d)] =>
        destruct (Ra f [] rest o d) as [off' E];
          [rewrite length_app; lia |]
    end.
    rewrite E. unfold ret. exists off'. reflexivity.
Qed.

(** ** Frames *)

Lemma peek_int24_cons (c0 c1 c2 : byte) (rest : str) (off : Z) (d : option dec) :
  Reader.peek_int24 (Reader.mk (c0 :: c1 :: c2 :: rest) off d) =
  (Ok (header_word c0 c1 c2), Reader.mk (c0 :: c1 :: c2 :: rest) off d).
Proof. reflexivity. Qed.

(** [Reader.read] on a buffer that holds a header. *)
Lemma read_unfold (c0 c1 c2 : byte) (rest : str) (off : Z) (d : option dec) :
  Reader.read (Reader.mk (c0 :: c1 :: c2 :: rest) off d) =
  let W := header_word c0 c1 c2 in
  if header_length W >? 3 + len rest
  then (Raise MessageIncomplete, Reader.mk (c0 :: c1 :: c2 :: rest) off d)
  else
    (if negb (Z.land (header_flags W) Reader.ENCRYPTED_IN =? 0)
     then Reader._read_encrypted (header_length W)
     else
       bind (Reader._peek (header_length W)) (fun plain =>
       bind Reader._read (fun node => ret (node, plain))))
      (Reader.mk rest (off + 3) d).
Proof.
  unfold Reader.read. cbn [Reader.buf].
  pose proof (len_nonneg rest) as H0.
  assert (len (c0 :: c1 :: c2 :: rest) = 3 + len rest) as L
    by (rewrite !len_cons; lia).
  rewrite L. zdecide.
  unfold bind at 1. rewrite peek_int24_cons. cbn [Reader.buf]. rewrite L.
  cbv zeta. unfold header_flags, header_length.
  repeat rewrite Z.gtb_ltb.
  destruct (3 + len rest <? _); [reflexivity |].
  unfold bind at 1. rewrite int24_cons. reflexivity.
Qed.

(** X7: [Reader.read] signals [MessageIncomplete] and leaves the reader as
    it was when fewer than three bytes are buffered, and when the length of
    the header exceeds the number of buffered bytes. *)
Theorem read_incomplete (r : Reader.t) :
  (len (Reader.buf r) <= 2 -> Reader.read r = (Raise MessageIncomplete, r)) /\
  (forall c0 c1 c2 rest,
     Reader.buf r = c0 :: c1 :: c2 :: rest ->
     header_length (header_word c0 c1 c2) > len (Reader.buf r) ->
     Reader.read r = (Raise MessageIncomplete, r)).
Proof.
  split.
  - intros H. unfold Reader.read. zdecide. reflexivity.
  - intros c0 c1 c2 rest Hb Hl. destruct r as [buf off d].
    cbn [Reader.buf] in *. subst buf. rewrite read_unfold. cbv zeta.
    rewrite !len_cons in Hl. zdecide. reflexivity.
Qed.

(** X8: the [try ... finally] of [Reader._read_encrypted]: whatever the
    inner parse or the cipher answers, the reader is left with the bytes
    and the offset that follow the consumed ciphertext; when the buffer is
    too short nothing is consumed and [StreamError] is raised. *)
Theorem read_encrypted_restores (length : Z) (r r' : Reader.t)
        (res : outcome (Node * str)) :
  0 <= length ->
  Reader._read_encrypted length r = (res, r') ->
  (length <= len (Reader.buf r) ->
   Reader.buf r' = skipn (Z.to_nat length) (Reader.buf r) /\
   Reader.offset r' = Reader.offset r + length) /\
  (len (Reader.buf r) < length -> r' = r /\ res = Raise StreamError).
Proof.
  intros H0 H. unfold Reader._read_encrypted, bind in H.
  unfold Reader._consume in H.
  destruct (length >? len (Reader.buf r)) eqn:E; rewrite Z.gtb_ltb in E.
  - apply Z.ltb_lt in E. inversion H; subst. split; [lia | auto].
  - apply Z.ltb_ge in E. split; [| lia]. intros _.
    cbn [Reader.decrypt Reader.buf Reader.offset] in H.
    destruct (Reader.decrypt r) as [dk |].
    + destruct (run_decrypt dk _) as [[plain | e |] dk'].
      * destruct (Reader._read _) as [[node | e |] r4];
          inversion H; subst; auto.
      * inversion H; subst; auto.
      * inversion H; subst; auto.
    + inversion H; subst; auto.
Qed.

Lemma read_carried (n : Node) (payload rest : str) (off : Z) (d : option dec) :
  well_formed n = true -> Writer._node n = Ok payload ->
  exists off',
    Reader._read (Reader.mk (payload ++ rest) off d) =
    (Ok n, Reader.mk rest off' d).
Proof.
  intros Hw Hp. destruct (node_carried n Hw) as (e & We & _ & Re).
  rewrite Hp in We. injection We as <-.
  unfold Reader._read, Reader.budget. cbn [Reader.buf].
  apply Re. rewrite length_app. lia.
Qed.

Lemma firstn_len_app (x y : str) : firstn (Z.to_nat (len x)) (x ++ y) = x.
Proof.
  unfold len. rewrite Nat2Z.id, firstn_app, Nat.sub_diag, firstn_all.
  simpl. apply app_nil_r.
Qed.

Lemma read_plain_frame (n : Node) (payload rest : str) (off : Z)
      (d : option dec) :
  well_formed n = true ->
  Writer._node n = Ok payload ->
  len payload < 2 ^ 20 ->
  exists off',
    Reader.read (Reader.mk (Writer.int24 (len payload) ++ payload ++ rest) off d) =
    (Ok (n, payload), Reader.mk rest off' d).
Proof.
  intros Hw Hp HL. pose proof (len_nonneg payload) as H0.
  destruct (header_word_int24 (len payload)) as (c0 & c1 & c2 & E & HW).
  { change (2 ^ 20) with 1048576 in *. change (2 ^ 24) with 16777216. lia. }
  rewrite E. cbn [app]. rewrite read_unfold. cbv zeta. rewrite HW.
  destruct (header_fields 0 (len payload)) as [Hf Hl]; [lia | lia |].
  cbn [Z.mul Z.add] in Hf, Hl. rewrite Hf, Hl.
  pose proof (len_nonneg rest). rewrite len_app. zdecide.
  change (negb (Z.land 0 Reader.ENCRYPTED_IN =? 0)) with false. cbv iota.
  unfold bind at 1. unfold Reader._peek. cbn [Reader.buf].
  rewrite firstn_len_app. unfold bind.
  destruct (read_carried n payload rest (off + 3) d Hw Hp) as [off' ->].
  unfold ret. eauto.
Qed.

(** X9: a plain frame round trip.  For a node that the codec carries and
    whose encoding is shorter than [2^20] bytes, the frame that
    [Writer.node] makes without encryption is read by [Reader.read], from a
    buffer that begins with it, as that node together with the plain
    payload, and what followed the frame stays in the buffer. *)
Theorem plain_frame_reads_back (n : Node) (payload : str) (w : Writer.t) :
  well_formed n = true ->
  Writer._node n = Ok payload ->
  len payload < 2 ^ 20 ->
  exists frame,
    Writer.node (Some n) (Some false) w = (Ok (frame, payload), w) /\
    forall rest off d,
      exists off',
        Reader.read (Reader.mk (frame ++ rest) off d) =
        (Ok (n, payload), Reader.mk rest off' d).
Proof.
  intros Hw Hp HL.
  exists (Writer.int24 (len payload) ++ payload).
  split; [apply node_plain; exact Hp |].
  intros rest off d. rewrite <- app_assoc.
  apply read_plain_frame; assumption.
Qed.

(** X10: an encrypted frame round trip.  When the reader's cipher undoes
    what the writer's cipher does to the encoding of a carried node, and
    the ciphertext is shorter than [2^20] bytes, the frame that
    [Writer.node] makes with its cipher is read by [Reader.read] as that
    node together with the decrypted payload; what followed the frame
    stays in the buffer and both ciphers have advanced. *)
Theorem encrypted_frame_reads_back (n : Node) (payload cipher : str)
        (e e' : enc) (dk dk' : dec) :
  well_formed n = true ->
  Writer._node n = Ok payload ->
  run_encrypt e payload None = (cipher, e') ->
  run_decrypt dk cipher = (Ok payload, dk') ->
  len cipher < 2 ^ 20 ->
  exists frame,
    Writer.node (Some n) None (Writer.mk (Some e)) =
      (Ok (frame, payload), Writer.mk (Some e')) /\
    forall rest off,
      exists off',
        Reader.read (Reader.mk (frame ++ rest) off (Some dk)) =
        (Ok (n, payload), Reader.mk rest off' (Some dk')).
Proof.
  intros Hw Hp He Hd HL. pose proof (len_nonneg cipher) as H0.
  exists (Writer.int24 (8 * 2 ^ 20 + len cipher) ++ cipher). split.
  - unfold Writer.node. rewrite Hp. cbn [Writer.encrypt]. rewrite He.
    rewrite encrypted_word by lia. reflexivity.
  - intros rest off.
    destruct (header_word_int24 (8 * 2 ^ 20 + len cipher))
      as (c0 & c1 & c2 & E & HW).
    { change (2 ^ 20) with 1048576 in *. change (2 ^ 24) with 16777216. lia. }
    rewrite E. cbn [app]. rewrite read_unfold. cbv zeta. rewrite HW.
    destruct (header_fields 8 (len cipher)) as [Hf Hl]; [lia | lia |].
    rewrite Hf, Hl.
    pose proof (len_nonneg rest). rewrite len_app. zdecide.
    change (negb (Z.land 8 Reader.ENCRYPTED_IN =? 0)) with true. cbv iota.
    unfold Reader._read_encrypted, bind. rewrite consume_app.
    cbn [Reader.decrypt Reader.buf Reader.offset]. rewrite Hd.
    destruct (read_carried n payload [] 0 (Some dk') Hw Hp) as [o E2].
    rewrite app_nil_r in E2. rewrite E2. eauto.
Qed.

(** ** The packed decimal form *)

Lemma list_pair_ind {A} (P : list A -> Prop) :
  P [] -> (forall a, P [a]) -> (forall a c l, P l -> P (a :: c :: l)) ->
  forall l, P l.
Proof.
  intros H0 H1 H2.
  assert (forall l, P l /\ forall a, P (a :: l)) as H.
  { induction l as [| x l [IH1 IH2]]; split; auto. }
  intros l. apply H.
Qed.

Lemma nibble_at_high (hi lo : Z) (data : str) :
  is_nibble hi -> is_nibble lo ->
  Reader.nibble_at (byte_of_Z (hi * 16 + lo) :: data) 0 = Reader.nibble_char hi.
Proof.
  unfold is_nibble. intros Hh Hl. unfold Reader.nibble_at.
  change (0 mod 2) with 0. change (Z.to_nat (0 / 2)) with 0%nat.
  cbn [nth Z.sub Z.mul Z.add Z.opp Z.pos_sub].
  rewrite ord1_byte_of_Z by lia.
  change 15 with (Z.ones 4). rewrite masked_bits by lia.
  f_equal. change (2 ^ 4) with 16. Z.div_mod_to_equations. lia.
Qed.

Lemma nibble_at_low (hi lo : Z) (data : str) :
  is_nibble hi -> is_nibble lo ->
  Reader.nibble_at (byte_of_Z (hi * 16 + lo) :: data) 1 = Reader.nibble_char lo.
Proof.
  unfold is_nibble. intros Hh Hl. unfold Reader.nibble_at.
  change (1 mod 2) with 1. change (Z.to_nat (1 / 2)) with 0%nat.
  cbn [nth Z.sub Z.mul Z.add Z.opp Z.pos_sub].
  rewrite ord1_byte_of_Z by lia.
  change 15 with (Z.ones 4). rewrite masked_bits by lia.
  f_equal. change (2 ^ 4) with 16. change (2 ^ 0) with 1.
  Z.div_mod_to_equations. lia.
Qed.

Lemma nibble_at_next (c : byte) (data : str) (i : nat) :
  Reader.nibble_at (c :: data) (Z.of_nat (S (S i))) =
  Reader.nibble_at data (Z.of_nat i).
Proof.
  unfold Reader.nibble_at.
  replace (Z.of_nat (S (S i))) with (Z.of_nat i + 1 * 2) by lia.
  rewrite Z.mod_add, Z.div_add by lia.
  replace (Z.to_nat (Z.of_nat i / 2 + 1)) with (S (Z.to_nat (Z.of_nat i / 2))).
  - reflexivity.
  - assert (0 <= Z.of_nat i / 2) by (apply Z.div_pos; lia). lia.
Qed.

Lemma nibbles_pack (ns : list Z) :
  Forall is_nibble ns ->
  map (fun i => Reader.nibble_at (pack_nibbles ns) (Z.of_nat i))
      (seq 0 (length ns)) =
  map Reader.nibble_char ns.
Proof.
  induction ns as [| hi | hi lo ns IH] using list_pair_ind; intros H.
  - reflexivity.
  - inversion H as [| ? ? Hh _]; subst. cbn [pack_nibbles length seq map].
    replace (hi * 16) with (hi * 16 + 0) by lia.
    change (Z.of_nat 0) with 0.
    rewrite nibble_at_high by (auto; unfold is_nibble; lia). reflexivity.
  - inversion H as [| ? ? Hh H']; subst.
    inversion H' as [| ? ? Hl H'']; subst.
    cbn [pack_nibbles length seq map].
    change (Z.of_nat 0) with 0. change (Z.of_nat 1) with 1.
    rewrite nibble_at_high, nibble_at_low by auto. do 2 f_equal.
    rewrite <- (IH H''). rewrite <- !seq_shift, !map_map.
    apply map_ext. intros i. apply nibble_at_next.
Qed.

Lemma pack_nibbles_length (ns : list Z) :
  len (pack_nibbles ns) = (len ns + 1) / 2.
Proof.
  induction ns as [| hi | hi lo ns IH] using list_pair_ind.
  - reflexivity.
  - reflexivity.
  - cbn [pack_nibbles]. rewrite !len_cons, IH.
    pose proof (len_nonneg ns). Z.div_mod_to_equations. lia.
Qed.

Lemma odd_len (ns : list Z) :
  len ns = 2 * ((len ns + 1) / 2) - (if Nat.odd (length ns) then 1 else 0).
Proof.
  induction ns as [| hi | hi lo ns IH] using list_pair_ind.
  - reflexivity.
  - reflexivity.
  - cbn [length]. rewrite !len_cons.
    change (Nat.odd (S (S (length ns)))) with (Nat.odd (length ns)).
    pose proof (len_nonneg ns). destruct (Nat.odd (length ns));
      Z.div_mod_to_equations; lia.
Qed.

Lemma land_high_bit (c : byte) :
  Z.land (ord1 c) 0x80 = 128 * (ord1 c / 128).
Proof. destruct c; reflexivity. Qed.

(** X11: the packed form [0xFF].  For up to 254 nibbles packed two to a
    byte behind a header that holds the number of bytes and, in its high
    bit, whether the last nibble is to be dropped, [Reader.string] answers
    one character per nibble, in order: the digit for a nibble below ten
    and [chr(nibble - 10 + 45)] from ten on. *)
Theorem nibbles_read_back (ns : list Z) (rest : str) (off : Z) (d : option dec) :
  Forall is_nibble ns ->
  (length ns <= 254)%nat ->
  (exists off',
     Reader.string
       (Reader.mk ([xff; nibble_header ns] ++ pack_nibbles ns ++ rest) off d) =
     (Ok (map Reader.nibble_char ns), Reader.mk rest off' d)) /\
  Forall (fun n =>
            ord1 (Reader.nibble_char n) = if n <? 10 then 48 + n else 35 + n) ns.
Proof.
  intros Hn Hl. split.
  - pose proof (len_nonneg ns) as H0.
    assert (len ns <= 254) as Hl' by (unfold len; lia).
    pose proof (odd_len ns) as Ho.
    set (size := (len ns + 1) / 2) in *.
    assert (0 <= size <= 127) as Hs
      by (unfold size; Z.div_mod_to_equations; lia).
    unfold Reader.string, Reader.budget. cbn [Reader.buf app length].
    rewrite (string_fuel_token _ _ 0xFF) by reflexivity. zdecide.
    unfold bind at 1. rewrite int8_cons.
    assert (ord1 (nibble_header ns) =
            (if Nat.odd (length ns) then 0x80 else 0) + size) as Hh.
    { unfold nibble_header. fold size. apply ord1_byte_of_Z.
      destruct (Nat.odd (length ns)); lia. }
    cbv zeta. rewrite land_high_bit.
    change 0x7f with (Z.ones 7). rewrite Z.land_ones by lia.
    change (2 ^ 7) with 128. rewrite Hh.
    assert (((if Nat.odd (length ns) then 128 else 0) + size) mod 128 = size)
      as -> by (destruct (Nat.odd (length ns)); Z.div_mod_to_equations; lia).
    assert ((128 * (((if Nat.odd (length ns) then 128 else 0) + size) / 128) =? 0)
            = negb (Nat.odd (length ns))) as ->.
    { destruct (Nat.odd (length ns)); cbn [negb].
      - apply Z.eqb_neq. Z.div_mod_to_equations. lia.
      - apply Z.eqb_eq. Z.div_mod_to_equations. lia. }
    unfold bind.
    match goal with
    | |- context [Reader._consume size (Reader.mk _ ?o d)] =>
        assert (Reader._consume size
                  (Reader.mk (pack_nibbles ns ++ rest) o d) =
                (Ok (pack_nibbles ns), Reader.mk rest (o + size) d)) as ->
          by (unfold size; rewrite <- pack_nibbles_length; apply consume_app)
    end.
    unfold ret.
    assert (size * 2 - (if negb (Nat.odd (length ns)) then 0 else 1) = len ns)
      as -> by (destruct (Nat.odd (length ns)); cbn [negb] in *; lia).
    unfold Reader.nibbles, len. rewrite Nat2Z.id, nibbles_pack by exact Hn.
    eauto.
  - apply Forall_forall. intros n Hin.
    assert (is_nibble n) as Hr by (eapply Forall_forall in Hn; eauto).
    unfold is_nibble in Hr. unfold Reader.nibble_char.
    destruct (n <? 10) eqn:E.
    + apply Z.ltb_lt in E. rewrite ord1_byte_of_Z; lia.
    + apply Z.ltb_ge in E. rewrite ord1_byte_of_Z; lia.
Qed.

End CodecFacts.

(** *** Concrete instances *)

Lemma nibbles_read_back_witness :
  (exists off',
     @Reader.string sample_tokens sample_cipher
       (Reader.mk ([xff; nibble_header [4; 9; 1; 10; 5]] ++
                   pack_nibbles [4; 9; 1; 10; 5] ++ [x00]) 0 None) =
     (Ok (map Reader.nibble_char [4; 9; 1; 10; 5]), Reader.mk [x00] off' None)) /\
  Forall (fun n =>
            ord1 (Reader.nibble_char n) = if n <? 10 then 48 + n else 35 + n)
         [4; 9; 1; 10; 5].
Proof.
  apply (@nibbles_read_back sample_tokens sample_cipher [4; 9; 1; 10; 5]
           [x00] 0 None).
  - repeat constructor; unfold is_nibble; lia.
  - simpl. lia.
Defined.

Lemma list_start_reads_back_witness :
  @Writer.list_start (-1) = Raise ValueError /\
  exists e off',
    @Writer.list_start 70000 = Ok e /\
    @Reader.list_start sample_cipher (Reader.mk (e ++ [x00]) 0 None) =
      (Ok (70000 mod 2 ^ 16), Reader.mk [x00] off' None).
Proof.
  destruct (@list_start_reads_back sample_cipher 70000 [x00] 0 None) as [_ H].
  split.
  - apply (@list_start_reads_back sample_cipher (-1) [] 0 None). lia.
  - apply H. lia.
Defined.

Lemma string_reads_back_witness :
  exists e,
    @Writer.string sample_tokens (b "4917012345678@s.whatsapp.net") =
      Ok (Some e) /\
    forall rest off d,
      exists off',
        @Reader.string sample_tokens sample_cipher (Reader.mk (e ++ rest) off d) =
        (Ok (b "4917012345678@s.whatsapp.net"), Reader.mk rest off' d).
Proof.
  apply (@string_reads_back sample_tokens sample_cipher). reflexivity.
Defined.

Lemma token_reads_back_witness :
  exists e,
    @Writer.token 0x1E2 = Ok (Some e) /\
    forall rest off d,
      exists off',
        @Reader.string sample_tokens sample_cipher (Reader.mk (e ++ rest) off d) =
        (Ok (b "page2-first"), Reader.mk rest off' d).
Proof.
  apply (@token_reads_back sample_tokens sample_cipher 0x1E2 (b "page2-first")).
  - lia.
  - lia.
  - reflexivity.
Defined.

Lemma attributes_read_back_witness :
  exists e,
    @Writer.attributes sample_tokens (attributes sample_message) = Ok e /\
    forall rest off d,
      exists off',
        @Reader.attributes sample_tokens sample_cipher
          (2 * len (attributes sample_message) + 1)
          (Reader.mk (e ++ rest) off d) =
        (Ok (attributes sample_message), Reader.mk rest off' d).
Proof.
  apply (@attributes_read_back sample_tokens sample_cipher); reflexivity.
Defined.

Lemma start_stream_reads_back_witness :
  exists e,
    @Writer.start_stream sample_tokens (b "s.whatsapp.net") (b "S40-2.12.89-443") =
      Ok ([x57; x41; x01; x05; x00; x00; x17] ++ e) /\
    forall rest off d,
      exists off',
        @Reader._read sample_tokens sample_cipher (Reader.mk (e ++ rest) off d) =
        (Ok (mkNode (b "start")
               [(b "to", b "s.whatsapp.net");
                (b "resource", b "S40-2.12.89-443")] None []),
         Reader.mk rest off' d).
Proof.
  apply (@start_stream_reads_back sample_tokens sample_cipher); reflexivity.
Defined.

Lemma read_incomplete_witness :
  @Reader.read sample_tokens sample_cipher (Reader.mk [x00; x00] 0 None) =
    (Raise MessageIncomplete, Reader.mk [x00; x00] 0 None) /\
  @Reader.read sample_tokens sample_cipher
    (Reader.mk (firstn 5 sample_frame) 0 None) =
    (Raise MessageIncomplete, Reader.mk (firstn 5 sample_frame) 0 None).
Proof.
  split.
  - apply (@read_incomplete sample_tokens sample_cipher). vm_compute.
    discriminate.
  - apply (proj2 (@read_incomplete sample_tokens sample_cipher
                    (Reader.mk (firstn 5 sample_frame) 0 None))
             x00 x00 x0c [xf8; x02]).
    + reflexivity.
    + reflexivity.
Defined.

Lemma read_encrypted_restores_witness :
  let r := @Reader.mk sample_cipher
             (rev sample_plain ++ [x00; x00; x00; x00; x07]) 3 (Some 0) in
  let r' := snd (@Reader._read_encrypted sample_tokens sample_cipher 16 r) in
  Reader.buf r' = [x07] /\ Reader.offset r' = 19.
Proof.
  cbv zeta.
  destruct (@read_encrypted_restores sample_tokens sample_cipher 16
              (@Reader.mk sample_cipher
                 (rev sample_plain ++ [x00; x00; x00; x00; x07]) 3 (Some 0))
              (snd (@Reader._read_encrypted sample_tokens sample_cipher 16
                      (@Reader.mk sample_cipher
                         (rev sample_plain ++ [x00; x00; x00; x00; x07]) 3
                         (Some 0))))
              (fst (@Reader._read_encrypted sample_tokens sample_cipher 16
                      (@Reader.mk sample_cipher
                         (rev sample_plain ++ [x00; x00; x00; x00; x07]) 3
                         (Some 0))))) as [H _].
  - lia.
  - apply surjective_pairing.
  - apply H. vm_compute. discriminate.
Defined.

Lemma plain_frame_reads_back_witness :
  exists frame,
    @Writer.node sample_tokens sample_cipher (Some sample_message) (Some false)
      Writer.__init__ = (Ok (frame, sample_message_payload), Writer.__init__) /\
    forall rest off d,
      exists off',
        @Reader.read sample_tokens sample_cipher (Reader.mk (frame ++ rest) off d) =
        (Ok (sample_message, sample_message_payload), Reader.mk rest off' d).
Proof.
  apply (@plain_frame_reads_back sample_tokens sample_cipher).
  - reflexivity.
  - reflexivity.
  - reflexivity.
Defined.

Lemma encrypted_frame_reads_back_witness :
  exists frame,
    @Writer.node sample_tokens sample_cipher (Some sample_message) None
      (@Writer.mk sample_cipher (Some 0)) =
      (Ok (frame, sample_message_payload), @Writer.mk sample_cipher (Some 1)) /\
    forall rest off,
      exists off',
        @Reader.read sample_tokens sample_cipher
          (@Reader.mk sample_cipher (frame ++ rest) off (Some 5)) =
        (Ok (sample_message, sample_message_payload),
         @Reader.mk sample_cipher rest off' (Some 6)).
Proof.
  apply (@encrypted_frame_reads_back sample_tokens sample_cipher sample_message
           sample_message_payload
           (rev sample_message_payload ++ [x00; x00; x00; x00])).
  - reflexivity.
  - reflexivity.
  - reflexivity.
  - reflexivity.
  - reflexivity.
Defined.

(** * Further properties of the session *)

(** ** Jabber ids *)

Lemma contains_at_app (x y : str) :
  contains_at (x ++ y) = contains_at x || contains_at y.
Proof. unfold contains_at. apply existsb_app. Qed.

Lemma partition_at_fresh (x y : str) :
  contains_at x = false ->
  partition_at (x ++ [AT] ++ y) = (x, [AT], y).
Proof.
  induction x as [| c x IH]; intros H.
  - reflexivity.
  - cbn [contains_at existsb] in H. apply orb_false_iff in H.
    destruct H as [H1 H2]. cbn [app partition_at]. rewrite H1.
    cbn [app] in IH. rewrite (IH H2). reflexivity.
Qed.

(** X12: [_jid] always answers an id that contains ["@"]; applying it
    twice is the same as applying it once; an id that already has an ["@"]
    is left alone, and a bare number becomes the user part of an id on the
    group host when it contains ["-"], on the server otherwise. *)
Theorem jid_shape (number : str) :
  contains_at (Client._jid number) = true /\
  Client._jid (Client._jid number) = Client._jid number /\
  (contains_at number = true -> Client._jid number = number) /\
  (contains_at number = false ->
   partition_at (Client._jid number) =
   (number, [AT],
    if Client.contains_dash number then Client.GROUPHOST else Client.SERVER)).
Proof.
  assert (contains_at (Client._jid number) = true) as H.
  { unfold Client._jid. destruct (contains_at number) eqn:E; cbn [negb].
    - exact E.
    - destruct (Client.contains_dash number);
        rewrite !contains_at_app; cbn; apply orb_true_r. }
  split; [exact H |]. split; [| split].
  - unfold Client._jid at 1. rewrite H. reflexivity.
  - intros E. unfold Client._jid. rewrite E. reflexivity.
  - intros E. unfold Client._jid. rewrite E. cbn [negb].
    destruct (Client.contains_dash number); apply partition_at_fresh; exact E.
Qed.

Lemma jid_shape_witness :
  Client._jid (b "4917012345678") = b "4917012345678@s.whatsapp.net" /\
  partition_at (Client._jid (b "4917-1234")) =
    (b "4917-1234", [AT], Client.GROUPHOST).
Proof.
  split.
  - reflexivity.
  - apply (proj2 (proj2 (proj2 (jid_shape (b "4917-1234"))))). reflexivity.
Defined.

(** ** Contact synchronisation *)

Section SyncFacts.
Context {T : Tokens} {C : Cipher}.

Lemma sync_users_empty (numbers : list str) :
  In [] numbers -> Client.sync_users numbers = Raise IndexError.
Proof.
  induction numbers as [| n numbers IH]; intros H; [destruct H |].
  cbn [Client.sync_users]. destruct n as [| c n].
  - reflexivity.
  - destruct H as [H | H]; [discriminate |].
    unfold Client.with_plus. destruct (negb (byte_eqb c "+"%byte));
      cbn [Writer.bind]; rewrite (IH H); reflexivity.
Qed.

Lemma sync_users_plus (numbers : list str) :
  ~ In [] numbers ->
  exists users,
    Client.sync_users numbers = Ok users /\
    length users = length numbers /\
    Forall2 (fun number user =>
               exists rest,
                 data user = Some ("+"%byte :: rest) /\
                 name user = b "user" /\
                 ("+"%byte :: rest = number \/
                  "+"%byte :: rest = "+"%byte :: number /\
                  hd "+"%byte number <> "+"%byte))
            numbers users.
Proof.
  induction numbers as [| n numbers IH]; intros H.
  - exists []. repeat split; constructor.
  - destruct IH as (users & E & L & F); [intros Hin; apply H; right; exact Hin |].
    destruct n as [| c n]; [exfalso; apply H; left; reflexivity |].
    cbn [Client.sync_users]. unfold Client.with_plus.
    destruct (byte_eqb c "+"%byte) eqn:Ec; cbn [negb Writer.bind];
      rewrite E; cbn [Writer.bind]; eexists; (split; [reflexivity |]);
        (split; [simpl; lia |]); constructor; try exact F.
    + apply byte_eqb_eq in Ec. subst c. exists n. auto.
    + exists (c :: n). split; [reflexivity |]. split; [reflexivity |].
      right. split; [reflexivity |]. cbn [hd]. intros ->.
      unfold byte_eqb in Ec. discriminate.
Qed.

(** X13: [send_sync] looks at the first character of every number before it
    writes anything: one empty number makes it raise [IndexError] with the
    client as it was and nothing sent.  Without an empty number, the [user]
    nodes it builds carry, in order, each number with a leading ["+"],
    added only where there was none. *)
Theorem send_sync_numbers (numbers : list str) (mode context : str)
        (index : Z) (last : bool) (c : Client.t) :
  (In [] numbers ->
   Client.send_sync numbers mode context index last c = (Raise IndexError, c)) /\
  (~ In [] numbers ->
   exists users,
     Client.sync_users numbers = Ok users /\
     Forall2 (fun number user =>
                exists rest,
                  data user = Some ("+"%byte :: rest) /\
                  name user = b "user" /\
                  ("+"%byte :: rest = number \/
                   "+"%byte :: rest = "+"%byte :: number /\
                   hd "+"%byte number <> "+"%byte))
             numbers users /\
     Client.send_sync numbers mode context index last c =
     Client._write
       (inl (mkNode (b "iq")
               [(b "to", Client.number c ++ b "@" ++ Client.SERVER);
                (b "type", b "get");
                (b "id", msgid_of (b "sync") c);
                (b "xmlns", b "urn:xmpp:whatsapp:sync")]
               None
               [mkNode (b "sync")
                  [(b "mode", mode); (b "context", context);
                   (b "sid",
                    decimal ((Client.clock c + 11644477200) * 10000000));
                   (b "index", decimal index);
                   (b "last", if last then b "true" else b "false")]
                  None users]))
       None c).
Proof.
  split.
  - intros H. unfold Client.send_sync, Client._msgid, bind, Client.timestamp.
    rewrite (sync_users_empty numbers H). reflexivity.
  - intros H. destruct (sync_users_plus numbers H) as (users & E & _ & F).
    exists users. split; [exact E |]. split; [exact F |].
    unfold Client.send_sync, Client._msgid, bind, Client.timestamp.
    rewrite E. reflexivity.
Qed.

End SyncFacts.

Lemma send_sync_numbers_witness :
  @Client.send_sync sample_tokens sample_cipher
    [b "4917012345678"; []] (b "full") (b "registration") 0 true
    (sample_client []) = (Raise IndexError, sample_client []) /\
  exists users,
    Client.sync_users [b "4917012345678"; b "+31612345678"] = Ok users /\
    map data users = [Some (b "+4917012345678"); Some (b "+31612345678")].
Proof.
  split.
  - apply (@send_sync_numbers sample_tokens sample_cipher). simpl. auto.
  - destruct (@send_sync_numbers sample_tokens sample_cipher
                [b "4917012345678"; b "+31612345678"] (b "full")
                (b "registration") 0 true (sample_client [])) as [_ H].
    destruct H as (users & E & _ & _).
    + simpl. intros [H | [H | H]]; try discriminate; exact H.
    + exists users. split; [exact E |].
      vm_compute in E. injection E as <-. reflexivity.
Defined.

(** ** Failures of the connection *)

Section FailureFacts.
Context {T : Tokens} {C : Cipher}.

(** X14: the ways [_write] fails on a node.  When the node cannot be
    encoded nothing is sent; when the send fails the client ends
    disconnected (no socket, no account information, counter [0]) and
    [ConnectionError] is raised; without a socket the call fails on
    [sendall] with nothing sent.  In the last two cases the writer's cipher
    has advanced all the same. *)
Theorem write_failures (node : Node) (flag : option bool) (c : Client.t) :
  (forall e w,
     Writer.node (Some node) flag (Client.writer c) = (Raise e, w) ->
     Client._write (inl node) flag c = (Raise e, Client.set_writer w c)) /\
  (forall frame plain w,
     Writer.node (Some node) flag (Client.writer c) = (Ok (frame, plain), w) ->
     Client.socket c <> None ->
     Client.writable (Client.net c) = false ->
     exists c',
       Client._write (inl node) flag c = (Raise ConnectionError, c') /\
       Client.socket c' = None /\ Client.account_info c' = None /\
       Client.counter c' = 0 /\ Client.net c' = Client.net c /\
       Client.writer c' = w) /\
  (forall frame plain w,
     Writer.node (Some node) flag (Client.writer c) = (Ok (frame, plain), w) ->
     Client.socket c = None ->
     Client._write (inl node) flag c =
       (Raise AttributeError, Client.set_writer w c)).
Proof.
  split; [| split].
  - intros e w H. unfold Client._write. rewrite H. reflexivity.
  - intros frame plain w H Hs Hw. unfold Client._write. rewrite H.
    unfold Client.sendall. client_simpl.
    destruct (Client.socket c); [| congruence]. rewrite Hw.
    eexists. split; [reflexivity |]. cbn. auto.
  - intros frame plain w H Hs. unfold Client._write. rewrite H.
    unfold Client.sendall. client_simpl. rewrite Hs. reflexivity.
Qed.

(** X15: the ways [_read] loses the connection.  Without a socket, on an
    error of [select] or of [recv], and when [recv] answers no bytes, the
    client ends disconnected (no socket, no account information, counter
    [0]), [ConnectionError] is raised, nothing is sent and the reader's
    buffer is as it was. *)
Theorem read_failures (c : Client.t) :
  (Client.socket c = None \/
   exists e rest,
     Client.arriving (Client.net c) = e :: rest /\
     (e = Client.SelectError \/ e = Client.RecvError \/ e = Client.Recv [])) ->
  exists c',
    Client._read c = (Raise ConnectionError, c') /\
    Client.socket c' = None /\ Client.account_info c' = None /\
    Client.counter c' = 0 /\
    Client.sent (Client.net c') = Client.sent (Client.net c) /\
    Client.reader c' = Client.reader c.
Proof.
  intros H. unfold Client._read.
  destruct (Client.socket c) as [sk |] eqn:Es.
  - destruct H as [H | (e & rest & Ha & He)]; [discriminate |].
    unfold bind, Client.select. rewrite Ha.
    destruct He as [-> | [-> | ->]]; eexists;
      (split; [reflexivity |]); cbn; auto.
  - eexists. split; [reflexivity |]. cbn. auto.
Qed.

End FailureFacts.

Lemma write_failures_witness :
  exists c',
    @Client._write sample_tokens sample_cipher (inl sample_body) None
      (Client.set_net (Client.mkNetwork [] [] false) (sample_client [])) =
      (Raise ConnectionError, c') /\
    Client.socket c' = None /\ Client.account_info c' = None /\
    Client.counter c' = 0 /\
    Client.net c' = Client.mkNetwork [] [] false /\
    Client.writer c' = Writer.__init__.
Proof.
  apply (proj1 (proj2 (@write_failures sample_tokens sample_cipher sample_body
                         None
                         (Client.set_net (Client.mkNetwork [] [] false)
                            (sample_client []))))
           sample_frame sample_plain Writer.__init__).
  - reflexivity.
  - discriminate.
  - reflexivity.
Defined.

Lemma read_failures_witness :
  exists c',
    @Client._read sample_tokens sample_cipher
      (sample_client [Client.Recv []]) = (Raise ConnectionError, c') /\
    Client.socket c' = None /\ Client.account_info c' = None /\
    Client.counter c' = 0 /\
    Client.sent (Client.net c') = [] /\
    Client.reader c' = Reader.__init__.
Proof.
  apply (@read_failures sample_tokens sample_cipher
           (sample_client [Client.Recv []])).
  right. exists (Client.Recv []), []. split; [reflexivity |]. auto.
Defined.

(** ** Stanzas off the wire *)

Section WireFacts.
Context {T : Tokens} {C : Cipher}.

Lemma frameable_spec (n : Node) :
  frameable n = true ->
  well_formed n = true /\
  exists p, Writer._node n = Ok p /\ len p < 2 ^ 20.
Proof.
  unfold frameable. intros H. apply andb_prop in H. destruct H as [H1 H2].
  split; [exact H1 |].
  destruct (Writer._node n) as [p | |]; try discriminate.
  exists p. split; [reflexivity |]. apply Z.ltb_lt. exact H2.
Qed.

Lemma plain_frames_length (nodes : list Node) :
  forallb frameable nodes = true ->
  (length nodes <= length (plain_frames nodes))%nat.
Proof.
  induction nodes as [| n nodes IH]; intros H; [simpl; lia |].
  cbn [forallb] in H. apply andb_prop in H. destruct H as [H1 H2].
  destruct (frameable_spec n H1) as (_ & p & Ep & _).
  cbn [plain_frames]. rewrite Ep, int24_value, !length_app.
  specialize (IH H2). simpl. lia.
Qed.

(** The loop of [_read] takes the frames of carried nodes off the buffer,
    one node each. *)
Lemma read_loop_frames (nodes : list Node) :
  forall fuel acc c tail,
    forallb frameable nodes = true ->
    Reader.buf (Client.reader c) = plain_frames nodes ++ tail ->
    exists off',
      Client.read_loop (length nodes + fuel) acc c =
      Client.read_loop fuel (acc ++ nodes)
        (Client.set_reader
           (Reader.mk tail off' (Reader.decrypt (Client.reader c))) c).
Proof.
  induction nodes as [| n nodes IH]; intros fuel acc c tail H Hb.
  - cbn [plain_frames app] in Hb. exists (Reader.offset (Client.reader c)).
    rewrite app_nil_r. cbn [length Nat.add]. f_equal.
    destruct c as [? ? ? ? ? ? ? ? ? ? rd ? ? ? ?]. cbn in *.
    destruct rd. cbn in *. subst. reflexivity.
  - cbn [forallb] in H. apply andb_prop in H. destruct H as [H1 H2].
    destruct (frameable_spec n H1) as (Hw & p & Ep & Hl).
    cbn [plain_frames] in Hb. rewrite Ep in Hb.
    cbn [length Nat.add Client.read_loop].
    destruct (Client.reader c) as [buf off d] eqn:Er. cbn [Reader.buf] in Hb.
    subst buf. rewrite <- !app_assoc.
    destruct (read_plain_frame n p (plain_frames nodes ++ tail) off d Hw Ep Hl)
      as [o1 ->].
    destruct (IH fuel (acc ++ [n])
                (Client.set_reader
                   (Reader.mk (plain_frames nodes ++ tail) o1 d) c) tail H2)
      as [o2 E2]; [reflexivity |].
    rewrite E2. exists o2. rewrite <- app_assoc. reflexivity.
Qed.

Lemma read_chunk (c : Client.t) (nodes : list Node) (tail : str)
      (rest : list Client.event) (k : nat) :
  Client.socket c <> None ->
  Client.arriving (Client.net c) =
    Client.Recv (plain_frames nodes ++ tail) :: rest ->
  Reader.buf (Client.reader c) = [] ->
  nodes <> [] ->
  forallb frameable nodes = true ->
  S (length (plain_frames nodes ++ tail)) = (length nodes + k)%nat ->
  exists off',
    Client._read c =
    Client.read_loop k nodes (received rest tail off' c).
Proof.
  intros Hs Ha Hb Hn Hf Hk. unfold Client._read.
  destruct (Client.socket c) as [sk |] eqn:Es; [| congruence].
  unfold bind at 1. unfold Client.select. rewrite Ha.
  assert (exists c0 chunk, plain_frames nodes ++ tail = c0 :: chunk)
    as (c0 & chunk & Ec).
  { destruct nodes as [| n nodes]; [congruence |].
    cbn [forallb] in Hf. apply andb_prop in Hf. destruct Hf as [H1 _].
    destruct (frameable_spec n H1) as (_ & p & Ep & _).
    cbn [plain_frames]. rewrite Ep, int24_value. cbn [app]. eauto. }
  rewrite Ec. unfold bind at 1. cbv beta iota.
  client_simpl. unfold Reader.data. rewrite Hb. cbn [app Reader.buf].
  rewrite <- Ec. rewrite Hk.
  match goal with
  | |- context [Client.read_loop _ [] ?c1] =>
      destruct (read_loop_frames nodes k [] c1 tail Hf) as [off' E];
        [reflexivity |]
  end.
  rewrite E. exists off'. reflexivity.
Qed.

(** X16: stanzas come off the wire in order.  When a chunk that holds the
    plain frames of carried nodes, each encoding shorter than [2^20] bytes,
    arrives at a connected client whose buffer is empty, [_read] answers
    exactly those nodes in the order of their frames, leaves the buffer
    empty and sends nothing. *)
Theorem read_in_wire_order (c : Client.t) (nodes : list Node)
        (rest : list Client.event) :
  Client.socket c <> None ->
  Client.arriving (Client.net c) = Client.Recv (plain_frames nodes) :: rest ->
  Reader.buf (Client.reader c) = [] ->
  nodes <> [] ->
  forallb frameable nodes = true ->
  exists c',
    Client._read c = (Ok nodes, c') /\
    Reader.buf (Client.reader c') = [] /\
    Client.arriving (Client.net c') = rest /\
    Client.sent (Client.net c') = Client.sent (Client.net c) /\
    Client.socket c' = Client.socket c.
Proof.
  intros Hs Ha Hb Hn Hf.
  pose proof (plain_frames_length nodes Hf) as HL.
  destruct (read_chunk c nodes [] rest
              (S (length (plain_frames nodes) - length nodes)))
    as [off' E]; auto.
  - rewrite app_nil_r. exact Ha.
  - rewrite app_nil_r. lia.
  - rewrite E. cbn [Client.read_loop]. unfold received. client_simpl.
    unfold Reader.read. cbn [Reader.buf]. change (len [] <=? 2) with true.
    cbv iota. eexists. split; [reflexivity |]. cbn. auto.
Qed.

(** X17: the end of the stream.  When the chunk ends, after the frames of
    carried nodes, with a plain frame whose payload is a list start
    followed by [0x02], [_read] raises [ConnectionError] and leaves the
    client disconnected (no socket, no account information, counter [0]):
    the nodes that came in the same chunk are not answered. *)
Theorem read_end_of_stream (c : Client.t) (nodes : list Node) (L : Z)
        (ls : str) (rest : list Client.event) :
  Client.socket c <> None ->
  0 <= L <= 0xFFFF ->
  Writer.list_start L = Ok ls ->
  Client.arriving (Client.net c) =
    Client.Recv (plain_frames nodes ++
                 Writer.int24 (len (ls ++ [x02])) ++ ls ++ [x02]) :: rest ->
  Reader.buf (Client.reader c) = [] ->
  nodes <> [] ->
  forallb frameable nodes = true ->
  exists c',
    Client._read c = (Raise ConnectionError, c') /\
    Client.socket c' = None /\ Client.account_info c' = None /\
    Client.counter c' = 0 /\
    Client.sent (Client.net c') = Client.sent (Client.net c).
Proof.
  intros Hs HL Hls Ha Hb Hn Hf.
  pose proof (plain_frames_length nodes Hf) as HN.
  set (tail := Writer.int24 (len (ls ++ [x02])) ++ ls ++ [x02]) in *.
  destruct (read_chunk c nodes tail rest
              (S (length (plain_frames nodes ++ tail) - length nodes)))
    as [off' E]; auto.
  { rewrite length_app. lia. }
  rewrite E. cbn [Client.read_loop]. unfold received. client_simpl.
  destruct (list_start_roundtrip L HL) as (e & We & Le & _ & Re).
  rewrite Hls in We. injection We as <-.
  assert (len (ls ++ [x02]) < 2 ^ 20) as Hlen.
  { rewrite len_app. unfold Writer.list_start in Hls.
    destruct (L =? 0); [injection Hls as <-; reflexivity |].
    destruct (L <=? 0xFF).
    - destruct (chr L) as [x | |] eqn:Ec; try discriminate.
      unfold chr in Ec. destruct ((0 <=? L) && (L <? 256)); try discriminate.
      injection Ec as <-. injection Hls as <-. reflexivity.
    - injection Hls as <-. reflexivity. }
  pose proof (len_nonneg (ls ++ [x02])) as H0.
  destruct (header_word_int24 (len (ls ++ [x02])))
    as (c0 & c1 & c2 & E24 & HW).
  { change (2 ^ 20) with 1048576 in *. change (2 ^ 24) with 16777216. lia. }
  unfold tail. rewrite E24. cbn [app]. rewrite read_unfold. cbv zeta.
  rewrite HW.
  destruct (header_fields 0 (len (ls ++ [x02]))) as [Hfl Hle]; [lia | lia |].
  cbn [Z.mul Z.add] in Hfl, Hle. rewrite Hfl, Hle. zdecide.
  change (negb (Z.land 0 Reader.ENCRYPTED_IN =? 0)) with false. cbv iota.
  unfold bind at 1. unfold Reader._peek at 1.
  unfold bind at 1. unfold Reader._read, Reader.budget. cbn [Reader.buf].
  destruct ls as [| l0 ls]; [simpl in Le; lia |].
  cbn [app length Reader._read_fuel]. unfold bind at 1.
  destruct (Re [x02] (off' + 3) (Reader.decrypt (Client.reader c))) as [o1 E1].
  cbn [app] in E1. rewrite E1.
  unfold bind at 1. rewrite peek_int8_cons. change (ord1 x02) with 2.
  zdecide. unfold bind at 1.
  match goal with
  | |- context [Reader._consume 1 (Reader.mk [x02] ?o ?dd)] =>
      change (Reader._consume 1 (Reader.mk [x02] o dd))
        with (@Ok str [x02], Reader.mk [] (o + 1) dd)
  end.
  unfold raise.
  eexists. split; [reflexivity |]. cbn. auto.
Qed.

(** ** Stanzas that are answered *)

Lemma read_nodes_state (c : Client.t) (nodes : list Node)
      (rest : list Client.event) :
  Client.socket c <> None ->
  Client.arriving (Client.net c) = Client.Recv (plain_frames nodes) :: rest ->
  Reader.buf (Client.reader c) = [] ->
  nodes <> [] ->
  forallb frameable nodes = true ->
  exists off', Client._read c = (Ok nodes, received rest [] off' c).
Proof.
  intros Hs Ha Hb Hn Hf.
  pose proof (plain_frames_length nodes Hf) as HL.
  destruct (read_chunk c nodes [] rest
              (S (length (plain_frames nodes) - length nodes)))
    as [off' E]; auto.
  - rewrite app_nil_r. exact Ha.
  - rewrite app_nil_r. lia.
  - rewrite E. exists off'. reflexivity.
Qed.





(** X20: a stream error ends the handling of its chunk.  When a chunk of
    plain frames arrives whose first stanza is a [stream:error] with a
    child, [_incoming] raises [StreamError]: nothing is sent, the socket
    stays open, no callback object changes, and the stanzas that came after
    it in the chunk are gone from the buffer without having been handled. *)
Theorem stream_error_drops_rest (fuel : nat) (c : Client.t) (n child : Node)
        (others more : list Node) (rest : list Client.event) :
  Client.socket c <> None ->
  Reader.buf (Client.reader c) = [] ->
  Client.arriving (Client.net c) =
    Client.Recv (plain_frames (n :: more)) :: rest ->
  forallb frameable (n :: more) = true ->
  name n = b "stream:error" ->
  children n = child :: others ->
  exists c',
    Client._incoming (S fuel) c = (Raise StreamError, c') /\
    Reader.buf (Client.reader c') = [] /\
    Client.arriving (Client.net c') = rest /\
    Client.sent (Client.net c') = Client.sent (Client.net c) /\
    Client.socket c' = Client.socket c /\
    Client.objects c' = Client.objects c.
Proof.
  intros Hs Hb Ha Hf Hname Hch.
  destruct (read_nodes_state c (n :: more) rest) as [off' E]; auto.
  { discriminate. }
  cbn [Client._incoming]. unfold bind at 1. rewrite E.
  cbn [for_each]. unfold bind at 1. unfold bind at 1.
  unfold Client.dispatch. rewrite Hname, Hch.
  change (str_eqb (b "stream:error") (b "challenge")) with false.
  change (str_eqb (b "stream:error") (b "message")) with false.
  change (str_eqb (b "stream:error") (b "ib")) with false.
  change (str_eqb (b "stream:error") (b "iq")) with false.
  change (str_eqb (b "stream:error") (b "notification")) with false.
  change (str_eqb (b "stream:error") (b "start")
          || str_eqb (b "stream:error") (b "stream:features")) with false.
  change (str_eqb (b "stream:error") (b "stream:error")) with true.
  cbv iota. unfold raise.
  eexists. split; [reflexivity |]. unfold received. client_simpl. auto.
Qed.

End WireFacts.

Lemma read_in_wire_order_witness :
  exists c',
    @Client._read sample_tokens sample_cipher
      (sample_client
         [Client.Recv (@plain_frames sample_tokens [sample_body; sample_pong]);
          Client.Timeout]) =
    (Ok [sample_body; sample_pong], c') /\
    Reader.buf (Client.reader c') = [] /\
    Client.arriving (Client.net c') = [Client.Timeout] /\
    Client.sent (Client.net c') = [] /\
    Client.socket c' = Some Client.TcpSocket.
Proof.
  apply (@read_in_wire_order sample_tokens sample_cipher
           (sample_client
              [Client.Recv
                 (@plain_frames sample_tokens [sample_body; sample_pong]);
               Client.Timeout])
           [sample_body; sample_pong] [Client.Timeout]).
  - discriminate.
  - reflexivity.
  - reflexivity.
  - discriminate.
  - vm_compute. reflexivity.
Defined.

Lemma read_end_of_stream_witness :
  exists c',
    @Client._read sample_tokens sample_cipher
      (sample_client
         [Client.Recv (@plain_frames sample_tokens [sample_body] ++
                       [x00; x00; x03; xf8; x01; x02])]) =
    (Raise ConnectionError, c') /\
    Client.socket c' = None /\ Client.account_info c' = None /\
    Client.counter c' = 0 /\
    Client.sent (Client.net c') = [].
Proof.
  apply (@read_end_of_stream sample_tokens sample_cipher
           (sample_client
              [Client.Recv (@plain_frames sample_tokens [sample_body] ++
                            [x00; x00; x03; xf8; x01; x02])])
           [sample_body] 1 [xf8; x01] []).
  - discriminate.
  - lia.
  - reflexivity.
  - reflexivity.
  - reflexivity.
  - discriminate.
  - vm_compute. reflexivity.
Defined.



Lemma stream_error_drops_rest_witness :
  exists c',
    @Client._incoming sample_tokens sample_cipher 1
      (sample_client
         [Client.Recv (@plain_frames sample_tokens
                         [sample_stream_error; sample_ping])]) =
    (Raise StreamError, c') /\
    Reader.buf (Client.reader c') = [] /\
    Client.arriving (Client.net c') = [] /\
    Client.sent (Client.net c') = [] /\
    Client.socket c' = Some Client.TcpSocket /\
    Client.objects c' = [].
Proof.
  apply (@stream_error_drops_rest sample_tokens sample_cipher 0
           (sample_client
              [Client.Recv (@plain_frames sample_tokens
                              [sample_stream_error; sample_ping])])
           sample_stream_error (Node_new (b "system-shutdown")) []
           [sample_ping] []).
  - discriminate.
  - reflexivity.
  - reflexivity.
  - vm_compute. reflexivity.
  - reflexivity.
  - reflexivity.
Defined.

(** ** The registry of callbacks *)

Section RegistryFacts.
Context {T : Tokens} {C : Cipher}.

Lemma str_eqb_sym (x y : str) : str_eqb x y = str_eqb y x.
Proof.
  destruct (str_eqb x y) eqn:E, (str_eqb y x) eqn:E'; auto.
  - apply str_eqb_eq in E. subst. rewrite str_eqb_refl in E'. discriminate.
  - apply str_eqb_eq in E'. subst. rewrite str_eqb_refl in E. discriminate.
Qed.

Lemma registry_get_set (d : list (str * list nat)) (k k' : str)
      (v : list nat) :
  Client.registry_get (Client.registry_set d k v) k' =
  if str_eqb k k' then Some v else Client.registry_get d k'.
Proof.
  induction d as [| [k0 v0] d IH];
    cbn [Client.registry_set Client.registry_get].
  - destruct (str_eqb k k'); reflexivity.
  - destruct (str_eqb k0 k) eqn:E0; cbn [Client.registry_get].
    + apply str_eqb_eq in E0. subst k0. destruct (str_eqb k k'); reflexivity.
    + rewrite IH. destruct (str_eqb k0 k') eqn:E1; [| reflexivity].
      apply str_eqb_eq in E1. subst k'. rewrite str_eqb_sym, E0. reflexivity.
Qed.

Lemma for_each_app {S A} (l1 l2 : list A) (f : A -> SM S unit) (s : S) :
  for_each (l1 ++ l2) f s = bind (for_each l1 f) (fun _ => for_each l2 f) s.
Proof.
  revert s. induction l1 as [| a l1 IH]; intros s; cbn [for_each app].
  - reflexivity.
  - unfold bind. destruct (f a s) as [[[] | e |] s1]; auto.
Qed.

Lemma register_one (c : Client.t) (ref : nat) (cb : Callback.t) :
  nth_error (Client.objects c) ref = Some cb ->
  exists D,
    Client.register_callback [ref] c = (Ok tt, Client.set_callbacks D c) /\
    forall k,
      registered (Client.set_callbacks D c) k =
      if str_eqb (Callback.name cb) k then ref :: registered c k
      else registered c k.
Proof.
  intros Hn. unfold Client.register_callback. cbn [for_each].
  unfold bind, Client.deref, Client.registry_default, ret. rewrite Hn.
  destruct (Client.registry_get (Client.callbacks c) (Callback.name cb))
    as [l |] eqn:E; client_simpl.
  - eexists. split; [reflexivity |]. intros k. unfold registered.
    client_simpl. rewrite registry_get_set.
    destruct (str_eqb (Callback.name cb) k) eqn:Ek; [| reflexivity].
    apply str_eqb_eq in Ek. subst k. rewrite E. reflexivity.
  - eexists. split; [reflexivity |]. intros k. unfold registered.
    client_simpl. rewrite !registry_get_set.
    destruct (str_eqb (Callback.name cb) k) eqn:Ek; [| reflexivity].
    apply str_eqb_eq in Ek. subst k. rewrite E. reflexivity.
Qed.

Lemma unregister_one (c : Client.t) (ref : nat) (cb : Callback.t)
      (l' : list nat) :
  nth_error (Client.objects c) ref = Some cb ->
  Client.remove_first (registered c (Callback.name cb)) ref = Some l' ->
  exists D,
    Client.unregister_callback [ref] c = (Ok tt, Client.set_callbacks D c) /\
    forall k,
      registered (Client.set_callbacks D c) k =
      if str_eqb (Callback.name cb) k then l' else registered c k.
Proof.
  intros Hn Hr. unfold Client.unregister_callback. cbn [for_each].
  unfold bind, Client.deref, Client.registry_default, ret. rewrite Hn.
  unfold registered in Hr.
  destruct (Client.registry_get (Client.callbacks c) (Callback.name cb))
    as [l |] eqn:E; client_simpl; [| discriminate].
  rewrite Hr. eexists. split; [reflexivity |]. intros k. unfold registered.
  client_simpl. rewrite registry_get_set.
  destruct (str_eqb (Callback.name cb) k) eqn:Ek; reflexivity.
Qed.

Lemma valid_refs_set (c : Client.t) (D : list (str * list nat))
      (cbs : list nat) :
  valid_refs (Client.set_callbacks D c) cbs = valid_refs c cbs.
Proof. reflexivity. Qed.

Lemma refs_under_cons (objs : list Callback.t) (k : str) (ref : nat)
      (cbs : list nat) (cb : Callback.t) :
  nth_error objs ref = Some cb ->
  refs_under objs k (ref :: cbs) =
  if str_eqb (Callback.name cb) k then ref :: refs_under objs k cbs
  else refs_under objs k cbs.
Proof.
  intros Hn. unfold refs_under. cbn [filter]. unfold name_of at 1.
  rewrite Hn. reflexivity.
Qed.

Lemma register_spec (cbs : list nat) :
  forall c : Client.t,
    valid_refs c cbs = true ->
    exists D,
      Client.register_callback cbs c = (Ok tt, Client.set_callbacks D c) /\
      forall k,
        registered (Client.set_callbacks D c) k =
        rev (refs_under (Client.objects c) k cbs) ++ registered c k.
Proof.
  induction cbs as [| ref cbs IH]; intros c Hv.
  - exists (Client.callbacks c). split; [destruct c; reflexivity |].
    intros k. reflexivity.
  - unfold valid_refs in Hv. cbn [forallb] in Hv.
    destruct (nth_error (Client.objects c) ref) as [cb |] eqn:Hn;
      [| discriminate].
    destruct (register_one c ref cb Hn) as (D1 & E1 & V1).
    destruct (IH (Client.set_callbacks D1 c) Hv) as (D2 & E2 & V2).
    exists D2. split.
    + unfold Client.register_callback in *.
      change (ref :: cbs) with ([ref] ++ cbs). rewrite for_each_app.
      unfold bind at 1. rewrite E1. rewrite E2. reflexivity.
    + intros k. change (Client.set_callbacks D2 c)
        with (Client.set_callbacks D2 (Client.set_callbacks D1 c)).
      rewrite V2, V1. client_simpl.
      rewrite (refs_under_cons _ k ref cbs cb Hn).
      destruct (str_eqb (Callback.name cb) k); [| reflexivity].
      cbn [rev]. rewrite <- app_assoc. reflexivity.
Qed.

Lemma remove_first_in (P Q : list nat) (x : nat) :
  In x P ->
  exists P',
    Client.remove_first (P ++ Q) x = Some (P' ++ Q) /\
    Permutation P (x :: P').
Proof.
  induction P as [| y P IH]; intros Hin; [destruct Hin |].
  cbn [app Client.remove_first].
  destruct (Nat.eqb y x) eqn:E.
  - apply Nat.eqb_eq in E. subst y. exists P. split; [reflexivity |].
    apply Permutation_refl.
  - destruct Hin as [-> | Hin]; [rewrite Nat.eqb_refl in E; discriminate |].
    destruct (IH Hin) as (P' & R & Hp). rewrite R. exists (y :: P').
    split; [reflexivity |].
    eapply Permutation_trans; [apply perm_skip, Hp | apply perm_swap].
Qed.

Lemma unregister_spec (cbs : list nat) (old : str -> list nat) :
  forall c : Client.t,
    valid_refs c cbs = true ->
    (forall k, exists P,
        registered c k = P ++ old k /\
        Permutation P (refs_under (Client.objects c) k cbs)) ->
    exists D,
      Client.unregister_callback cbs c = (Ok tt, Client.set_callbacks D c) /\
      forall k, registered (Client.set_callbacks D c) k = old k.
Proof.
  induction cbs as [| ref cbs IH]; intros c Hv Hreg.
  - exists (Client.callbacks c). split; [destruct c; reflexivity |].
    intros k. destruct (Hreg k) as (P & E & Hp).
    apply Permutation_sym, Permutation_nil in Hp. subst P.
    change (registered c k = old k). rewrite E. reflexivity.
  - unfold valid_refs in Hv. cbn [forallb] in Hv.
    destruct (nth_error (Client.objects c) ref) as [cb |] eqn:Hn;
      [| discriminate].
    destruct (Hreg (Callback.name cb)) as (P & E & Hp).
    rewrite (refs_under_cons _ _ ref cbs cb Hn), str_eqb_refl in Hp.
    assert (In ref P) as Hin.
    { eapply Permutation_in; [apply Permutation_sym, Hp | left; reflexivity]. }
    destruct (remove_first_in P (old (Callback.name cb)) ref Hin)
      as (P' & R & Hp').
    rewrite <- E in R.
    destruct (unregister_one c ref cb _ Hn R) as (D1 & E1 & V1).
    destruct (IH (Client.set_callbacks D1 c) Hv) as (D2 & E2 & V2).
    { intros k. rewrite V1. client_simpl.
      destruct (str_eqb (Callback.name cb) k) eqn:Ek.
      - apply str_eqb_eq in Ek. subst k. exists P'. split; [reflexivity |].
        eapply Permutation_cons_inv.
        eapply Permutation_trans; [apply Permutation_sym, Hp' | exact Hp].
      - destruct (Hreg k) as (Pk & Ek' & Hpk).
        rewrite (refs_under_cons _ _ ref cbs cb Hn), Ek in Hpk.
        exists Pk. split; assumption. }
    exists D2. split.
    + unfold Client.unregister_callback in *.
      change (ref :: cbs) with ([ref] ++ cbs). rewrite for_each_app.
      unfold bind at 1. rewrite E1. rewrite E2. reflexivity.
    + exact V2.
Qed.

Lemma first_called_spec (cbs : list nat) (c : Client.t) :
  valid_refs c cbs = true ->
  Client.first_called cbs c = (Ok (first_latched (Client.objects c) cbs), c).
Proof.
  induction cbs as [| ref cbs IH]; intros Hv; [reflexivity |].
  unfold valid_refs in Hv. cbn [forallb] in Hv.
  cbn [Client.first_called first_latched]. unfold bind, Client.deref.
  destruct (nth_error (Client.objects c) ref) as [cb |]; [| discriminate].
  destruct (Callback.called cb); [reflexivity | apply IH, Hv].
Qed.

(** X21: callbacks are registered at the front.  Registering a list of
    callbacks whose references are all valid succeeds, changes nothing of
    the client but the registry, and puts under every stanza name the
    callbacks of the list that are on that name, the last one of the list
    first, before the callbacks that were registered already. *)
Theorem register_at_front (c : Client.t) (cbs : list nat) :
  valid_refs c cbs = true ->
  let c' := snd (Client.register_callback cbs c) in
  fst (Client.register_callback cbs c) = Ok tt /\
  c' = Client.set_callbacks (Client.callbacks c') c /\
  forall k,
    registered c' k =
    rev (refs_under (Client.objects c) k cbs) ++ registered c k.
Proof.
  intros Hv. destruct (register_spec cbs c Hv) as (D & E & V).
  cbv zeta. rewrite E. cbn [fst snd]. split; [reflexivity |].
  split; [reflexivity | exact V].
Qed.

(** X22: unregistering undoes registering.  After a list of callbacks with
    valid references has been registered, unregistering the same list
    succeeds and leaves under every stanza name the callbacks that were
    there before, in their order; nothing else of the client changes.
    This holds also when a callback is twice in the list or was registered
    before. *)
Theorem register_then_unregister (c : Client.t) (cbs : list nat) :
  valid_refs c cbs = true ->
  let c1 := snd (Client.register_callback cbs c) in
  let c2 := snd (Client.unregister_callback cbs c1) in
  fst (Client.unregister_callback cbs c1) = Ok tt /\
  c2 = Client.set_callbacks (Client.callbacks c2) c /\
  forall k, registered c2 k = registered c k.
Proof.
  intros Hv. destruct (register_spec cbs c Hv) as (D & E & V).
  cbv zeta. rewrite E. cbn [snd].
  destruct (unregister_spec cbs (registered c) (Client.set_callbacks D c))
    as (D2 & E2 & V2).
  - exact Hv.
  - intros k. exists (rev (refs_under (Client.objects c) k cbs)).
    split; [apply V |]. apply Permutation_sym, Permutation_rev.
  - rewrite E2. cbn [fst snd]. split; [reflexivity |].
    split; [reflexivity | exact V2].
Qed.

(** X23: a callback that has latched already is not waited for.  When one
    of the callbacks has latched before the call, registering the list and
    calling [wait_for_callback] answers at once with the result of the
    first latched callback of the list, or raises it when it is an
    exception: nothing is read from the connection and nothing is sent,
    whatever is about to arrive, and the callbacks are unregistered
    again. *)
Theorem latched_is_not_waited_for (fuel : nat) (c : Client.t)
        (cbs : list nat) (cb : Callback.t) :
  valid_refs c cbs = true ->
  first_latched (Client.objects c) cbs = Some cb ->
  let c1 := snd (Client.register_callback cbs c) in
  let c2 := snd (Client.wait_for_callback (S fuel) cbs c1) in
  fst (Client.wait_for_callback (S fuel) cbs c1) =
    answer_of (Callback.result cb) /\
  Client.net c2 = Client.net c /\
  Client.reader c2 = Client.reader c /\
  Client.objects c2 = Client.objects c /\
  forall k, registered c2 k = registered c k.
Proof.
  intros Hv Hl. destruct (register_spec cbs c Hv) as (D & E & V).
  cbv zeta. rewrite E. cbn [snd].
  destruct (unregister_spec cbs (registered c) (Client.set_callbacks D c))
    as (D2 & E2 & V2).
  - exact Hv.
  - intros k. exists (rev (refs_under (Client.objects c) k cbs)).
    split; [apply V |]. apply Permutation_sym, Permutation_rev.
  - unfold Client.wait_for_callback. cbn [Client.wait_loop].
    unfold bind. rewrite first_called_spec by exact Hv.
    client_simpl. rewrite Hl. unfold ret, raise. rewrite E2.
    unfold answer_of.
    destruct (is_exception (Callback.result cb)); cbn [fst snd];
      (split; [reflexivity |]); client_simpl; auto.
Qed.

End RegistryFacts.

Lemma register_at_front_witness :
  let c' := snd (@Client.register_callback sample_cipher [1%nat; 0%nat; 1%nat]
                   registry_client) in
  fst (@Client.register_callback sample_cipher [1%nat; 0%nat; 1%nat]
         registry_client) = Ok tt /\
  @registered sample_tokens sample_cipher c' (b "iq") =
    [1%nat; 1%nat; 2%nat] /\
  @registered sample_tokens sample_cipher c' (b "presence") = [0%nat].
Proof.
  cbv zeta.
  destruct (@register_at_front sample_tokens sample_cipher registry_client
              [1%nat; 0%nat; 1%nat]) as (H1 & _ & H3).
  - reflexivity.
  - split; [exact H1 |].
    split; [exact (H3 (b "iq")) | exact (H3 (b "presence"))].
Defined.

Lemma register_then_unregister_witness :
  let c1 := snd (@Client.register_callback sample_cipher
                   [1%nat; 0%nat; 2%nat] registry_client) in
  let c2 := snd (@Client.unregister_callback sample_cipher
                   [1%nat; 0%nat; 2%nat] c1) in
  fst (@Client.unregister_callback sample_cipher [1%nat; 0%nat; 2%nat] c1) =
    Ok tt /\
  @registered sample_tokens sample_cipher c2 (b "iq") = [2%nat] /\
  @registered sample_tokens sample_cipher c2 (b "presence") = [].
Proof.
  cbv zeta.
  destruct (@register_then_unregister sample_tokens sample_cipher
              registry_client [1%nat; 0%nat; 2%nat]) as (H1 & _ & H3).
  - reflexivity.
  - split; [exact H1 |].
    split; [exact (H3 (b "iq")) | exact (H3 (b "presence"))].
Defined.

Lemma latched_is_not_waited_for_witness :
  let c1 := snd (@Client.register_callback sample_cipher [0%nat; 1%nat]
                   registry_client) in
  let c2 := snd (@Client.wait_for_callback sample_tokens sample_cipher 1
                   [0%nat; 1%nat] c1) in
  fst (@Client.wait_for_callback sample_tokens sample_cipher 1
         [0%nat; 1%nat] c1) = Ok (VInt 42) /\
  Client.net c2 = Client.net registry_client /\
  @registered sample_tokens sample_cipher c2 (b "iq") = [2%nat].
Proof.
  cbv zeta.
  destruct (@latched_is_not_waited_for sample_tokens sample_cipher 0
              registry_client [0%nat; 1%nat] latched_callback)
    as (H1 & H2 & _ & _ & H5).
  - reflexivity.
  - reflexivity.
  - split; [exact H1 |]. split; [exact H2 | exact (H5 (b "iq"))].
Defined.
